(** * vag-lzss: the LZSS codec of [lzss.c], embedded and verified

    The development follows [src/lzss.c]:
    - the token layout (two wire bytes per match),
    - the encoder [EncodeLZSS] with its match search, its flag framing and
      its two padding policies,
    - the decoder [DecodeLZSS] with its circular sliding window and its
      staging buffer.

    C integers are modelled as [Z].  Values held in an [unsigned char]
    are reduced modulo 256 where the C code stores them ([uchar]); the
    quantities of type [long] (positions and sizes) are bounded by the size
    of the input, which the C code holds in a [malloc]ed buffer, so they
    are used without wrap-around.  Bytes of files and arrays are
    [Byte.byte].  The truth values [dontPad] and [exactPad] (0 or 1 in
    [main]) are modelled as [bool]. *)

From Stdlib Require Import ZArith Lia List Bool.
From Stdlib Require Import Init.Byte Strings.Byte.
From stdpp Require Import base option list.

Local Open Scope Z_scope.

(* ===================================================================== *)
(** * Constants *)
(* ===================================================================== *)

Definition WINDOW_SIZE : Z := 1023.
Definition MAX_UNCODED : Z := 2.
Definition MAX_CODED : Z := 61 + MAX_UNCODED + 1.
Definition MAX_LENGTH : Z := 63.

(* ===================================================================== *)
(** * Bytes and C conversions *)
(* ===================================================================== *)

(** The value of an [unsigned char] promoted to [int]. *)
Definition byte_val (b : byte) : Z := Z.of_N (Byte.to_N b).

(** Reduction of an [int] to the range of [unsigned char]. *)
Definition uchar (z : Z) : Z := z mod 256.

(** The conversion [(unsigned char) z], as a stored byte. *)
Definition to_uchar (z : Z) : byte :=
  match Byte.of_N (Z.to_N (uchar z)) with
  | Some b => b
  | None => x00
  end.

(** The conversion of a [long] to a 32-bit [int]. *)
Definition to_int (z : Z) : Z := (z + 2147483648) mod 4294967296 - 2147483648.

(* ===================================================================== *)
(** * Token layout *)
(* ===================================================================== *)

(** Encoder, lines 478-479: the two wire bytes of a match. *)
Definition pack_byte0 (bestOffset bestLength : Z) : byte :=
  to_uchar (Z.lor (Z.shiftr bestOffset 8) (Z.shiftl bestLength 2)).

Definition pack_byte1 (bestOffset : Z) : byte :=
  to_uchar (Z.land bestOffset 255).

(** Decoder, lines 651-652: [code_length] and [code_offset] hold the two
    bytes as read by [getc]. *)
Definition unpack_offset (code_length code_offset : Z) : Z :=
  code_offset + Z.shiftl (Z.land code_length 3) 8.

Definition unpack_length (code_length : Z) : Z :=
  Z.shiftr code_length 2.

(* ===================================================================== *)
(** * The encoder *)
(* ===================================================================== *)

(** [inputData[i]].  Every read of the encoder is guarded by the loop
    bounds of the source; outside the buffer the model returns 0. *)
Definition inputData_at (inputData : list byte) (i : Z) : byte :=
  default x00 (inputData !! Z.to_nat i).

(** Lines 441-447: count matching bytes; [n] is the number of iterations
    left before [matchLen < maxCheck] fails. *)
Fixpoint count_matching (inputData : list byte) (current candidate : Z)
    (n : nat) (matchLen : Z) : Z :=
  match n with
  | O => matchLen
  | S n' =>
      if negb (Byte.eqb (inputData_at inputData (current + matchLen))
                        (inputData_at inputData (candidate + matchLen)))
      then matchLen
      else count_matching inputData current candidate n' (matchLen + 1)
  end.

(** Line 438. *)
Definition max_check (remaining searchOffset : Z) : Z :=
  if remaining <? searchOffset then remaining else searchOffset.

(** Lines 417-463: the scan over candidate distances; [n] is the number of
    values of [searchOffset] left up to [searchLimit].  The result is the
    pair [(bestLength, bestOffset)]. *)
Fixpoint search_loop (inputData : list byte) (inputPos remaining : Z)
    (n : nat) (searchOffset bestLength bestOffset : Z) : Z * Z :=
  match n with
  | O => (bestLength, bestOffset)
  | S n' =>
      let current := inputPos in
      let candidate := current - searchOffset in
      if negb (Byte.eqb (inputData_at inputData current)
                        (inputData_at inputData candidate))
      then search_loop inputData inputPos remaining n' (searchOffset + 1)
             bestLength bestOffset
      else if (bestLength <? remaining)
              && negb (Byte.eqb (inputData_at inputData (current + bestLength))
                                (inputData_at inputData (candidate + bestLength)))
      then search_loop inputData inputPos remaining n' (searchOffset + 1)
             bestLength bestOffset
      else
        let maxCheck := max_check remaining searchOffset in
        let matchLen :=
          count_matching inputData current candidate (Z.to_nat maxCheck) 0 in
        let best :=
          if matchLen >? bestLength then (matchLen, searchOffset)
          else (bestLength, bestOffset) in
        if matchLen >? MAX_LENGTH then (MAX_LENGTH, searchOffset)
        else search_loop inputData inputPos remaining n' (searchOffset + 1)
               (fst best) (snd best)
  end.

(** The same scan with the two quick rejection checks (lines 424-434)
    removed: every candidate goes through the full comparison. *)
Fixpoint search_loop_nocheck (inputData : list byte) (inputPos remaining : Z)
    (n : nat) (searchOffset bestLength bestOffset : Z) : Z * Z :=
  match n with
  | O => (bestLength, bestOffset)
  | S n' =>
      let current := inputPos in
      let candidate := current - searchOffset in
      let maxCheck := max_check remaining searchOffset in
      let matchLen :=
        count_matching inputData current candidate (Z.to_nat maxCheck) 0 in
      let best :=
        if matchLen >? bestLength then (matchLen, searchOffset)
        else (bestLength, bestOffset) in
      if matchLen >? MAX_LENGTH then (MAX_LENGTH, searchOffset)
      else search_loop_nocheck inputData inputPos remaining n' (searchOffset + 1)
             (fst best) (snd best)
  end.

(** Line 412. *)
Definition search_limit (inputPos : Z) : Z :=
  if inputPos <=? WINDOW_SIZE then inputPos else WINDOW_SIZE.

(** Lines 404-470: the match search at [inputPos], including the final cap;
    returns [(bestLength, bestOffset)]. *)
Definition find_best (inputData : list byte) (inputPos : Z) : Z * Z :=
  let inputSize := Z.of_nat (length inputData) in
  let remaining := inputSize - inputPos in
  let searchLimit := search_limit inputPos in
  let found :=
    if searchLimit >=? 3
    then search_loop inputData inputPos remaining
           (Z.to_nat (searchLimit - 2)) 3 2 0
    else (2, 0) in
  let bestLength := fst found in
  let bestOffset := snd found in
  let bestLength := if bestLength >? MAX_LENGTH then MAX_LENGTH else bestLength in
  (bestLength, bestOffset).

Definition find_best_nocheck (inputData : list byte) (inputPos : Z) : Z * Z :=
  let inputSize := Z.of_nat (length inputData) in
  let remaining := inputSize - inputPos in
  let searchLimit := search_limit inputPos in
  let found :=
    if searchLimit >=? 3
    then search_loop_nocheck inputData inputPos remaining
           (Z.to_nat (searchLimit - 2)) 3 2 0
    else (2, 0) in
  let bestLength := fst found in
  let bestOffset := snd found in
  let bestLength := if bestLength >? MAX_LENGTH then MAX_LENGTH else bestLength in
  (bestLength, bestOffset).

(** A token as the encoder emits it. *)
Inductive token : Type :=
  | Literal (b : byte)
  | Match (distance length : Z).

(** Line 473: the decision between a match and a literal. *)
Definition choose_token (inputData : list byte) (inputPos : Z) : token :=
  let '(bestLength, bestOffset) := find_best inputData inputPos in
  if (bestLength >=? 3) && (bestOffset >=? 3)
  then Match bestOffset bestLength
  else Literal (inputData_at inputData inputPos).

(** The local state of [EncodeLZSS].  [enc_encodedData] holds
    [encodedData[0 .. nextEncoded-1]], so that [nextEncoded] is its length;
    [enc_outFile] is what has been written with [putc]. *)
Record enc_state : Type := mk_enc {
  enc_flags : Z;
  enc_flagPos : Z;
  enc_encodedData : list byte;
  enc_inputPos : Z;
  enc_compressedSize : Z;
  enc_outFile : list byte
}.

Definition nextEncoded (st : enc_state) : Z :=
  Z.of_nat (length (enc_encodedData st)).

(** Lines 395-399. *)
Definition enc_init : enc_state :=
  mk_enc 0 128 [] 0 0 [].

(** Lines 473-488: append the token's wire bytes to [encodedData], set its
    flag bit, advance [inputPos]. *)
Definition emit_token (t : token) (st : enc_state) : enc_state :=
  match t with
  | Match bestOffset bestLength =>
      mk_enc (uchar (Z.lor (enc_flags st) (enc_flagPos st)))
             (enc_flagPos st)
             (enc_encodedData st
                ++ [pack_byte0 bestOffset bestLength; pack_byte1 bestOffset])
             (enc_inputPos st + bestLength)
             (enc_compressedSize st)
             (enc_outFile st)
  | Literal b =>
      mk_enc (enc_flags st)
             (enc_flagPos st)
             (enc_encodedData st ++ [b])
             (enc_inputPos st + 1)
             (enc_compressedSize st)
             (enc_outFile st)
  end.

(** Lines 493-500 and 533-539: write the flag byte and the buffered bytes. *)
Definition write_group (st : enc_state) : enc_state :=
  mk_enc (enc_flags st)
         (enc_flagPos st)
         (enc_encodedData st)
         (enc_inputPos st)
         (enc_compressedSize st + 1 + nextEncoded st)
         (enc_outFile st ++ to_uchar (enc_flags st) :: enc_encodedData st).

(** Lines 490-509. *)
Definition advance_group (st : enc_state) : enc_state :=
  if enc_flagPos st =? 1 then
    let st' := write_group st in
    mk_enc 0 128 [] (enc_inputPos st') (enc_compressedSize st') (enc_outFile st')
  else
    mk_enc (enc_flags st) (uchar (Z.shiftr (enc_flagPos st) 1))
           (enc_encodedData st) (enc_inputPos st) (enc_compressedSize st)
           (enc_outFile st).

(** One iteration of the loop of line 402. *)
Definition encode_iter (inputData : list byte) (st : enc_state) : enc_state :=
  advance_group (emit_token (choose_token inputData (enc_inputPos st)) st).

(** The loop of line 402.  Every iteration advances [inputPos] by at least
    one, so [length inputData] iterations are enough (lemma
    [encode_loop_exits]). *)
Fixpoint encode_loop (inputData : list byte) (fuel : nat) (st : enc_state)
    : enc_state :=
  match fuel with
  | O => st
  | S fuel' =>
      if enc_inputPos st <? Z.of_nat (length inputData)
      then encode_loop inputData fuel' (encode_iter inputData st)
      else st
  end.

(** Lines 522-531: in exact mode, fill the pending group with zero-length
    matches.  [flagPos] reaches 0 after at most 8 shifts, so 8 iterations
    are enough. *)
Fixpoint exact_fill (n : nat) (st : enc_state) : enc_state :=
  match n with
  | O => st
  | S n' =>
      if Z.rem (enc_compressedSize st + nextEncoded st + 1) 16 =? 0 then st
      else if enc_flagPos st =? 0 then st
      else exact_fill n'
             (mk_enc (uchar (Z.lor (enc_flags st) (enc_flagPos st)))
                     (uchar (Z.shiftr (enc_flagPos st) 1))
                     (enc_encodedData st ++ [x00; x00])
                     (enc_inputPos st)
                     (enc_compressedSize st)
                     (enc_outFile st))
  end.

(** Lines 513-540: write out the pending group. *)
Definition flush_pending (exactPad : bool) (st : enc_state) : enc_state :=
  if nextEncoded st =? 0 then st
  else
    let totalSize := to_int (enc_compressedSize st + nextEncoded st + 1) in
    let st1 :=
      if exactPad && negb (Z.rem totalSize 16 =? 0)
      then exact_fill 8 st
      else st in
    write_group st1.

(** Lines 547-548.  [padding_block] is an array of [char]; [putc] writes
    its first element as the byte [0xFF] whether [char] is signed or not. *)
Definition padding_lengths : list Z :=
  [0; 1; 18; 3; 20; 5; 22; 7; 24; 9; 26; 11; 28; 13; 30; 15; 0].

Definition padding_block : list Z :=
  [255; 0; 0; 0; 0; 0; 0; 0; 0; 0; 0; 0; 0; 0; 0; 0; 0].

(** Lines 550-553: [n] iterations are left, [i] is the loop index. *)
Fixpoint write_padding (n : nat) (i : Z) (st : enc_state) : enc_state :=
  match n with
  | O => st
  | S n' =>
      write_padding n' (i + 1)
        (mk_enc (enc_flags st) (enc_flagPos st) (enc_encodedData st)
                (enc_inputPos st) (enc_compressedSize st + 1)
                (enc_outFile st
                   ++ [to_uchar (default 0 (padding_block !! Z.to_nat (Z.rem i 17)))]))
  end.

(** Lines 545-554. *)
Definition exact_blocks (st : enc_state) : enc_state :=
  let remainder := 16 - Z.rem (enc_compressedSize st) 16 in
  let remainder := default 0 (padding_lengths !! Z.to_nat remainder) in
  write_padding (Z.to_nat remainder) 0 st.

(** Lines 557-561: at most 15 zero bytes are written. *)
Fixpoint plain_pad (n : nat) (st : enc_state) : enc_state :=
  match n with
  | O => st
  | S n' =>
      if Z.rem (enc_compressedSize st) 16 =? 0 then st
      else plain_pad n'
             (mk_enc (enc_flags st) (enc_flagPos st) (enc_encodedData st)
                     (enc_inputPos st) (enc_compressedSize st + 1)
                     (enc_outFile st ++ [x00]))
  end.

(** [EncodeLZSS]: the bytes written to [outFile] for the input file
    [inputData]. *)
Definition EncodeLZSS (inputData : list byte) (dontPad exactPad : bool)
    : list byte :=
  let inputSize := Z.of_nat (length inputData) in
  if inputSize <=? 0 then []
  else
    let st := encode_loop inputData (length inputData) enc_init in
    let st := flush_pending exactPad st in
    let st := if exactPad then exact_blocks st else st in
    let st := if negb dontPad then plain_pad 15 st else st in
    enc_outFile st.

(* ===================================================================== *)
(** * The decoder *)
(* ===================================================================== *)

(** Array accesses of the decoder are checked: an index outside the array
    makes the access fail, and the failure is propagated as [OutOfBounds]. *)
Definition array_read (a : list byte) (i : Z) : option byte :=
  if 0 <=? i then a !! Z.to_nat i else None.

Definition array_write (a : list byte) (i : Z) (v : byte) : option (list byte) :=
  if (0 <=? i) && (i <? Z.of_nat (length a))
  then Some (<[Z.to_nat i := v]> a)
  else None.

(** The state of [DecodeLZSS]: its locals, the two global arrays, what is
    left to read from [inFile] and what has been written to [outFile]. *)
Record dec_state : Type := mk_dec {
  dec_flags : Z;
  dec_flagsUsed : Z;
  dec_nextChar : Z;
  dec_slidingWindow : list byte;
  dec_uncodedLookahead : list byte;
  dec_inFile : list byte;
  dec_outFile : list byte
}.

(** Lines 591-603; [uncodedLookahead] is a zero-initialised global. *)
Definition dec_init (inFile : list byte) : dec_state :=
  mk_dec 0 7 0
         (replicate (Z.to_nat WINDOW_SIZE) x11)
         (replicate (Z.to_nat MAX_CODED) x00)
         inFile [].

(** Lines 660-671: copy [code.length] bytes from the window to [outFile] and
    to the staging buffer.  [n] iterations are left, [i] is the loop index. *)
Fixpoint copy_from_window (n : nat) (i nextChar code_offset : Z)
    (slidingWindow uncodedLookahead outFile : list byte)
    : option (list byte * list byte) :=
  match n with
  | O => Some (uncodedLookahead, outFile)
  | S n' =>
      let src_pos :=
        if nextChar >=? code_offset
        then nextChar - code_offset + i
        else WINDOW_SIZE - code_offset + nextChar + i in
      c ← array_read slidingWindow (Z.rem src_pos WINDOW_SIZE);
      uncodedLookahead' ← array_write uncodedLookahead i c;
      copy_from_window n' (i + 1) nextChar code_offset
        slidingWindow uncodedLookahead' (outFile ++ [c])
  end.

(** Lines 674-678: write the staged bytes to the window. *)
Fixpoint copy_to_window (n : nat) (i nextChar : Z)
    (slidingWindow uncodedLookahead : list byte) : option (list byte) :=
  match n with
  | O => Some slidingWindow
  | S n' =>
      c ← array_read uncodedLookahead i;
      slidingWindow' ←
        array_write slidingWindow (Z.rem (nextChar + i) WINDOW_SIZE) c;
      copy_to_window n' (i + 1) nextChar slidingWindow' uncodedLookahead
  end.

(** The four [break] statements of the loop, by what [getc] was asked for. *)
Inductive break_at : Type :=
  | EofFlags      (* line 615 *)
  | EofLiteral    (* line 627 *)
  | EofLength     (* line 640 *)
  | EofOffset.    (* line 645 *)

Inductive iter_result : Type :=
  | Next (st : dec_state)
  | Break (why : break_at) (st : dec_state)
  | OutOfBounds.

(** Lines 607-608: [flags <<= 1; flagsUsed++], both [unsigned char]. *)
Definition shift_flags (st : dec_state) : dec_state :=
  mk_dec (uchar (Z.shiftl (dec_flags st) 1)) (uchar (dec_flagsUsed st + 1))
         (dec_nextChar st) (dec_slidingWindow st) (dec_uncodedLookahead st)
         (dec_inFile st) (dec_outFile st).

(** Lines 607-620: shift the flags and fetch a new flag byte when the eight
    bits are used up; [None] is the [break] of line 615. *)
Definition next_flags (st : dec_state) : option dec_state :=
  let st1 := shift_flags st in
  if dec_flagsUsed st1 =? 8 then
    match dec_inFile st1 with
    | [] => None
    | c :: rest =>
        Some (mk_dec (uchar (Z.land (byte_val c) 255)) 0 (dec_nextChar st1)
                (dec_slidingWindow st1) (dec_uncodedLookahead st1)
                rest (dec_outFile st1))
    end
  else Some st1.

(** Lines 622-681: decode one token. *)
Definition decode_token (st : dec_state) : iter_result :=
  if Z.land (dec_flags st) 128 =? 0 then
    match dec_inFile st with
    | [] => Break EofLiteral st
    | c :: rest =>
        match array_write (dec_slidingWindow st) (dec_nextChar st) c with
        | None => OutOfBounds
        | Some slidingWindow' =>
            Next (mk_dec (dec_flags st) (dec_flagsUsed st)
                    (Z.rem (dec_nextChar st + 1) WINDOW_SIZE)
                    slidingWindow' (dec_uncodedLookahead st)
                    rest (dec_outFile st ++ [c]))
        end
    end
  else
    match dec_inFile st with
    | [] => Break EofLength st
    | b0 :: rest0 =>
        match rest0 with
        | [] =>
            Break EofOffset
              (mk_dec (dec_flags st) (dec_flagsUsed st) (dec_nextChar st)
                 (dec_slidingWindow st) (dec_uncodedLookahead st)
                 rest0 (dec_outFile st))
        | b1 :: rest =>
            let code_offset := unpack_offset (byte_val b0) (byte_val b1) in
            let code_length := unpack_length (byte_val b0) in
            match copy_from_window (Z.to_nat code_length) 0 (dec_nextChar st)
                    code_offset (dec_slidingWindow st)
                    (dec_uncodedLookahead st) (dec_outFile st) with
            | None => OutOfBounds
            | Some (uncodedLookahead', outFile') =>
                match copy_to_window (Z.to_nat code_length) 0 (dec_nextChar st)
                        (dec_slidingWindow st) uncodedLookahead' with
                | None => OutOfBounds
                | Some slidingWindow' =>
                    Next (mk_dec (dec_flags st) (dec_flagsUsed st)
                            (Z.rem (dec_nextChar st + code_length) WINDOW_SIZE)
                            slidingWindow' uncodedLookahead'
                            rest outFile')
                end
            end
        end
    end.

(** One iteration of the loop of line 605. *)
Definition decode_iter (st : dec_state) : iter_result :=
  match next_flags st with
  | None => Break EofFlags (shift_flags st)
  | Some st' => decode_token st'
  end.

Inductive run_result : Type :=
  | Finished (why : break_at) (st : dec_state)
  | Faulted
  | OutOfFuel.

(** The loop of line 605.  Every iteration that does not break reads at
    least one byte of [inFile], so one more iteration than there are bytes
    is enough (lemma [decode_loop_enough_fuel]). *)
Fixpoint decode_loop (fuel : nat) (st : dec_state) : run_result :=
  match fuel with
  | O => OutOfFuel
  | S fuel' =>
      match decode_iter st with
      | Next st' => decode_loop fuel' st'
      | Break why st' => Finished why st'
      | OutOfBounds => Faulted
      end
  end.

Definition DecodeLZSS (inFile : list byte) : run_result :=
  decode_loop (S (length inFile)) (dec_init inFile).

(** The content of [outFile] when the decoder returns. *)
Definition decoded (r : run_result) : option (list byte) :=
  match r with
  | Finished _ st => Some (dec_outFile st)
  | Faulted | OutOfFuel => None
  end.

(* ===================================================================== *)
(** * FindMatch *)
(* ===================================================================== *)

(** [encoded_string_t], lines 60-64: the fields [offset] and [length]. *)
Record encoded_string_t : Type := mk_encoded_string {
  es_offset : Z;
  es_length : Z
}.

(** Lines 309-313. *)
Definition fm_max_check (uncodedTail search_offset : Z) : Z :=
  let max_check := uncodedTail in
  let max_check :=
    if max_check >? MAX_CODED - 1 then MAX_CODED - 1 else max_check in
  if max_check >? search_offset then search_offset else max_check.

(** Lines 316-323: count matching bytes; [n] is the number of iterations
    left before [j < max_check] fails.  The accesses to the two global
    arrays are checked, as in the decoder. *)
Fixpoint fm_count (slidingWindow uncodedLookahead : list byte)
    (candidate_pos uncodedHead : Z) (n : nat) (j : Z) : option Z :=
  match n with
  | O => Some j
  | S n' =>
      let src_pos := Z.rem (candidate_pos + j) WINDOW_SIZE in
      a ← array_read slidingWindow src_pos;
      b ← array_read uncodedLookahead (Z.rem (uncodedHead + j) MAX_CODED);
      if negb (Byte.eqb a b) then Some j
      else fm_count slidingWindow uncodedLookahead candidate_pos uncodedHead
             n' (j + 1)
  end.

(** Lines 287-337: the scan over the distances; [n] is the number of values
    of [search_offset] left up to [WINDOW_SIZE]. *)
Fixpoint find_match_loop (slidingWindow uncodedLookahead : list byte)
    (windowHead uncodedHead uncodedTail : Z) (n : nat)
    (search_offset : Z) (matchData : encoded_string_t)
    : option encoded_string_t :=
  match n with
  | O => Some matchData
  | S n' =>
      let continue :=
        find_match_loop slidingWindow uncodedLookahead
          windowHead uncodedHead uncodedTail n' (search_offset + 1) in
      let candidate_pos :=
        Z.rem (windowHead - search_offset + WINDOW_SIZE) WINDOW_SIZE in
      a ← array_read slidingWindow candidate_pos;
      b ← array_read uncodedLookahead (Z.rem uncodedHead MAX_CODED);
      if negb (Byte.eqb a b) then continue matchData
      else
        rejected ←
          (if es_length matchData <? uncodedTail then
             let check_pos :=
               Z.rem (candidate_pos + es_length matchData) WINDOW_SIZE in
             a' ← array_read slidingWindow check_pos;
             b' ← array_read uncodedLookahead
                    (Z.rem (uncodedHead + es_length matchData) MAX_CODED);
             Some (negb (Byte.eqb a' b'))
           else Some false);
        if rejected : bool then continue matchData
        else
          let max_check := fm_max_check uncodedTail search_offset in
          j ← fm_count slidingWindow uncodedLookahead candidate_pos uncodedHead
                (Z.to_nat max_check) 0;
          if j >? es_length matchData then
            let matchData' := mk_encoded_string search_offset j in
            if j >=? MAX_CODED - 1 then Some matchData'
            else continue matchData'
          else continue matchData
  end.

(** [FindMatch], lines 275-347, over the two global arrays. *)
Definition FindMatch (slidingWindow uncodedLookahead : list byte)
    (windowHead uncodedHead uncodedTail : Z) : option encoded_string_t :=
  matchData ←
    find_match_loop slidingWindow uncodedLookahead
      windowHead uncodedHead uncodedTail
      (Z.to_nat (WINDOW_SIZE - 2)) 3 (mk_encoded_string 0 2);
  if es_length matchData <=? 2 then Some (mk_encoded_string 0 0)
  else Some matchData.

(* ===================================================================== *)
(** * main *)
(* ===================================================================== *)

(** [MODES], lines 66-70. *)
Inductive MODES : Type :=
  | ENCODE
  | DECODE.

Inductive exit_status : Type :=
  | EXIT_SUCCESS
  | EXIT_FAILURE.

(** A [FILE *] of [main]: a standard stream or a file that [fopen] has
    opened. *)
Inductive FILE : Type :=
  | stdin
  | stdout
  | opened (file : nat).

(** What [main] sees of the outside.  A path, the bytes of [optarg],
    denotes a file, and several paths can denote the same one;
    [w_files] is the content of the files that exist, [w_creatable] tells
    the paths that [fopen] can open for writing.  The standard streams are
    kept apart from the files; [ftell] fails on a [stdin] that cannot be
    sought.  What goes to [stderr] is left out. *)
Record world : Type := mk_world {
  w_file_of : list byte -> nat;
  w_files : nat -> option (list byte);
  w_creatable : list byte -> bool;
  w_stdin : list byte;
  w_stdin_seekable : bool;
  w_stdout : list byte
}.

Definition set_file (w : world) (file : nat) (content : list byte) : world :=
  mk_world (w_file_of w)
           (fun n => if Nat.eqb n file then Some content else w_files w n)
           (w_creatable w) (w_stdin w) (w_stdin_seekable w) (w_stdout w).

(** [fopen (name, "rb")]: the file that [name] denotes has to exist. *)
Definition fopen_rb (w : world) (name : list byte) : option FILE :=
  match w_files w (w_file_of w name) with
  | Some _ => Some (opened (w_file_of w name))
  | None => None
  end.

(** [fopen (name, "wb")]: the file that [name] denotes is created, or
    truncated to length zero. *)
Definition fopen_wb (w : world) (name : list byte) : option (FILE * world) :=
  if w_creatable w name
  then Some (opened (w_file_of w name), set_file w (w_file_of w name) [])
  else None.

(** The bytes that can be read from a stream. *)
Definition file_content (w : world) (f : FILE) : list byte :=
  match f with
  | stdin => w_stdin w
  | stdout => []
  | opened file => default [] (w_files w file)
  end.

(** Whether [fseek] and [ftell] work on a stream (lines 373-375). *)
Definition seekable (w : world) (f : FILE) : bool :=
  match f with
  | stdin => w_stdin_seekable w
  | stdout => false
  | opened _ => true
  end.

(** The bytes written with [putc] or [printf] go behind what the stream
    holds. *)
Definition put_bytes (w : world) (f : FILE) (bytes : list byte) : world :=
  match f with
  | stdin => w
  | stdout =>
      mk_world (w_file_of w) (w_files w) (w_creatable w) (w_stdin w)
               (w_stdin_seekable w) (w_stdout w ++ bytes)
  | opened file => set_file w file (default [] (w_files w file) ++ bytes)
  end.

(** Line 207, followed by 2 line feeds:
    Usage: lzss <options> *)
Definition usage_line_207 : list byte :=
  [x55; x73; x61; x67; x65; x3a; x20; x6c; x7a; x73; x73; x20;
   x3c; x6f; x70; x74; x69; x6f; x6e; x73; x3e; x0a; x0a].

(** Line 208, followed by 1 line feed:
    options: *)
Definition usage_line_208 : list byte :=
  [x6f; x70; x74; x69; x6f; x6e; x73; x3a; x0a].

(** Line 209, followed by 1 line feed:
    -c : Encode input file to output file. *)
Definition usage_line_209 : list byte :=
  [x20; x20; x2d; x63; x20; x3a; x20; x45; x6e; x63; x6f; x64;
   x65; x20; x69; x6e; x70; x75; x74; x20; x66; x69; x6c; x65;
   x20; x74; x6f; x20; x6f; x75; x74; x70; x75; x74; x20; x66;
   x69; x6c; x65; x2e; x0a].

(** Line 210, followed by 1 line feed:
    -d : Decode input file to output file. *)
Definition usage_line_210 : list byte :=
  [x20; x20; x2d; x64; x20; x3a; x20; x44; x65; x63; x6f; x64;
   x65; x20; x69; x6e; x70; x75; x74; x20; x66; x69; x6c; x65;
   x20; x74; x6f; x20; x6f; x75; x74; x70; x75; x74; x20; x66;
   x69; x6c; x65; x2e; x0a].

(** Line 211, followed by 1 line feed:
    -e : pad compressed data to produce exact length decompressed data *)
Definition usage_line_211 : list byte :=
  [x20; x20; x2d; x65; x20; x3a; x20; x70; x61; x64; x20; x63;
   x6f; x6d; x70; x72; x65; x73; x73; x65; x64; x20; x64; x61;
   x74; x61; x20; x74; x6f; x20; x70; x72; x6f; x64; x75; x63;
   x65; x20; x65; x78; x61; x63; x74; x20; x6c; x65; x6e; x67;
   x74; x68; x20; x64; x65; x63; x6f; x6d; x70; x72; x65; x73;
   x73; x65; x64; x20; x64; x61; x74; x61; x0a].

(** Line 212, followed by 1 line feed:
    -i <filename> : Name of input file. *)
Definition usage_line_212 : list byte :=
  [x20; x20; x2d; x69; x20; x3c; x66; x69; x6c; x65; x6e; x61;
   x6d; x65; x3e; x20; x3a; x20; x4e; x61; x6d; x65; x20; x6f;
   x66; x20; x69; x6e; x70; x75; x74; x20; x66; x69; x6c; x65;
   x2e; x0a].

(** Line 213, followed by 1 line feed:
    -o <filename> : Name of output file. *)
Definition usage_line_213 : list byte :=
  [x20; x20; x2d; x6f; x20; x3c; x66; x69; x6c; x65; x6e; x61;
   x6d; x65; x3e; x20; x3a; x20; x4e; x61; x6d; x65; x20; x6f;
   x66; x20; x6f; x75; x74; x70; x75; x74; x20; x66; x69; x6c;
   x65; x2e; x0a].

(** Line 214, followed by 1 line feed:
    -s : Use STDIN/STDOUT. *)
Definition usage_line_214 : list byte :=
  [x20; x20; x2d; x73; x20; x3a; x20; x55; x73; x65; x20; x53;
   x54; x44; x49; x4e; x2f; x53; x54; x44; x4f; x55; x54; x2e;
   x0a].

(** Line 215, followed by 1 line feed:
    -p : Do not pad output data to multiples of 0x10. *)
Definition usage_line_215 : list byte :=
  [x20; x20; x2d; x70; x20; x3a; x20; x44; x6f; x20; x6e; x6f;
   x74; x20; x70; x61; x64; x20; x6f; x75; x74; x70; x75; x74;
   x20; x64; x61; x74; x61; x20; x74; x6f; x20; x6d; x75; x6c;
   x74; x69; x70; x6c; x65; x73; x20; x6f; x66; x20; x30; x78;
   x31; x30; x2e; x0a].

(** Line 216, followed by 2 line feeds:
    -h | ?  : Print out command line options. *)
Definition usage_line_216 : list byte :=
  [x20; x20; x2d; x68; x20; x7c; x20; x3f; x20; x20; x3a; x20;
   x50; x72; x69; x6e; x74; x20; x6f; x75; x74; x20; x63; x6f;
   x6d; x6d; x61; x6e; x64; x20; x6c; x69; x6e; x65; x20; x6f;
   x70; x74; x69; x6f; x6e; x73; x2e; x0a; x0a].

(** Line 217, followed by 1 line feed:
    Default: lzss -c *)
Definition usage_line_217 : list byte :=
  [x44; x65; x66; x61; x75; x6c; x74; x3a; x20; x6c; x7a; x73;
   x73; x20; x2d; x63; x0a].

(** Lines 207-217: the text that the [printf] calls write to [stdout]; no
    format string holds a conversion. *)
Definition usage_text : list byte :=
  usage_line_207
  ++ usage_line_208
  ++ usage_line_209
  ++ usage_line_210
  ++ usage_line_211
  ++ usage_line_212
  ++ usage_line_213
  ++ usage_line_214
  ++ usage_line_215
  ++ usage_line_216
  ++ usage_line_217.

(** The call of line 251: when [ftell] fails, [inputSize] is -1 and line
    377 returns before anything is written. *)
Definition EncodeLZSS_files (w : world) (inFile outFile : FILE)
    (dontPad exactPad : bool) : world :=
  if seekable w inFile
  then put_bytes w outFile (EncodeLZSS (file_content w inFile) dontPad exactPad)
  else w.

(** The call of line 255. *)
Definition DecodeLZSS_files (w : world) (inFile outFile : FILE) : world :=
  match decoded (DecodeLZSS (file_content w inFile)) with
  | Some out => put_bytes w outFile out
  | None => w
  end.

(** The locals of [main], lines 115-126. *)
Record main_locals : Type := mk_locals {
  m_inFile : option FILE;
  m_outFile : option FILE;
  m_mode : MODES;
  m_dontPad : bool;
  m_exactPad : bool
}.

Inductive parse_result : Type :=
  | Parsed (l : main_locals) (w : world)
  | Exited (status : exit_status) (w : world).

(** Lines 131-219: the [switch] on the character [opt] that [getopt]
    returned, with its [optarg].  The characters are 'c' = 0x63,
    'd' = 0x64, 'e' = 0x65, 'i' = 0x69, 'o' = 0x6f, 'p' = 0x70, 's' = 0x73,
    'h' = 0x68 and '?' = 0x3f; the options 't' and 'n' of the option string
    have no case.  The messages of the failing cases go to [stderr]. *)
Definition main_option (opt : byte) (optarg : list byte)
    (l : main_locals) (w : world) : parse_result :=
  match opt with
  | x63 =>
      Parsed (mk_locals (m_inFile l) (m_outFile l) ENCODE
                (m_dontPad l) (m_exactPad l)) w
  | x64 =>
      Parsed (mk_locals (m_inFile l) (m_outFile l) DECODE
                (m_dontPad l) (m_exactPad l)) w
  | x65 =>
      Parsed (mk_locals (m_inFile l) (m_outFile l) (m_mode l)
                (m_dontPad l) true) w
  | x69 =>
      match m_inFile l with
      | Some _ => Exited EXIT_FAILURE w
      | None =>
          match fopen_rb w optarg with
          | None => Exited EXIT_FAILURE w
          | Some f =>
              Parsed (mk_locals (Some f) (m_outFile l) (m_mode l)
                        (m_dontPad l) (m_exactPad l)) w
          end
      end
  | x6f =>
      match m_outFile l with
      | Some _ => Exited EXIT_FAILURE w
      | None =>
          match fopen_wb w optarg with
          | None => Exited EXIT_FAILURE w
          | Some (f, w') =>
              Parsed (mk_locals (m_inFile l) (Some f) (m_mode l)
                        (m_dontPad l) (m_exactPad l)) w'
          end
      end
  | x70 =>
      Parsed (mk_locals (m_inFile l) (m_outFile l) (m_mode l)
                true (m_exactPad l)) w
  | x73 =>
      Parsed (mk_locals (Some stdin) (Some stdout) (m_mode l)
                (m_dontPad l) (m_exactPad l)) w
  | x68 | x3f => Exited EXIT_SUCCESS (put_bytes w stdout usage_text)
  | _ => Parsed l w
  end.

(** The loop of line 129 over the options that [getopt] returns, in the
    order of the command line. *)
Fixpoint main_parse (opts : list (byte * list byte)) (l : main_locals)
    (w : world) : parse_result :=
  match opts with
  | [] => Parsed l w
  | (opt, optarg) :: opts' =>
      match main_option opt optarg l w with
      | Parsed l' w' => main_parse opts' l' w'
      | Exited status w' => Exited status w'
      end
  end.

(** [main], lines 113-261: the exit status and what it leaves behind. *)
Definition main (opts : list (byte * list byte)) (w : world)
    : exit_status * world :=
  match main_parse opts (mk_locals None None ENCODE false false) w with
  | Exited status w' => (status, w')
  | Parsed l w' =>
      match m_inFile l, m_outFile l with
      | None, _ => (EXIT_FAILURE, w')
      | Some _, None => (EXIT_FAILURE, w')
      | Some inFile, Some outFile =>
          match m_mode l with
          | ENCODE =>
              (EXIT_SUCCESS,
               EncodeLZSS_files w' inFile outFile (m_dontPad l) (m_exactPad l))
          | DECODE => (EXIT_SUCCESS, DecodeLZSS_files w' inFile outFile)
          end
      end
  end.

(* ===================================================================== *)
(** * Notions used to state and prove the properties *)
(* ===================================================================== *)

(** The matched byte count of the candidate at distance [searchOffset]:
    what lines 438-447 compute for it. *)
Definition match_count (inputData : list byte) (inputPos searchOffset : Z) : Z :=
  count_matching inputData inputPos (inputPos - searchOffset)
    (Z.to_nat (max_check (Z.of_nat (length inputData) - inputPos) searchOffset)) 0.

(** The window index read by iteration [i] of the loop of line 660. *)
Definition window_src (nextChar code_offset i : Z) : Z :=
  Z.rem (if nextChar >=? code_offset
         then nextChar - code_offset + i
         else WINDOW_SIZE - code_offset + nextChar + i) WINDOW_SIZE.

(** The invariant of the decoding loop: both arrays keep their size,
    [nextChar] is the output length modulo the window size, and the window
    holds the last 1023 bytes written to [outFile]. *)
Definition dec_inv (st : dec_state) : Prop :=
  Z.of_nat (length (dec_slidingWindow st)) = WINDOW_SIZE
  /\ Z.of_nat (length (dec_uncodedLookahead st)) = MAX_CODED
  /\ dec_nextChar st = Z.of_nat (length (dec_outFile st)) mod WINDOW_SIZE
  /\ forall p : nat,
       (p < length (dec_outFile st))%nat ->
       Z.of_nat (length (dec_outFile st)) <= Z.of_nat p + WINDOW_SIZE ->
       dec_slidingWindow st !! Z.to_nat (Z.of_nat p mod WINDOW_SIZE)
       = dec_outFile st !! p.

(** The same decoder state with more bytes behind what is left of [inFile]. *)
Definition with_more_input (st : dec_state) (more : list byte) : dec_state :=
  mk_dec (dec_flags st) (dec_flagsUsed st) (dec_nextChar st)
         (dec_slidingWindow st) (dec_uncodedLookahead st)
         (dec_inFile st ++ more) (dec_outFile st).

Definition is_match (t : token) : bool :=
  match t with
  | Literal _ => false
  | Match _ _ => true
  end.

(** The bytes of a token in [encodedData]. *)
Definition wire (t : token) : list byte :=
  match t with
  | Literal b => [b]
  | Match d l => [pack_byte0 d l; pack_byte1 d]
  end.

Definition wire_all (ts : list token) : list byte := concat (map wire ts).

(** The bytes a token stands for, after [out] has been produced. *)
Definition token_bytes (out : list byte) (t : token) : list byte :=
  match t with
  | Literal b => [b]
  | Match d l => take (Z.to_nat l) (drop (length out - Z.to_nat d) out)
  end.

Fixpoint expand (out : list byte) (ts : list token) : list byte :=
  match ts with
  | [] => out
  | t :: ts' => expand (out ++ token_bytes out t) ts'
  end.

(** A token that copies from what has already been produced, without
    overlapping what it produces. *)
Definition token_ok (out : list byte) (t : token) : Prop :=
  match t with
  | Literal _ => True
  | Match d l =>
      0 <= l <= MAX_LENGTH /\ l <= d <= WINDOW_SIZE /\ d <= Z.of_nat (length out)
  end.

Fixpoint tokens_ok (out : list byte) (ts : list token) : Prop :=
  match ts with
  | [] => True
  | t :: ts' => token_ok out t /\ tokens_ok (out ++ token_bytes out t) ts'
  end.

(** The zero-length, zero-distance match of the exact padding. *)
Definition pad_token : token := Match 0 0.

(** [reaches st st']: the loop started in [st] gets to [st'] after some
    iterations, none of which breaks. *)
Definition reaches (st st' : dec_state) : Prop :=
  exists n : nat, forall fuel, decode_loop (n + fuel) st = decode_loop fuel st'.

(** The bits of [f] from position [top] downward are the kinds of the
    tokens of [g], in order. *)
Definition bits_agree (f top : Z) (g : list token) : Prop :=
  forall (j : nat) (t : token),
    g !! j = Some t -> Z.testbit f (top - Z.of_nat j) = is_match t.

(** A flag byte and the tokens it announces. *)
Definition group : Type := (byte * list token)%type.

Definition group_bytes (g : group) : list byte := fst g :: wire_all (snd g).

Definition groups_bytes (gs : list group) : list byte :=
  concat (map group_bytes gs).

Definition groups_tokens (gs : list group) : list token :=
  concat (map snd gs).

Definition group_wf (g : group) : Prop :=
  (length (snd g) <= 8)%nat /\ bits_agree (byte_val (fst g)) 7 (snd g).

Definition full_group (g : group) : Prop :=
  length (snd g) = 8%nat /\ group_wf g.

(** The flag bits after the tokens of the group are clear. *)
Definition tail_clear (g : group) : Prop :=
  forall i, 0 <= i < 8 - Z.of_nat (length (snd g)) ->
            Z.testbit (byte_val (fst g)) i = false.

Definition fin_bytes (fin : option group) : list byte :=
  match fin with
  | Some g => group_bytes g
  | None => []
  end.

Definition fin_tokens (fin : option group) : list token :=
  match fin with
  | Some g => snd g
  | None => []
  end.

Definition low7_zero (f : Z) : Prop :=
  forall i, 0 <= i < 7 -> Z.testbit f i = false.

(** The value of [flagPos] when [k] tokens are pending. *)
Definition flag_pos_of (k : nat) : Z :=
  if (k <? 8)%nat then 2 ^ (7 - Z.of_nat k) else 0.

(** [flags], [flagPos] and [encodedData] hold the pending tokens [g]. *)
Definition enc_repr (st : enc_state) (g : list token) : Prop :=
  (length g <= 8)%nat
  /\ enc_flagPos st = flag_pos_of (length g)
  /\ enc_encodedData st = wire_all g
  /\ 0 <= enc_flags st < 256
  /\ bits_agree (enc_flags st) 7 g
  /\ (forall i, 0 <= i < 8 - Z.of_nat (length g) ->
                Z.testbit (enc_flags st) i = false).

(** The flag and buffer fields after one more token: lines 478-488 (or
    527-529) followed by the shift of line 508 (or 530). *)
Definition push_token (t : token) (st : enc_state) : enc_state :=
  mk_enc (if is_match t then uchar (Z.lor (enc_flags st) (enc_flagPos st))
          else enc_flags st)
         (uchar (Z.shiftr (enc_flagPos st) 1))
         (enc_encodedData st ++ wire t)
         (enc_inputPos st) (enc_compressedSize st) (enc_outFile st).

(** The number of input bytes a token covers (lines 481 and 487). *)
Definition token_len (t : token) : Z :=
  match t with
  | Literal _ => 1
  | Match _ l => l
  end.

(** After some iterations: [outFile] holds full groups [gs], the tokens [g]
    are pending, and all the tokens together stand for the input up to
    [inputPos]. *)
Definition enc_inv (inputData : list byte) (st : enc_state)
    (gs : list group) (g : list token) : Prop :=
  Forall full_group gs
  /\ enc_outFile st = groups_bytes gs
  /\ enc_compressedSize st = Z.of_nat (length (enc_outFile st))
  /\ enc_repr st g
  /\ 0 <= enc_inputPos st <= Z.of_nat (length inputData)
  /\ tokens_ok [] (groups_tokens gs ++ g)
  /\ expand [] (groups_tokens gs ++ g)
     = take (Z.to_nat (enc_inputPos st)) inputData.

(** A byte stream made of full groups [gs] and a last shorter group [fin],
    whose tokens stand for [B]. *)
Definition stream_shape (B s : list byte) (gs : list group) (fin : option group)
    : Prop :=
  s = groups_bytes gs ++ fin_bytes fin
  /\ Forall full_group gs
  /\ match fin with
     | Some g => group_wf g /\ (length (snd g) < 8)%nat
     | None => True
     end
  /\ tokens_ok [] (groups_tokens gs ++ fin_tokens fin)
  /\ expand [] (groups_tokens gs ++ fin_tokens fin) = B.

Definition zero_friendly (fin : option group) : Prop :=
  match fin with
  | Some g => tail_clear g /\ snd g <> []
  | None => True
  end.

(** The bytes written by the loop of lines 550-553. *)
Fixpoint padding_bytes (n : nat) (i : Z) : list byte :=
  match n with
  | O => []
  | S n' =>
      to_uchar (default 0 (padding_block !! Z.to_nat (Z.rem i 17)))
      :: padding_bytes n' (i + 1)
  end.

(** A padding block, or the beginning of one: the flag byte [0xFF] and [m]
    zero-length matches. *)
Definition pad_group (m : nat) : group := (xff, replicate m pad_token).

(** The groups that the padding bytes form when [r0] is the size modulo 16
    before the padding. *)
Definition block_groups (r0 : Z) : list group :=
  if (r0 =? 0) || Z.odd r0 then [] else [pad_group 8].

Definition block_fin (r0 : Z) : option group :=
  if r0 =? 0 then None
  else Some (pad_group (Z.to_nat (if Z.odd r0 then (15 - r0) / 2 else (14 - r0) / 2))).

(** The first [n] bytes of the lookahead are equal to the bytes of the
    window that start [search_offset] behind [windowHead], at the indices
    that lines 290, 318 and 319 compute. *)
Definition fm_matches (slidingWindow uncodedLookahead : list byte)
    (windowHead uncodedHead search_offset n : Z) : Prop :=
  forall i, 0 <= i < n ->
    slidingWindow
      !! Z.to_nat (Z.rem (Z.rem (windowHead - search_offset + WINDOW_SIZE)
                            WINDOW_SIZE + i) WINDOW_SIZE)
    = uncodedLookahead !! Z.to_nat (Z.rem (uncodedHead + i) MAX_CODED).

(** [matchData] is the best match among the distances from 3 up to, and
    without, [limit]: it is the initial [(0, 2)] or a match of three bytes
    or more, no distance matches more bytes, and none before it as many. *)
Definition fm_best (slidingWindow uncodedLookahead : list byte)
    (windowHead uncodedHead uncodedTail limit : Z)
    (matchData : encoded_string_t) : Prop :=
  ((es_length matchData = 2 /\ es_offset matchData = 0)
   \/ (3 <= es_length matchData
       /\ 3 <= es_offset matchData < limit
       /\ es_length matchData
          <= fm_max_check uncodedTail (es_offset matchData)
       /\ fm_matches slidingWindow uncodedLookahead windowHead uncodedHead
            (es_offset matchData) (es_length matchData)))
  /\ forall search_offset n,
       3 <= search_offset < limit ->
       3 <= n <= fm_max_check uncodedTail search_offset ->
       fm_matches slidingWindow uncodedLookahead windowHead uncodedHead
         search_offset n ->
       n <= es_length matchData
       /\ (n = es_length matchData -> es_offset matchData <= search_offset).

(** The size accounting of the main loop when [k] tokens are pending:
    eight times the bytes produced, plus one flag bit per pending token, is
    at most nine times the input consumed. *)
Definition enc_size_inv (st : enc_state) (k : nat) : Prop :=
  (k < 8)%nat
  /\ enc_flagPos st = flag_pos_of k
  /\ enc_compressedSize st = Z.of_nat (length (enc_outFile st))
  /\ (k = O -> nextEncoded st = 0)
  /\ 8 * enc_compressedSize st + 8 * nextEncoded st + Z.of_nat k
     <= 9 * enc_inputPos st.

(** An option that neither opens a file nor ends the program. *)
Definition plain_option (o : byte * list byte) : Prop :=
  fst o <> x69 /\ fst o <> x6f /\ fst o <> x73 /\ fst o <> x68 /\ fst o <> x3f.

(** The bounds of a match found by the search; a literal has none. *)
Definition match_in_bounds (t : token) : Prop :=
  match t with
  | Literal _ => True
  | Match d l => 3 <= d <= WINDOW_SIZE /\ 3 <= l <= MAX_LENGTH /\ l <= d
  end.

(* ===================================================================== *)
(** * Bytes: the conversions are inverse to each other *)
(* ===================================================================== *)

Ltac zdiv := Z.to_euclidean_division_equations; lia.

Lemma byte_val_range (b : byte) : 0 <= byte_val b < 256.
Proof.
  unfold byte_val. pose proof (Byte.to_N_bounded b). lia.
Qed.

Lemma to_uchar_byte_val (b : byte) : to_uchar (byte_val b) = b.
Proof.
  unfold to_uchar, uchar.
  rewrite Z.mod_small by apply byte_val_range.
  unfold byte_val. rewrite N2Z.id, Byte.of_to_N. reflexivity.
Qed.

Lemma byte_val_to_uchar (z : Z) : byte_val (to_uchar z) = uchar z.
Proof.
  unfold to_uchar.
  assert (Hr : 0 <= uchar z < 256) by (unfold uchar; zdiv).
  destruct (Byte.of_N (Z.to_N (uchar z))) as [b|] eqn:E.
  - apply Byte.to_of_N in E. unfold byte_val. rewrite E. lia.
  - apply Byte.of_N_None_iff in E. lia.
Qed.

Lemma uchar_range (z : Z) : 0 <= uchar z < 256.
Proof. unfold uchar; zdiv. Qed.

Lemma uchar_small (z : Z) : 0 <= z < 256 -> uchar z = z.
Proof. intros; unfold uchar; zdiv. Qed.

Lemma byte_eqb_eq (a b : byte) : Byte.eqb a b = true <-> a = b.
Proof.
  split; [apply Byte.byte_dec_bl | apply Byte.byte_dec_lb].
Qed.

(* ===================================================================== *)
(** * Token layout: packing and unpacking *)
(* ===================================================================== *)

Lemma pack_byte0_val (d l : Z) :
  0 <= d <= 1023 -> 0 <= l <= 63 ->
  byte_val (pack_byte0 d l) = d / 256 + 4 * l.
Proof.
  intros Hd Hl. unfold pack_byte0. rewrite byte_val_to_uchar.
  rewrite Z.shiftr_div_pow2, Z.shiftl_mul_pow2 by lia.
  change (2 ^ 8) with 256. change (2 ^ 2) with 4.
  assert (Hq : 0 <= d / 256 < 4) by zdiv.
  assert (Hland : Z.land (d / 256) (l * 4) = 0).
  { replace (d / 256) with (Z.land (d / 256) (Z.ones 2)).
    2:{ rewrite Z.land_ones by lia. change (2 ^ 2) with 4. zdiv. }
    rewrite <- Z.land_assoc, (Z.land_comm (Z.ones 2)), Z.land_ones by lia.
    change (2 ^ 2) with 4. rewrite Z.mod_mul by lia. apply Z.land_0_r. }
  rewrite <- Z.add_nocarry_lor by exact Hland.
  rewrite uchar_small by lia. lia.
Qed.

Lemma pack_byte1_val (d : Z) :
  0 <= d -> byte_val (pack_byte1 d) = d mod 256.
Proof.
  intros Hd. unfold pack_byte1. rewrite byte_val_to_uchar.
  change 255 with (Z.ones 8). rewrite Z.land_ones by lia.
  change (2 ^ 8) with 256. apply uchar_small. zdiv.
Qed.

Lemma unpack_pack_offset (d l : Z) :
  0 <= d <= 1023 -> 0 <= l <= 63 ->
  unpack_offset (byte_val (pack_byte0 d l)) (byte_val (pack_byte1 d)) = d.
Proof.
  intros Hd Hl. unfold unpack_offset.
  rewrite pack_byte0_val, pack_byte1_val by lia.
  change 3 with (Z.ones 2). rewrite Z.land_ones by lia.
  rewrite Z.shiftl_mul_pow2 by lia.
  change (2 ^ 8) with 256. change (2 ^ 2) with 4. zdiv.
Qed.

Lemma unpack_pack_length (d l : Z) :
  0 <= d <= 1023 -> 0 <= l <= 63 ->
  unpack_length (byte_val (pack_byte0 d l)) = l.
Proof.
  intros Hd Hl. unfold unpack_length.
  rewrite pack_byte0_val by lia.
  rewrite Z.shiftr_div_pow2 by lia. change (2 ^ 2) with 4. zdiv.
Qed.

Lemma unpack_length_range (b : byte) : 0 <= unpack_length (byte_val b) <= 63.
Proof.
  unfold unpack_length. pose proof (byte_val_range b).
  rewrite Z.shiftr_div_pow2 by lia. change (2 ^ 2) with 4. zdiv.
Qed.

Lemma unpack_offset_range (b0 b1 : byte) :
  0 <= unpack_offset (byte_val b0) (byte_val b1) <= 1023.
Proof.
  unfold unpack_offset.
  pose proof (byte_val_range b0). pose proof (byte_val_range b1).
  change 3 with (Z.ones 2). rewrite Z.land_ones by lia.
  rewrite Z.shiftl_mul_pow2 by lia.
  change (2 ^ 8) with 256. change (2 ^ 2) with 4. zdiv.
Qed.

(** C7.  A match is serialized as [byte0 = (length << 2) | (distance >> 8)]
    and [byte1 = distance & 0xFF]; it is deserialized as
    [distance = byte1 + ((byte0 & 3) << 8)] and [length = byte0 >> 2]; for
    every distance in [0, 1023] and every length in [0, 63] the two
    serialized bytes deserialize to the original pair. *)
Theorem match_wire_roundtrip (distance length : Z) :
  0 <= distance <= 1023 -> 0 <= length <= 63 ->
  pack_byte0 distance length
  = to_uchar (Z.lor (Z.shiftl length 2) (Z.shiftr distance 8))
  /\ pack_byte1 distance = to_uchar (Z.land distance 255)
  /\ (forall byte0 byte1 : Z,
        unpack_offset byte0 byte1 = byte1 + Z.shiftl (Z.land byte0 3) 8
        /\ unpack_length byte0 = Z.shiftr byte0 2)
  /\ unpack_offset (byte_val (pack_byte0 distance length))
                   (byte_val (pack_byte1 distance)) = distance
  /\ unpack_length (byte_val (pack_byte0 distance length)) = length.
Proof.
  intros Hd Hl.
  split; [unfold pack_byte0; rewrite Z.lor_comm; reflexivity|].
  split; [reflexivity|].
  split; [intros; split; reflexivity|].
  split; [apply unpack_pack_offset | apply unpack_pack_length]; assumption.
Qed.

Lemma match_wire_roundtrip_witness :
  0 <= 1000 <= 1023 /\ 0 <= 63 <= 63
  /\ unpack_offset (byte_val (pack_byte0 1000 63)) (byte_val (pack_byte1 1000))
     = 1000
  /\ unpack_length (byte_val (pack_byte0 1000 63)) = 63.
Proof.
  split; [lia|]. split; [lia|].
  apply (match_wire_roundtrip 1000 63); lia.
Defined.

(* ===================================================================== *)
(** * The match search *)
(* ===================================================================== *)

Section MatchCount.
Variable inputData : list byte.
Variable inputPos : Z.

Local Abbreviation at_ := (inputData_at inputData).
Local Abbreviation remaining := (Z.of_nat (length inputData) - inputPos).

Lemma count_matching_spec (current candidate : Z) (n : nat) (m : Z) :
  let r := count_matching inputData current candidate n m in
  m <= r <= m + Z.of_nat n
  /\ (forall i, m <= i < r -> at_ (current + i) = at_ (candidate + i))
  /\ (r < m + Z.of_nat n -> at_ (current + r) <> at_ (candidate + r)).
Proof.
  revert m. induction n as [|n IH]; intros m; cbn zeta.
  - cbn. repeat split; intros; lia.
  - cbn [count_matching].
    destruct (Byte.eqb (at_ (current + m)) (at_ (candidate + m))) eqn:E; cbn [negb].
    + apply byte_eqb_eq in E.
      specialize (IH (m + 1)). cbn zeta in IH.
      destruct IH as (Hr & Hall & Hstop).
      repeat split; try lia.
      * intros i Hi. destruct (Z.eq_dec i m) as [->|]; [exact E|].
        apply Hall; lia.
      * intros Hlt. apply Hstop; lia.
    + apply Byte.eqb_false in E.
      repeat split; try lia. intros; exact E.
Qed.

Lemma match_count_range (d : Z) :
  0 <= match_count inputData inputPos d
  /\ (0 <= max_check remaining d ->
      match_count inputData inputPos d <= max_check remaining d).
Proof.
  unfold match_count.
  pose proof (count_matching_spec inputPos (inputPos - d)
                (Z.to_nat (max_check remaining d)) 0) as H.
  cbn zeta in H. lia.
Qed.

Lemma match_count_le (d : Z) :
  match_count inputData inputPos d <= Z.max 0 (max_check remaining d).
Proof.
  unfold match_count.
  pose proof (count_matching_spec inputPos (inputPos - d)
                (Z.to_nat (max_check remaining d)) 0) as H.
  cbn zeta in H. lia.
Qed.

Lemma match_count_bytes (d i : Z) :
  0 <= i < match_count inputData inputPos d ->
  at_ (inputPos + i) = at_ (inputPos - d + i).
Proof.
  unfold match_count.
  pose proof (count_matching_spec inputPos (inputPos - d)
                (Z.to_nat (max_check remaining d)) 0) as H.
  cbn zeta in H. destruct H as (_ & H & _). exact (H i).
Qed.

Lemma match_count_mismatch (d k : Z) :
  0 <= k ->
  at_ (inputPos + k) <> at_ (inputPos - d + k) ->
  match_count inputData inputPos d <= k.
Proof.
  intros Hk Hne.
  destruct (Z_le_gt_dec (match_count inputData inputPos d) k) as [|Hgt]; [assumption|].
  exfalso. apply Hne. apply match_count_bytes. lia.
Qed.

Lemma max_check_bounds (d : Z) :
  max_check remaining d <= d /\ max_check remaining d <= remaining.
Proof. unfold max_check. destruct (Z.ltb_spec remaining d); lia. Qed.

(** The quick rejection checks only skip candidates that cannot improve
    the best match. *)
Lemma search_loop_nocheck_eq (n : nat) (searchOffset bestLength bestOffset : Z) :
  0 <= bestLength <= MAX_LENGTH ->
  search_loop inputData inputPos remaining n searchOffset bestLength bestOffset
  = search_loop_nocheck inputData inputPos remaining n searchOffset bestLength bestOffset.
Proof.
  revert searchOffset bestLength bestOffset.
  induction n as [|n IH]; intros d bl bo Hbl; [reflexivity|].
  cbn [search_loop search_loop_nocheck]. cbv zeta.
  fold (match_count inputData inputPos d).
  pose proof (match_count_range d) as [Hc0 _].
  unfold MAX_LENGTH in *.
  destruct (Byte.eqb (at_ inputPos) (at_ (inputPos - d))) eqn:E1; cbn [negb].
  - destruct (bl <? remaining) eqn:E2; cbn [andb].
    + destruct (Byte.eqb (at_ (inputPos + bl)) (at_ (inputPos - d + bl))) eqn:E3;
        cbn [negb].
      * destruct (match_count inputData inputPos d >? 63) eqn:E4; [reflexivity|].
        apply IH. destruct (Z.gtb_spec (match_count inputData inputPos d) bl),
          (Z.gtb_spec (match_count inputData inputPos d) 63); cbn; try lia; discriminate.
      * apply Byte.eqb_false in E3.
        pose proof (match_count_mismatch d bl ltac:(lia) E3) as Hle.
        destruct (Z.gtb_spec (match_count inputData inputPos d) bl); [lia|].
        destruct (Z.gtb_spec (match_count inputData inputPos d) 63); [lia|].
        cbn [fst snd]. apply IH; lia.
    + destruct (match_count inputData inputPos d >? 63) eqn:E4; [reflexivity|].
      apply IH. destruct (Z.gtb_spec (match_count inputData inputPos d) bl),
        (Z.gtb_spec (match_count inputData inputPos d) 63); cbn; try lia; discriminate.
  - apply Byte.eqb_false in E1.
    assert (Hle : match_count inputData inputPos d <= 0).
    { apply match_count_mismatch; [lia|]. rewrite !Z.add_0_r. exact E1. }
    destruct (Z.gtb_spec (match_count inputData inputPos d) bl); [lia|].
    destruct (Z.gtb_spec (match_count inputData inputPos d) 63); [lia|].
    cbn [fst snd]. apply IH; lia.
Qed.

End MatchCount.

Section Scan.
Variable inputData : list byte.
Variable inputPos : Z.

Local Abbreviation remaining := (Z.of_nat (length inputData) - inputPos).
Local Abbreviation count := (match_count inputData inputPos).

Lemma search_nocheck_step (n : nat) (d bl bo : Z) :
  search_loop_nocheck inputData inputPos remaining (S n) d bl bo
  = if count d >? MAX_LENGTH then (MAX_LENGTH, d)
    else if count d >? bl
         then search_loop_nocheck inputData inputPos remaining n (d + 1) (count d) d
         else search_loop_nocheck inputData inputPos remaining n (d + 1) bl bo.
Proof.
  cbn [search_loop_nocheck]. cbv zeta. fold (count d).
  destruct (count d >? MAX_LENGTH); [reflexivity|].
  destruct (count d >? bl); reflexivity.
Qed.

(** A candidate whose count exceeds 63 ends the scan. *)
Lemma search_nocheck_capped (n : nat) (d bl bo d0 : Z) :
  d <= d0 < d + Z.of_nat n ->
  count d0 > MAX_LENGTH ->
  (forall d', d <= d' < d0 -> count d' <= MAX_LENGTH) ->
  search_loop_nocheck inputData inputPos remaining n d bl bo = (MAX_LENGTH, d0).
Proof.
  revert d bl bo. induction n as [|n IH]; intros d bl bo Hd Hc Hbefore; [lia|].
  rewrite search_nocheck_step.
  destruct (Z.eq_dec d d0) as [->|Hne].
  - destruct (Z.gtb_spec (count d0) MAX_LENGTH); [reflexivity | lia].
  - pose proof (Hbefore d ltac:(lia)).
    destruct (Z.gtb_spec (count d) MAX_LENGTH); [lia|].
    destruct (count d >? bl); apply IH; try lia; intros; apply Hbefore; lia.
Qed.

(** Without such a candidate the scan returns the longest count and the
    smallest distance that reaches it. *)
Lemma search_nocheck_best (n : nat) (d bl bo : Z) :
  (forall d', d <= d' < d + Z.of_nat n -> count d' <= MAX_LENGTH) ->
  forall bl' bo',
  search_loop_nocheck inputData inputPos remaining n d bl bo = (bl', bo') ->
  bl <= bl'
  /\ (forall d', d <= d' < d + Z.of_nat n -> count d' <= bl')
  /\ ((bl' = bl /\ bo' = bo)
      \/ (bl < bl' /\ d <= bo' < d + Z.of_nat n /\ count bo' = bl'
          /\ forall d', d <= d' < bo' -> count d' < bl')).
Proof.
  revert d bl bo. induction n as [|n IH]; intros d bl bo Hall bl' bo' Hres.
  - cbn in Hres. injection Hres as <- <-.
    split; [lia|]. split; [intros; lia|]. left; auto.
  - rewrite search_nocheck_step in Hres.
    pose proof (Hall d ltac:(lia)) as Hd.
    destruct (Z.gtb_spec (count d) MAX_LENGTH); [lia|].
    assert (Hall' : forall d', d + 1 <= d' < d + 1 + Z.of_nat n -> count d' <= MAX_LENGTH)
      by (intros; apply Hall; lia).
    destruct (Z.gtb_spec (count d) bl) as [Hgt|Hle].
    + destruct (IH _ _ _ Hall' _ _ Hres) as (H1 & H2 & H3).
      split; [lia|]. split.
      * intros d' Hd'. destruct (Z.eq_dec d' d) as [->|]; [lia|]. apply H2; lia.
      * right. destruct H3 as [[-> ->] | (H3 & H4 & H5 & H6)].
        -- split; [lia|]. split; [lia|]. split; [lia|]. intros; lia.
        -- split; [lia|]. split; [lia|]. split; [lia|]. intros d' Hd'.
           destruct (Z.eq_dec d' d) as [->|]; [lia|]. apply H6; lia.
    + destruct (IH _ _ _ Hall' _ _ Hres) as (H1 & H2 & H3).
      split; [lia|]. split.
      * intros d' Hd'. destruct (Z.eq_dec d' d) as [->|]; [lia|]. apply H2; lia.
      * destruct H3 as [[-> ->] | (H3 & H4 & H5 & H6)]; [left; auto|].
        right. split; [lia|]. split; [lia|]. split; [lia|]. intros d' Hd'.
        destruct (Z.eq_dec d' d) as [->|]; [lia|]. apply H6; lia.
Qed.

(** Whatever the input, the pair returned by the scan is backed by a
    candidate that really matches that many bytes. *)
Lemma search_nocheck_valid (n : nat) (d bl bo : Z) :
  bl <= MAX_LENGTH ->
  forall bl' bo',
  search_loop_nocheck inputData inputPos remaining n d bl bo = (bl', bo') ->
  (bl' = bl /\ bo' = bo)
  \/ (d <= bo' < d + Z.of_nat n /\ bl' <= MAX_LENGTH /\ bl' <= count bo'
      /\ (bl < bl' \/ bl' = MAX_LENGTH)).
Proof.
  revert d bl bo. induction n as [|n IH]; intros d bl bo Hbl bl' bo' Hres.
  - cbn in Hres. injection Hres as <- <-. left; auto.
  - rewrite search_nocheck_step in Hres.
    destruct (Z.gtb_spec (count d) MAX_LENGTH) as [Hcap|Hcap].
    + injection Hres as <- <-. right. repeat split; lia.
    + destruct (Z.gtb_spec (count d) bl) as [Hgt|Hle].
      * destruct (IH (d + 1) (count d) d Hcap _ _ Hres)
          as [[-> ->] | (H1 & H2 & H3 & H4)];
          right; repeat split; lia.
      * destruct (IH _ _ _ Hbl _ _ Hres) as [[-> ->] | (H1 & H2 & H3 & H4)];
          [left; auto | right; repeat split; lia].
Qed.

End Scan.

Section FindBest.
Variable inputData : list byte.
Variable inputPos : Z.

Local Abbreviation remaining := (Z.of_nat (length inputData) - inputPos).
Local Abbreviation count := (match_count inputData inputPos).
Local Abbreviation searchLimit := (search_limit inputPos).

Lemma search_limit_bounds : searchLimit <= WINDOW_SIZE /\ searchLimit <= inputPos.
Proof.
  unfold search_limit, WINDOW_SIZE. destruct (Z.leb_spec inputPos 1023); lia.
Qed.

Lemma find_best_nocheck_eq :
  find_best inputData inputPos = find_best_nocheck inputData inputPos.
Proof.
  unfold find_best, find_best_nocheck. cbv zeta.
  destruct (searchLimit >=? 3); [|reflexivity].
  rewrite search_loop_nocheck_eq by (unfold MAX_LENGTH; lia). reflexivity.
Qed.

Lemma find_best_nocheck_scan :
  find_best_nocheck inputData inputPos
  = let found := search_loop_nocheck inputData inputPos remaining
                   (Z.to_nat (searchLimit - 2)) 3 2 0 in
    (if fst found >? MAX_LENGTH then MAX_LENGTH else fst found, snd found).
Proof.
  unfold find_best_nocheck. cbv zeta.
  destruct (Z.geb_spec searchLimit 3) as [H|H]; [reflexivity|].
  replace (Z.to_nat (searchLimit - 2)) with O by lia. reflexivity.
Qed.

Lemma find_best_valid (bl bo : Z) :
  find_best inputData inputPos = (bl, bo) ->
  (bl = 2 /\ bo = 0)
  \/ (3 <= bl <= MAX_LENGTH /\ 3 <= bo <= searchLimit /\ bl <= count bo).
Proof.
  rewrite find_best_nocheck_eq, find_best_nocheck_scan. cbv zeta.
  destruct (search_loop_nocheck inputData inputPos remaining
              (Z.to_nat (searchLimit - 2)) 3 2 0) as [bl' bo'] eqn:E.
  cbn [fst snd]. intros Hres.
  apply search_nocheck_valid in E; [|unfold MAX_LENGTH; lia].
  unfold MAX_LENGTH in *.
  destruct E as [[-> ->] | (H1 & H2 & H3 & H4)].
  - left. destruct (Z.gtb_spec 2 63); [lia|]. injection Hres as <- <-. auto.
  - right. destruct (Z.gtb_spec bl' 63); [lia|]. injection Hres as <- <-. lia.
Qed.

Lemma find_best_capped (d0 : Z) :
  3 <= d0 <= searchLimit ->
  count d0 > MAX_LENGTH ->
  (forall d, 3 <= d < d0 -> count d <= MAX_LENGTH) ->
  find_best inputData inputPos = (MAX_LENGTH, d0).
Proof.
  intros Hd Hc Hbefore.
  rewrite find_best_nocheck_eq, find_best_nocheck_scan. cbv zeta.
  rewrite (search_nocheck_capped inputData inputPos _ 3 2 0 d0) by (assumption || lia).
  reflexivity.
Qed.

Lemma find_best_longest (bl bo : Z) :
  (forall d, 3 <= d <= searchLimit -> count d <= MAX_LENGTH) ->
  find_best inputData inputPos = (bl, bo) ->
  (bl = 2 /\ bo = 0 /\ forall d, 3 <= d <= searchLimit -> count d <= 2)
  \/ (3 <= bl /\ 3 <= bo <= searchLimit /\ count bo = bl
      /\ (forall d, 3 <= d <= searchLimit -> count d <= bl)
      /\ (forall d, 3 <= d < bo -> count d < bl)).
Proof.
  intros Hall.
  rewrite find_best_nocheck_eq, find_best_nocheck_scan. cbv zeta.
  destruct (search_loop_nocheck inputData inputPos remaining
              (Z.to_nat (searchLimit - 2)) 3 2 0) as [bl' bo'] eqn:E.
  cbn [fst snd]. intros Hres.
  apply search_nocheck_best in E; [|intros; apply Hall; lia].
  destruct E as (H1 & H2 & H3).
  assert (Hcap : bl' <= MAX_LENGTH).
  { destruct H3 as [[-> _] | (_ & Hr & <- & _)];
      [unfold MAX_LENGTH; lia | apply Hall; lia]. }
  destruct (Z.gtb_spec bl' MAX_LENGTH); [lia|]. injection Hres as <- <-.
  destruct H3 as [[-> ->] | (H3 & H4 & H5 & H6)].
  - left. repeat split; try lia. intros; apply H2; lia.
  - right. split; [lia|]. split; [lia|]. split; [lia|]. split.
    + intros; apply H2; lia.
    + exact H6.
Qed.

(** What the roundtrip needs from an emitted match. *)
Lemma choose_token_match (d l : Z) :
  choose_token inputData inputPos = Match d l ->
  3 <= l <= MAX_LENGTH /\ 3 <= d <= searchLimit /\ l <= count d.
Proof.
  unfold choose_token.
  destruct (find_best inputData inputPos) as [bl bo] eqn:E.
  apply find_best_valid in E.
  destruct ((bl >=? 3) && (bo >=? 3)) eqn:Hm; [|discriminate].
  intros [= <- <-]. destruct E as [[-> ->] | E]; [discriminate Hm | lia].
Qed.

Lemma choose_token_literal (b : byte) :
  choose_token inputData inputPos = Literal b ->
  b = inputData_at inputData inputPos.
Proof.
  unfold choose_token.
  destruct (find_best inputData inputPos) as [bl bo].
  destruct ((bl >=? 3) && (bo >=? 3)); [discriminate|].
  intros [= <-]. reflexivity.
Qed.

End FindBest.

(** Every match found by the search (lines 404-482: the token chosen at
    [inputPos], at whatever position of whatever input) has a distance
    between 3 and 1023, a length between 3 and 63, and a length that does
    not exceed its distance. *)
Theorem emitted_match_bounds (inputData : list byte) (inputPos distance length : Z) :
  choose_token inputData inputPos = Match distance length ->
  3 <= distance <= 1023 /\ 3 <= length <= 63 /\ length <= distance.
Proof.
  intros H. apply choose_token_match in H. destruct H as (Hl & Hd & Hc).
  pose proof (search_limit_bounds inputPos) as [Hw _].
  pose proof (match_count_le inputData inputPos distance) as Hle.
  pose proof (max_check_bounds inputData inputPos distance) as [Hm _].
  unfold MAX_LENGTH, WINDOW_SIZE in *. lia.
Qed.

(** C6.  The two quick rejection checks never change the result of the
    match search: at every position of every input the search returns the
    same [(bestLength, bestOffset)], hence the same token, as the search
    that runs the full comparison on every candidate. *)
Theorem quick_rejection_is_transparent (inputData : list byte) (inputPos : Z) :
  find_best inputData inputPos = find_best_nocheck inputData inputPos.
Proof.
  unfold find_best, find_best_nocheck. cbv zeta.
  destruct (search_limit inputPos >=? 3); [|reflexivity].
  rewrite search_loop_nocheck_eq by (unfold MAX_LENGTH; lia). reflexivity.
Qed.

(** C5.  The scan goes through the distances 3, 4, ... in ascending order
    and replaces its best match only by a strictly longer one.  When no
    candidate matches more than 63 bytes, the result is the longest count
    and the smallest distance that reaches it (or no match when no count
    reaches 3).  When a candidate matches more than 63 bytes, the first
    such candidate ends the scan: the length is clamped to 63 and its
    distance is kept, whatever the later candidates are. *)
Theorem search_tie_break_and_cap (inputData : list byte) (inputPos : Z) :
  ((forall d, 3 <= d <= search_limit inputPos ->
              match_count inputData inputPos d <= 63) ->
   forall bestLength bestOffset,
   find_best inputData inputPos = (bestLength, bestOffset) ->
   (bestLength = 2 /\ bestOffset = 0
    /\ forall d, 3 <= d <= search_limit inputPos ->
                 match_count inputData inputPos d <= 2)
   \/ (3 <= bestLength /\ 3 <= bestOffset <= search_limit inputPos
       /\ match_count inputData inputPos bestOffset = bestLength
       /\ (forall d, 3 <= d <= search_limit inputPos ->
                     match_count inputData inputPos d <= bestLength)
       /\ (forall d, 3 <= d < bestOffset ->
                     match_count inputData inputPos d < bestLength)))
  /\ (forall d0, 3 <= d0 <= search_limit inputPos ->
        match_count inputData inputPos d0 > 63 ->
        (forall d, 3 <= d < d0 -> match_count inputData inputPos d <= 63) ->
        find_best inputData inputPos = (63, d0)).
Proof.
  split.
  - intros Hall bl bo Hres. apply find_best_longest; assumption.
  - intros d0 Hd Hc Hbefore. apply find_best_capped; assumption.
Qed.

(* ===================================================================== *)
(** * The decoder: array accesses and the two copy loops *)
(* ===================================================================== *)

Lemma array_read_Some (a : list byte) (i : Z) (v : byte) :
  array_read a i = Some v <-> 0 <= i /\ a !! Z.to_nat i = Some v.
Proof.
  unfold array_read. destruct (Z.leb_spec 0 i); split; intros H'.
  - auto.
  - apply H'.
  - discriminate.
  - lia.
Qed.

Lemma array_read_in_bounds (a : list byte) (i : Z) :
  0 <= i < Z.of_nat (length a) -> exists v, array_read a i = Some v.
Proof.
  intros Hi. destruct (lookup_lt_is_Some_2 a (Z.to_nat i)) as [v Hv]; [lia|].
  exists v. apply array_read_Some. split; [lia | exact Hv].
Qed.

Lemma array_write_in_bounds (a : list byte) (i : Z) (v : byte) :
  0 <= i < Z.of_nat (length a) ->
  array_write a i v = Some (<[Z.to_nat i := v]> a).
Proof.
  intros Hi. unfold array_write.
  destruct (Z.leb_spec 0 i); [|lia].
  destruct (Z.ltb_spec i (Z.of_nat (length a))); [reflexivity | lia].
Qed.

Lemma window_src_range (nextChar code_offset i : Z) :
  0 <= nextChar < WINDOW_SIZE -> 0 <= code_offset <= WINDOW_SIZE -> 0 <= i ->
  0 <= window_src nextChar code_offset i < WINDOW_SIZE.
Proof.
  unfold window_src, WINDOW_SIZE. intros Hn Ho Hi.
  destruct (Z.geb_spec nextChar code_offset); zdiv.
Qed.

Lemma copy_from_window_spec (n : nat) (i nextChar code_offset : Z)
    (w la out : list byte) :
  0 <= i -> i + Z.of_nat n <= Z.of_nat (length la) ->
  Z.of_nat (length w) = WINDOW_SIZE ->
  0 <= nextChar < WINDOW_SIZE -> 0 <= code_offset <= WINDOW_SIZE ->
  exists la' cs,
    copy_from_window n i nextChar code_offset w la out = Some (la', out ++ cs)
    /\ length cs = n
    /\ length la' = length la
    /\ (forall j, (j < Z.to_nat i)%nat -> la' !! j = la !! j)
    /\ (forall k c, cs !! k = Some c ->
          w !! Z.to_nat (window_src nextChar code_offset (i + Z.of_nat k)) = Some c
          /\ la' !! (Z.to_nat i + k)%nat = Some c).
Proof.
  revert i la out. induction n as [|n IH]; intros i la out Hi Hla Hw Hnc Hoff.
  - exists la, []. cbn. rewrite app_nil_r.
    do 3 (split; [reflexivity|]). split; [auto|].
    intros k c Hk; discriminate Hk.
  - cbn [copy_from_window]. fold (window_src nextChar code_offset i).
    pose proof (window_src_range nextChar code_offset i Hnc Hoff Hi) as Hsrc.
    destruct (array_read_in_bounds w (window_src nextChar code_offset i)) as [c Hc];
      [lia|].
    rewrite Hc. cbn [mbind option_bind].
    rewrite array_write_in_bounds by lia. cbn [mbind option_bind].
    destruct (IH (i + 1) (<[Z.to_nat i := c]> la) (out ++ [c])) as
      (la' & cs & Hrun & Hlen & Hlalen & Hbelow & Hcs);
      try rewrite length_insert; try lia.
    exists la', (c :: cs). rewrite Hrun, <- app_assoc. cbn [app].
    split; [reflexivity|]. split; [cbn; lia|].
    split; [rewrite Hlalen; apply length_insert|].
    split.
    + intros j Hj. rewrite Hbelow by lia. apply list_lookup_insert_ne. lia.
    + intros [|k] c' Hk.
      * cbn in Hk. injection Hk as <-.
        rewrite Z.add_0_r, Nat.add_0_r. split.
        -- apply array_read_Some in Hc. apply Hc.
        -- rewrite Hbelow by lia. apply list_lookup_insert_eq. lia.
      * cbn in Hk. destruct (Hcs k c' Hk) as [H1 H2]. split.
        -- rewrite <- H1. f_equal. f_equal. f_equal. lia.
        -- rewrite <- H2. f_equal. lia.
Qed.

Lemma copy_to_window_spec (n : nat) (i nextChar : Z) (w la : list byte) :
  0 <= i -> i + Z.of_nat n <= Z.of_nat (length la) ->
  Z.of_nat (length w) = WINDOW_SIZE -> Z.of_nat n <= WINDOW_SIZE ->
  0 <= nextChar ->
  exists w',
    copy_to_window n i nextChar w la = Some w'
    /\ length w' = length w
    /\ (forall k, (k < n)%nat ->
          w' !! Z.to_nat ((nextChar + i + Z.of_nat k) mod WINDOW_SIZE)
          = la !! (Z.to_nat i + k)%nat)
    /\ (forall j, (forall k, (k < n)%nat ->
                     j <> Z.to_nat ((nextChar + i + Z.of_nat k) mod WINDOW_SIZE)) ->
          w' !! j = w !! j).
Proof.
  revert i w. induction n as [|n IH]; intros i w Hi Hla Hw Hn Hnc.
  - exists w. cbn. repeat split; auto. intros; lia.
  - cbn [copy_to_window].
    destruct (array_read_in_bounds la i) as [c Hc]; [lia|].
    rewrite Hc. cbn [mbind option_bind].
    assert (Hidx : Z.rem (nextChar + i) WINDOW_SIZE = (nextChar + i) mod WINDOW_SIZE)
      by (unfold WINDOW_SIZE; zdiv).
    assert (Hrange : 0 <= (nextChar + i) mod WINDOW_SIZE < WINDOW_SIZE)
      by (unfold WINDOW_SIZE; zdiv).
    rewrite Hidx, array_write_in_bounds by lia. cbn [mbind option_bind].
    destruct (IH (i + 1) (<[Z.to_nat ((nextChar + i) mod WINDOW_SIZE) := c]> w))
      as (w' & Hrun & Hlen & Hnew & Hold);
      try rewrite length_insert; try lia.
    exists w'. split; [exact Hrun|]. split; [rewrite Hlen; apply length_insert|].
    split.
    + intros [|k] Hk.
      * clear Hk. rewrite Z.add_0_r, Nat.add_0_r, Hold.
        -- rewrite list_lookup_insert_eq by lia.
           apply array_read_Some in Hc. symmetry; apply Hc.
        -- intros k' Hk'. unfold WINDOW_SIZE in *. zdiv.
      * replace (nextChar + i + Z.of_nat (S k)) with (nextChar + (i + 1) + Z.of_nat k) by lia.
        rewrite Hnew by lia. f_equal. lia.
    + intros j Hj. rewrite Hold.
      * apply list_lookup_insert_ne. specialize (Hj O ltac:(lia)).
        rewrite Z.add_0_r in Hj. auto.
      * intros k Hk. specialize (Hj (S k) ltac:(lia)).
        replace (nextChar + (i + 1) + Z.of_nat k) with (nextChar + i + Z.of_nat (S k)) by lia.
        exact Hj.
Qed.

(* ===================================================================== *)
(** * The decoder: the window mirrors the output *)
(* ===================================================================== *)

Lemma dec_inv_init (inFile : list byte) : dec_inv (dec_init inFile).
Proof.
  unfold dec_inv, dec_init. cbn [dec_slidingWindow dec_uncodedLookahead
    dec_nextChar dec_outFile].
  rewrite !length_replicate. repeat split; try reflexivity.
  intros p Hp. cbn in Hp. lia.
Qed.

Lemma decode_token_literal (st : dec_state) (c : byte) (rest : list byte) :
  dec_inv st ->
  Z.land (dec_flags st) 128 = 0 ->
  dec_inFile st = c :: rest ->
  exists w',
    decode_token st
    = Next (mk_dec (dec_flags st) (dec_flagsUsed st)
              (Z.rem (dec_nextChar st + 1) WINDOW_SIZE) w'
              (dec_uncodedLookahead st) rest (dec_outFile st ++ [c]))
    /\ dec_inv (mk_dec (dec_flags st) (dec_flagsUsed st)
              (Z.rem (dec_nextChar st + 1) WINDOW_SIZE) w'
              (dec_uncodedLookahead st) rest (dec_outFile st ++ [c])).
Proof.
  intros (Hw & Hla & Hnc & Hwin) Hbit Hin.
  unfold decode_token. rewrite Hbit, Hin. cbn [Z.eqb].
  assert (Hr : 0 <= dec_nextChar st < WINDOW_SIZE)
    by (rewrite Hnc; unfold WINDOW_SIZE; zdiv).
  rewrite array_write_in_bounds by lia.
  eexists. split; [reflexivity|].
  unfold dec_inv. cbn [dec_slidingWindow dec_uncodedLookahead dec_nextChar dec_outFile].
  rewrite length_insert, length_app. cbn [length].
  split; [exact Hw|]. split; [exact Hla|]. split.
  - rewrite Hnc. unfold WINDOW_SIZE. zdiv.
  - intros p Hp Hfar.
    destruct (Nat.eq_dec p (length (dec_outFile st))) as [->|Hne].
    + rewrite Hnc, list_lookup_insert_eq by (unfold WINDOW_SIZE in *; zdiv).
      rewrite lookup_app_r by lia. rewrite Nat.sub_diag. reflexivity.
    + rewrite list_lookup_insert_ne by (rewrite Hnc; unfold WINDOW_SIZE in *; zdiv).
      rewrite lookup_app_l by lia. apply Hwin; lia.
Qed.

Lemma decode_token_match (st : dec_state) (b0 b1 : byte) (rest : list byte) :
  dec_inv st ->
  Z.land (dec_flags st) 128 <> 0 ->
  dec_inFile st = b0 :: b1 :: rest ->
  let code_offset := unpack_offset (byte_val b0) (byte_val b1) in
  let code_length := unpack_length (byte_val b0) in
  exists w' la' cs,
    decode_token st
    = Next (mk_dec (dec_flags st) (dec_flagsUsed st)
              (Z.rem (dec_nextChar st + code_length) WINDOW_SIZE) w' la'
              rest (dec_outFile st ++ cs))
    /\ dec_inv (mk_dec (dec_flags st) (dec_flagsUsed st)
              (Z.rem (dec_nextChar st + code_length) WINDOW_SIZE) w' la'
              rest (dec_outFile st ++ cs))
    /\ Z.of_nat (length cs) = code_length
    /\ (forall k c, cs !! k = Some c ->
          dec_slidingWindow st
            !! Z.to_nat (window_src (dec_nextChar st) code_offset (Z.of_nat k))
          = Some c).
Proof.
  intros (Hw & Hla & Hnc & Hwin) Hbit Hin code_offset code_length.
  pose proof (unpack_offset_range b0 b1) as Hoff. fold code_offset in Hoff.
  pose proof (unpack_length_range b0) as Hlen. fold code_length in Hlen.
  unfold decode_token. rewrite Hin.
  destruct (Z.eqb_spec (Z.land (dec_flags st) 128) 0) as [|_]; [contradiction|].
  fold code_offset code_length.
  assert (Hr : 0 <= dec_nextChar st < WINDOW_SIZE)
    by (rewrite Hnc; unfold WINDOW_SIZE; zdiv).
  destruct (copy_from_window_spec (Z.to_nat code_length) 0 (dec_nextChar st)
              code_offset (dec_slidingWindow st) (dec_uncodedLookahead st)
              (dec_outFile st))
    as (la' & cs & Hrun1 & Hcslen & Hlalen & _ & Hcs);
    try (unfold MAX_CODED, MAX_UNCODED, WINDOW_SIZE in *; lia).
  rewrite Hrun1.
  destruct (copy_to_window_spec (Z.to_nat code_length) 0 (dec_nextChar st)
              (dec_slidingWindow st) la')
    as (w' & Hrun2 & Hwlen & Hnew & Hold);
    try (unfold MAX_CODED, MAX_UNCODED, WINDOW_SIZE in *; lia).
  rewrite Hrun2.
  exists w', la', cs. split; [reflexivity|].
  split; [|split; [lia|]].
  - unfold dec_inv.
    cbn [dec_slidingWindow dec_uncodedLookahead dec_nextChar dec_outFile].
    rewrite length_app. split; [lia|]. split; [lia|]. split.
    + rewrite Hnc. unfold WINDOW_SIZE. zdiv.
    + intros p Hp Hfar.
      destruct (Nat.lt_ge_cases p (length (dec_outFile st))) as [Hlt|Hge].
      * rewrite lookup_app_l by lia. rewrite Hold; [apply Hwin; lia|].
        intros k Hk. rewrite Hnc. unfold WINDOW_SIZE in *. zdiv.
      * rewrite lookup_app_r by lia.
        set (k := (p - length (dec_outFile st))%nat).
        assert (Hk : (k < length cs)%nat) by lia.
        destruct (lookup_lt_is_Some_2 cs k Hk) as [c Hc].
        rewrite Hc. destruct (Hcs k c Hc) as [_ Hlak]. cbn in Hlak.
        rewrite <- Hlak, <- (Hnew k) by lia.
        f_equal. rewrite Hnc. unfold WINDOW_SIZE in *. zdiv.
  - intros k c Hc. destruct (Hcs k c Hc) as [Hsrc _].
    rewrite Z.add_0_l in Hsrc. exact Hsrc.
Qed.

(* ===================================================================== *)
(** * The decoder: every iteration is safe, the loop ends at end of file *)
(* ===================================================================== *)

Lemma next_flags_unfold (st : dec_state) :
  next_flags st
  = if uchar (dec_flagsUsed st + 1) =? 8 then
      match dec_inFile st with
      | [] => None
      | c :: rest =>
          Some (mk_dec (uchar (Z.land (byte_val c) 255)) 0 (dec_nextChar st)
                  (dec_slidingWindow st) (dec_uncodedLookahead st)
                  rest (dec_outFile st))
      end
    else Some (shift_flags st).
Proof. reflexivity. Qed.

Lemma next_flags_spec (st st' : dec_state) :
  next_flags st = Some st' ->
  dec_nextChar st' = dec_nextChar st
  /\ dec_slidingWindow st' = dec_slidingWindow st
  /\ dec_uncodedLookahead st' = dec_uncodedLookahead st
  /\ dec_outFile st' = dec_outFile st
  /\ (length (dec_inFile st') <= length (dec_inFile st))%nat
  /\ 0 <= dec_flags st' < 256.
Proof.
  rewrite next_flags_unfold.
  destruct (uchar (dec_flagsUsed st + 1) =? 8).
  - destruct (dec_inFile st) as [|c rest]; [discriminate|].
    intros [= <-]. cbn. repeat split; try lia; apply uchar_range.
  - intros [= <-]. cbn. repeat split; try lia; apply uchar_range.
Qed.

Lemma next_flags_inv (st st' : dec_state) :
  next_flags st = Some st' -> dec_inv st -> dec_inv st'.
Proof.
  intros H (Hw & Hla & Hnc & Hwin).
  apply next_flags_spec in H. destruct H as (E1 & E2 & E3 & E4 & _).
  unfold dec_inv. rewrite E1, E2, E3, E4. auto.
Qed.

Lemma next_flags_eof (st : dec_state) :
  next_flags st = None <-> uchar (dec_flagsUsed st + 1) = 8 /\ dec_inFile st = [].
Proof.
  rewrite next_flags_unfold.
  destruct (Z.eqb_spec (uchar (dec_flagsUsed st + 1)) 8) as [E|E].
  - destruct (dec_inFile st); split; intros H; try discriminate; auto.
    destruct H; discriminate.
  - split; [discriminate | intros [H _]; contradiction].
Qed.

Lemma decode_token_inv (st : dec_state) :
  dec_inv st ->
  match decode_token st with
  | Next st' =>
      dec_inv st'
      /\ (length (dec_inFile st') < length (dec_inFile st))%nat
      /\ exists cs, dec_outFile st' = dec_outFile st ++ cs
  | Break _ st' => dec_outFile st' = dec_outFile st /\ dec_inFile st' = []
  | OutOfBounds => False
  end.
Proof.
  intros Hinv.
  destruct (Z.eq_dec (Z.land (dec_flags st) 128) 0) as [Hbit|Hbit].
  - destruct (dec_inFile st) as [|c rest] eqn:Hin.
    + unfold decode_token. rewrite Hbit, Hin. cbn. auto.
    + destruct (decode_token_literal st c rest Hinv Hbit Hin) as (w' & -> & Hinv').
      split; [exact Hinv'|]. cbn. split; [lia|]. eauto.
  - destruct (dec_inFile st) as [|b0 [|b1 rest]] eqn:Hin.
    + unfold decode_token. rewrite Hin.
      destruct (Z.eqb_spec (Z.land (dec_flags st) 128) 0); [contradiction|]. cbn. auto.
    + unfold decode_token. rewrite Hin.
      destruct (Z.eqb_spec (Z.land (dec_flags st) 128) 0); [contradiction|]. cbn. auto.
    + destruct (decode_token_match st b0 b1 rest Hinv Hbit Hin)
        as (w' & la' & cs & -> & Hinv' & _).
      split; [exact Hinv'|]. cbn. split; [lia|]. eauto.
Qed.

Lemma decode_iter_inv (st : dec_state) :
  dec_inv st ->
  match decode_iter st with
  | Next st' =>
      dec_inv st'
      /\ (length (dec_inFile st') < length (dec_inFile st))%nat
      /\ exists cs, dec_outFile st' = dec_outFile st ++ cs
  | Break _ st' => dec_outFile st' = dec_outFile st /\ dec_inFile st' = []
  | OutOfBounds => False
  end.
Proof.
  intros Hinv. unfold decode_iter.
  destruct (next_flags st) as [st1|] eqn:Hnf.
  - pose proof (next_flags_inv _ _ Hnf Hinv) as Hinv1.
    apply next_flags_spec in Hnf. destruct Hnf as (_ & _ & _ & Eout & Hlen & _).
    pose proof (decode_token_inv st1 Hinv1) as Htok.
    destruct (decode_token st1) as [st'|why st'|]; [| |exact Htok].
    + destruct Htok as (H1 & H2 & cs & H3). split; [exact H1|]. split; [lia|].
      exists cs. congruence.
    + destruct Htok; split; congruence.
  - apply next_flags_eof in Hnf. destruct Hnf. auto.
Qed.

(** One more iteration than there are bytes in [inFile] ends the loop at a
    [break], with every byte written so far still in [outFile]. *)
Lemma decode_loop_enough_fuel (fuel : nat) (st : dec_state) :
  dec_inv st ->
  (length (dec_inFile st) < fuel)%nat ->
  exists why st' cs,
    decode_loop fuel st = Finished why st'
    /\ dec_outFile st' = dec_outFile st ++ cs
    /\ dec_inFile st' = [].
Proof.
  revert st. induction fuel as [|fuel IH]; intros st Hinv Hfuel; [lia|].
  cbn [decode_loop]. pose proof (decode_iter_inv st Hinv) as Hit.
  destruct (decode_iter st) as [st1|why st1|]; [| |contradiction].
  - destruct Hit as (Hinv1 & Hlen & cs & Hout).
    destruct (IH st1 Hinv1 ltac:(lia)) as (why & st' & cs' & Hrun & Hout' & Hin').
    exists why, st', (cs ++ cs'). split; [exact Hrun|].
    split; [|exact Hin']. rewrite Hout', Hout, app_assoc. reflexivity.
  - destruct Hit as [Hout Hin]. exists why, st1, [].
    rewrite app_nil_r. auto.
Qed.

Lemma decode_loop_never_faults (fuel : nat) (st : dec_state) :
  dec_inv st -> decode_loop fuel st <> Faulted.
Proof.
  revert st. induction fuel as [|fuel IH]; intros st Hinv; [discriminate|].
  cbn [decode_loop]. pose proof (decode_iter_inv st Hinv) as Hit.
  destruct (decode_iter st) as [st1|why st1|]; [| discriminate | contradiction].
  apply IH, Hit.
Qed.

(** More fuel does not change the result of a finished run. *)
Lemma decode_loop_more_fuel (fuel fuel' : nat) (st : dec_state) why st' :
  decode_loop fuel st = Finished why st' -> (fuel <= fuel')%nat ->
  decode_loop fuel' st = Finished why st'.
Proof.
  revert fuel' st. induction fuel as [|fuel IH]; intros fuel' st Hrun Hle;
    [discriminate|].
  destruct fuel' as [|fuel']; [lia|]. cbn [decode_loop] in *.
  destruct (decode_iter st); try assumption. apply IH; [assumption | lia].
Qed.

Lemma DecodeLZSS_finishes (inFile : list byte) :
  exists why st, DecodeLZSS inFile = Finished why st /\ dec_inFile st = [].
Proof.
  destruct (decode_loop_enough_fuel (S (length inFile)) (dec_init inFile))
    as (why & st & cs & Hrun & _ & Hin).
  - apply dec_inv_init.
  - cbn. lia.
  - exists why, st. auto.
Qed.

(** Bytes that follow do not change what an iteration does when it had
    enough bytes to go through. *)
Lemma decode_iter_more_input (st st' : dec_state) (more : list byte) :
  decode_iter st = Next st' ->
  decode_iter (with_more_input st more) = Next (with_more_input st' more).
Proof.
  unfold decode_iter. rewrite !next_flags_unfold.
  unfold with_more_input, shift_flags.
  cbn [dec_flags dec_flagsUsed dec_nextChar dec_slidingWindow
       dec_uncodedLookahead dec_inFile dec_outFile].
  destruct (uchar (dec_flagsUsed st + 1) =? 8).
  - destruct (dec_inFile st) as [|c rest]; [discriminate|]. cbn [app].
    unfold decode_token.
    cbn [dec_flags dec_flagsUsed dec_nextChar dec_slidingWindow
         dec_uncodedLookahead dec_inFile dec_outFile].
    destruct (Z.land _ 128 =? 0).
    + destruct rest as [|c' rest']; [discriminate|]. cbn [app].
      destruct (array_write _ _ _); [|discriminate].
      intros [= <-]. reflexivity.
    + destruct rest as [|b0 [|b1 rest']]; try discriminate. cbn [app].
      destruct (copy_from_window _ _ _ _ _ _ _) as [[la' out']|]; [|discriminate].
      destruct (copy_to_window _ _ _ _ _); [|discriminate].
      intros [= <-]. reflexivity.
  - unfold decode_token.
    cbn [dec_flags dec_flagsUsed dec_nextChar dec_slidingWindow
         dec_uncodedLookahead dec_inFile dec_outFile].
    destruct (Z.land _ 128 =? 0).
    + destruct (dec_inFile st) as [|c' rest']; [discriminate|]. cbn [app].
      destruct (array_write _ _ _); [|discriminate].
      intros [= <-]. reflexivity.
    + destruct (dec_inFile st) as [|b0 [|b1 rest']]; try discriminate. cbn [app].
      destruct (copy_from_window _ _ _ _ _ _ _) as [[la' out']|]; [|discriminate].
      destruct (copy_to_window _ _ _ _ _); [|discriminate].
      intros [= <-]. reflexivity.
Qed.

Lemma with_more_input_inv (st : dec_state) (more : list byte) :
  dec_inv st -> dec_inv (with_more_input st more).
Proof. intros H. exact H. Qed.

(** What a run on a truncated stream writes is the beginning of what the
    run on the whole stream writes. *)
Lemma decode_loop_truncated (fuel : nat) (st : dec_state) (more : list byte)
    why st1 :
  dec_inv st ->
  decode_loop fuel st = Finished why st1 ->
  forall fuel', (length (dec_inFile st ++ more) < fuel')%nat ->
  exists why' st2 cs,
    decode_loop fuel' (with_more_input st more) = Finished why' st2
    /\ dec_outFile st2 = dec_outFile st1 ++ cs.
Proof.
  revert st. induction fuel as [|fuel IH]; intros st Hinv Hrun fuel' Hfuel;
    [discriminate|].
  cbn [decode_loop] in Hrun.
  pose proof (decode_iter_inv st Hinv) as Hit.
  destruct (decode_iter st) as [st'|why0 st'|] eqn:Hiter; [| |contradiction].
  - destruct Hit as (Hinv' & Hlen & _).
    destruct fuel' as [|fuel']; [lia|]. cbn [decode_loop].
    rewrite (decode_iter_more_input _ _ more Hiter).
    apply IH; try assumption. rewrite length_app in *. lia.
  - injection Hrun as <- <-. destruct Hit as [Hout _].
    destruct (decode_loop_enough_fuel fuel' (with_more_input st more))
      as (why' & st2 & cs & Hrun2 & Hout2 & _).
    + apply with_more_input_inv, Hinv.
    + exact Hfuel.
    + exists why', st2, cs. split; [exact Hrun2|].
      rewrite Hout2, Hout. reflexivity.
Qed.

(* ===================================================================== *)
(** * Tokens: wire bytes and meaning *)
(* ===================================================================== *)

Lemma expand_app (out : list byte) (ts1 ts2 : list token) :
  expand out (ts1 ++ ts2) = expand (expand out ts1) ts2.
Proof.
  revert out. induction ts1 as [|t ts1 IH]; intros out; cbn; auto.
Qed.

Lemma tokens_ok_app (out : list byte) (ts1 ts2 : list token) :
  tokens_ok out (ts1 ++ ts2) <-> tokens_ok out ts1 /\ tokens_ok (expand out ts1) ts2.
Proof.
  revert out. induction ts1 as [|t ts1 IH]; intros out; cbn.
  - tauto.
  - rewrite IH. tauto.
Qed.

Lemma wire_all_app (ts1 ts2 : list token) :
  wire_all (ts1 ++ ts2) = wire_all ts1 ++ wire_all ts2.
Proof. unfold wire_all. rewrite map_app, concat_app. reflexivity. Qed.

Lemma expand_pad (out : list byte) (n : nat) :
  expand out (replicate n pad_token) = out
  /\ tokens_ok out (replicate n pad_token).
Proof.
  induction n as [|n [IH1 IH2]]; cbn; [auto|].
  rewrite app_nil_r. split; [exact IH1|]. split; [|exact IH2].
  unfold MAX_LENGTH, WINDOW_SIZE. lia.
Qed.

(* ===================================================================== *)
(** * Flag bits *)
(* ===================================================================== *)

Lemma land_128_testbit (x : Z) :
  (Z.land x 128 =? 0) = negb (Z.testbit x 7).
Proof.
  assert (H : Z.land x 128 = if Z.testbit x 7 then 128 else 0).
  { apply Z.bits_inj'. intros n Hn. rewrite Z.land_spec.
    change 128 with (2 ^ 7). rewrite Z.pow2_bits_eqb by lia.
    destruct (Z.eqb_spec 7 n) as [<-|Hne].
    - destruct (Z.testbit x 7); reflexivity.
    - rewrite andb_false_r. destruct (Z.testbit x 7).
      + rewrite Z.pow2_bits_eqb by lia.
        destruct (Z.eqb_spec 7 n); [contradiction | reflexivity].
      + rewrite Z.bits_0. reflexivity. }
  rewrite H. destruct (Z.testbit x 7); reflexivity.
Qed.

Lemma uchar_shiftl1_testbit (f i : Z) :
  0 <= i < 8 ->
  Z.testbit (uchar (Z.shiftl f 1)) i = Z.testbit f (i - 1).
Proof.
  intros Hi. unfold uchar. change 256 with (2 ^ 8).
  rewrite Z.mod_pow2_bits_low by lia. apply Z.shiftl_spec. lia.
Qed.

Lemma byte_flags (c : byte) : uchar (Z.land (byte_val c) 255) = byte_val c.
Proof.
  pose proof (byte_val_range c).
  change 255 with (Z.ones 8). rewrite Z.land_ones by lia.
  change (2 ^ 8) with 256. unfold uchar. zdiv.
Qed.

(* ===================================================================== *)
(** * The decoder on the wire bytes of a token *)
(* ===================================================================== *)

Lemma reaches_refl (st : dec_state) : reaches st st.
Proof. exists O. reflexivity. Qed.

Lemma reaches_trans (st1 st2 st3 : dec_state) :
  reaches st1 st2 -> reaches st2 st3 -> reaches st1 st3.
Proof.
  intros [n Hn] [m Hm]. exists (n + m)%nat. intros fuel.
  rewrite <- Nat.add_assoc, Hn, Hm. reflexivity.
Qed.

Lemma reaches_step (st st' : dec_state) :
  decode_iter st = Next st' -> reaches st st'.
Proof.
  intros H. exists 1%nat. intros fuel. cbn [Nat.add decode_loop].
  rewrite H. reflexivity.
Qed.

(** A run that reaches a state where the next iteration breaks finishes
    there, whatever amount of fuel let it finish. *)
Lemma reaches_break (st st' st'' : dec_state) (why : break_at) :
  reaches st st' -> decode_iter st' = Break why st'' ->
  forall fuel why1 st1,
  decode_loop fuel st = Finished why1 st1 -> st1 = st''.
Proof.
  intros [n Hn] Hbrk fuel why1 st1 Hrun.
  assert (H1 : decode_loop (n + 1) st = Finished why st'').
  { rewrite Hn. cbn [decode_loop]. rewrite Hbrk. reflexivity. }
  apply (decode_loop_more_fuel _ (fuel + (n + 1))) in Hrun; [|lia].
  apply (decode_loop_more_fuel _ (fuel + (n + 1))) in H1; [|lia].
  congruence.
Qed.

Lemma window_src_mod (len d k : Z) :
  0 <= k -> 0 <= d <= WINDOW_SIZE -> d <= len ->
  window_src (len mod WINDOW_SIZE) d k = (len - d + k) mod WINDOW_SIZE.
Proof.
  intros Hk Hd Hlen. unfold window_src, WINDOW_SIZE in *.
  assert (Hm : 0 <= len mod 1023 < 1023) by (apply Z.mod_pos_bound; lia).
  pose proof (Z.div_mod len 1023 ltac:(lia)) as Hdm.
  destruct (Z.geb_spec (len mod 1023) d).
  - rewrite Z.rem_mod_nonneg by lia.
    replace (len - d + k) with ((len mod 1023 - d + k) + (len / 1023) * 1023) by lia.
    rewrite Z.mod_add by lia. reflexivity.
  - rewrite Z.rem_mod_nonneg by lia.
    replace (len - d + k)
      with ((1023 - d + len mod 1023 + k) + (len / 1023 - 1) * 1023) by lia.
    rewrite Z.mod_add by lia. reflexivity.
Qed.

Lemma decode_token_wire (st : dec_state) (t : token) (rest : list byte) :
  dec_inv st ->
  token_ok (dec_outFile st) t ->
  Z.testbit (dec_flags st) 7 = is_match t ->
  dec_inFile st = wire t ++ rest ->
  exists st',
    decode_token st = Next st'
    /\ dec_inv st'
    /\ dec_flags st' = dec_flags st
    /\ dec_flagsUsed st' = dec_flagsUsed st
    /\ dec_inFile st' = rest
    /\ dec_outFile st' = dec_outFile st ++ token_bytes (dec_outFile st) t.
Proof.
  intros Hinv Hok Hbit Hin.
  pose proof (land_128_testbit (dec_flags st)) as Hland. rewrite Hbit in Hland.
  destruct t as [b | d l]; cbn [is_match negb wire app token_bytes] in *.
  - apply Z.eqb_eq in Hland.
    destruct (decode_token_literal st b rest Hinv Hland Hin) as (w' & Hrun & Hinv').
    eexists. split; [exact Hrun|]. split; [exact Hinv'|]. cbn. auto.
  - apply Z.eqb_neq in Hland.
    destruct Hok as (Hl & Hd & Hout).
    unfold MAX_LENGTH, WINDOW_SIZE in Hl, Hd.
    destruct (decode_token_match st _ _ rest Hinv Hland Hin)
      as (w' & la' & cs & Hrun & Hinv' & Hlen & Hcs).
    rewrite unpack_pack_length in Hrun, Hinv', Hlen by lia.
    rewrite unpack_pack_offset in Hcs by lia.
    assert (Ecs : cs = take (Z.to_nat l)
                         (drop (length (dec_outFile st) - Z.to_nat d) (dec_outFile st))).
    { apply list_eq. intros k.
      destruct (cs !! k) as [c|] eqn:Hk.
      - assert (Hkl : (k < length cs)%nat) by (apply lookup_lt_is_Some; eauto).
        specialize (Hcs k c Hk).
        rewrite lookup_take_lt, lookup_drop by lia.
        destruct Hinv as (Hw & Hla & Hnc & Hwin).
        rewrite <- Hwin, <- Hcs by (unfold WINDOW_SIZE; lia).
        rewrite Hnc, window_src_mod by (unfold WINDOW_SIZE; lia).
        do 3 f_equal. lia.
      - apply lookup_ge_None_1 in Hk. symmetry.
        apply lookup_take_ge. lia. }
    subst cs. eexists. split; [exact Hrun|]. split; [exact Hinv'|]. cbn. auto.
Qed.

(** One iteration of the decoder on the bytes of one token. *)
Lemma decode_iter_token (st st1 : dec_state) (t : token) (rest : list byte) :
  dec_inv st ->
  next_flags st = Some st1 ->
  Z.testbit (dec_flags st1) 7 = is_match t ->
  dec_inFile st1 = wire t ++ rest ->
  token_ok (dec_outFile st) t ->
  exists st',
    decode_iter st = Next st'
    /\ dec_inv st'
    /\ dec_flags st' = dec_flags st1
    /\ dec_flagsUsed st' = dec_flagsUsed st1
    /\ dec_inFile st' = rest
    /\ dec_outFile st' = dec_outFile st ++ token_bytes (dec_outFile st) t.
Proof.
  intros Hinv Hnf Hbit Hin Hok.
  pose proof (next_flags_inv _ _ Hnf Hinv) as Hinv1.
  pose proof (next_flags_spec _ _ Hnf) as (_ & _ & _ & Eout & _).
  unfold decode_iter. rewrite Hnf. rewrite <- Eout in *.
  apply decode_token_wire; assumption.
Qed.

(* ===================================================================== *)
(** * The decoder on flag groups *)
(* ===================================================================== *)

Lemma next_flags_shift (st : dec_state) :
  0 <= dec_flagsUsed st < 7 ->
  next_flags st
  = Some (mk_dec (uchar (Z.shiftl (dec_flags st) 1)) (dec_flagsUsed st + 1)
            (dec_nextChar st) (dec_slidingWindow st) (dec_uncodedLookahead st)
            (dec_inFile st) (dec_outFile st)).
Proof.
  intros Hu. rewrite next_flags_unfold. unfold shift_flags.
  rewrite (uchar_small (dec_flagsUsed st + 1)) by lia.
  destruct (Z.eqb_spec (dec_flagsUsed st + 1) 8); [lia | reflexivity].
Qed.

Lemma next_flags_fetch (st : dec_state) (c : byte) (rest : list byte) :
  dec_flagsUsed st = 7 -> dec_inFile st = c :: rest ->
  next_flags st
  = Some (mk_dec (byte_val c) 0
            (dec_nextChar st) (dec_slidingWindow st) (dec_uncodedLookahead st)
            rest (dec_outFile st)).
Proof.
  intros Hu Hin. rewrite next_flags_unfold, Hu, Hin, byte_flags. reflexivity.
Qed.

Lemma decode_tokens_in_group (ts : list token) :
  forall (st : dec_state) (rest : list byte),
  dec_inv st ->
  0 <= dec_flagsUsed st ->
  dec_flagsUsed st + Z.of_nat (length ts) <= 7 ->
  bits_agree (dec_flags st) 6 ts ->
  dec_inFile st = wire_all ts ++ rest ->
  tokens_ok (dec_outFile st) ts ->
  exists st',
    reaches st st'
    /\ dec_inv st'
    /\ dec_flagsUsed st' = dec_flagsUsed st + Z.of_nat (length ts)
    /\ dec_inFile st' = rest
    /\ dec_outFile st' = expand (dec_outFile st) ts
    /\ (forall i, 0 <= i < 8 ->
          Z.testbit (dec_flags st') i
          = Z.testbit (dec_flags st) (i - Z.of_nat (length ts))).
Proof.
  induction ts as [|t ts IH]; intros st rest Hinv Hu0 Hu Hbits Hin Hok.
  - exists st. split; [apply reaches_refl|]. cbn [length expand wire_all] in *.
    split; [exact Hinv|]. split; [lia|]. split; [exact Hin|].
    split; [reflexivity|]. intros i Hi. f_equal. lia.
  - cbn [length] in Hu. destruct Hok as [Hok1 Hok2].
    pose proof (next_flags_shift st ltac:(lia)) as Hnf.
    destruct (decode_iter_token st _ t (wire_all ts ++ rest) Hinv Hnf)
      as (st2 & Hrun & Hinv2 & Hf2 & Hu2 & Hin2 & Hout2).
    + cbn [dec_flags]. rewrite uchar_shiftl1_testbit by lia.
      apply (Hbits O t). reflexivity.
    + cbn [dec_inFile]. rewrite Hin. unfold wire_all. cbn [map concat].
      rewrite <- app_assoc. reflexivity.
    + exact Hok1.
    + cbn [dec_flags dec_flagsUsed] in Hf2, Hu2.
      destruct (IH st2 rest Hinv2) as (st' & Hreach & Hinv' & Hu' & Hin' & Hout' & Hbits');
        try (rewrite ?Hu2; lia).
      * intros j t' Hj. rewrite Hf2.
        assert (Hjlen : (j < length ts)%nat) by (apply lookup_lt_is_Some; eauto).
        rewrite uchar_shiftl1_testbit by lia.
        replace (6 - Z.of_nat j - 1) with (6 - Z.of_nat (S j)) by lia.
        apply Hbits. exact Hj.
      * exact Hin2.
      * rewrite Hout2. exact Hok2.
      * exists st'. split; [eapply reaches_trans; [apply reaches_step, Hrun | exact Hreach]|].
        split; [exact Hinv'|]. split; [rewrite Hu', Hu2; cbn [length]; lia|].
        split; [exact Hin'|]. split; [rewrite Hout', Hout2; reflexivity|].
        intros i Hi. rewrite Hbits' by lia. rewrite Hf2.
        destruct (Z_lt_ge_dec (i - Z.of_nat (length ts)) 0) as [Hneg|Hpos].
        -- rewrite !Z.testbit_neg_r by (cbn [length]; lia). reflexivity.
        -- rewrite uchar_shiftl1_testbit by lia. f_equal. cbn [length]. lia.
Qed.

Lemma decode_group (st : dec_state) (g : group) (rest : list byte) :
  dec_inv st ->
  dec_flagsUsed st = 7 ->
  group_wf g ->
  snd g <> [] ->
  dec_inFile st = group_bytes g ++ rest ->
  tokens_ok (dec_outFile st) (snd g) ->
  exists st',
    reaches st st'
    /\ dec_inv st'
    /\ dec_flagsUsed st' = Z.of_nat (length (snd g)) - 1
    /\ dec_inFile st' = rest
    /\ dec_outFile st' = expand (dec_outFile st) (snd g)
    /\ (forall i, 0 <= i < 8 ->
          Z.testbit (dec_flags st') i
          = Z.testbit (byte_val (fst g)) (i - (Z.of_nat (length (snd g)) - 1))).
Proof.
  destruct g as [F [|t ts]]; intros Hinv Hu [Hlen Hbits] Hne Hin Hok;
    [contradiction|].
  cbn [fst snd length] in *. unfold group_bytes in Hin. cbn [fst snd app] in Hin.
  destruct Hok as [Hok1 Hok2].
  pose proof (next_flags_fetch st F _ Hu Hin) as Hnf.
  destruct (decode_iter_token st _ t (wire_all ts ++ rest) Hinv Hnf)
    as (st2 & Hrun & Hinv2 & Hf2 & Hu2 & Hin2 & Hout2).
  - cbn [dec_flags]. apply (Hbits O t). reflexivity.
  - cbn [dec_inFile]. unfold wire_all. cbn [map concat].
    rewrite <- app_assoc. reflexivity.
  - exact Hok1.
  - cbn [dec_flags dec_flagsUsed] in Hf2, Hu2.
    destruct (decode_tokens_in_group ts st2 rest Hinv2)
      as (st' & Hreach & Hinv' & Hu' & Hin' & Hout' & Hbits');
      try (rewrite ?Hu2; lia).
    + intros j t' Hj. rewrite Hf2.
      replace (6 - Z.of_nat j) with (7 - Z.of_nat (S j)) by lia.
      apply Hbits. exact Hj.
    + exact Hin2.
    + rewrite Hout2. exact Hok2.
    + exists st'. split; [eapply reaches_trans; [apply reaches_step, Hrun | exact Hreach]|].
      split; [exact Hinv'|]. split; [rewrite Hu', Hu2; lia|].
      split; [exact Hin'|]. split; [rewrite Hout', Hout2; reflexivity|].
      intros i Hi. rewrite Hbits' by lia. rewrite Hf2. f_equal. lia.
Qed.

Lemma decode_full_groups (gs : list group) :
  forall (st : dec_state) (rest : list byte),
  dec_inv st ->
  dec_flagsUsed st = 7 ->
  Forall full_group gs ->
  dec_inFile st = groups_bytes gs ++ rest ->
  tokens_ok (dec_outFile st) (groups_tokens gs) ->
  exists st',
    reaches st st'
    /\ dec_inv st'
    /\ dec_flagsUsed st' = 7
    /\ dec_inFile st' = rest
    /\ dec_outFile st' = expand (dec_outFile st) (groups_tokens gs).
Proof.
  induction gs as [|g gs IH]; intros st rest Hinv Hu Hfull Hin Hok.
  - exists st. split; [apply reaches_refl|]. cbn in *. auto.
  - inversion Hfull as [|? ? [Hlen Hwf] Hfull']; subst.
    unfold groups_bytes in Hin. cbn [map concat] in Hin.
    rewrite <- app_assoc in Hin. fold (groups_bytes gs) in Hin.
    unfold groups_tokens in Hok. cbn [map concat] in Hok.
    fold (groups_tokens gs) in Hok. apply tokens_ok_app in Hok.
    destruct Hok as [Hok1 Hok2].
    destruct (decode_group st g (groups_bytes gs ++ rest) Hinv Hu Hwf) as
      (st1 & Hreach1 & Hinv1 & Hu1 & Hin1 & Hout1 & _); try assumption.
    { intros E. rewrite E in Hlen. discriminate. }
    destruct (IH st1 rest Hinv1) as (st' & Hreach & Hinv' & Hu' & Hin' & Hout');
      try assumption.
    + rewrite Hu1, Hlen. reflexivity.
    + rewrite Hout1. exact Hok2.
    + exists st'. split; [eapply reaches_trans; eassumption|].
      split; [exact Hinv'|]. split; [exact Hu'|]. split; [exact Hin'|].
      rewrite Hout', Hout1. unfold groups_tokens. cbn [map concat].
      rewrite expand_app. reflexivity.
Qed.

(* ===================================================================== *)
(** * The decoder at the end of the stream *)
(* ===================================================================== *)

Lemma decode_iter_eof (st : dec_state) :
  dec_inFile st = [] ->
  exists why st'', decode_iter st = Break why st''
                   /\ dec_outFile st'' = dec_outFile st.
Proof.
  intros Hin. unfold decode_iter. rewrite next_flags_unfold, Hin.
  destruct (uchar (dec_flagsUsed st + 1) =? 8); [eauto|].
  unfold decode_token, shift_flags. cbn [dec_flags dec_inFile dec_outFile].
  rewrite Hin. destruct (Z.land _ 128 =? 0); eauto.
Qed.

Lemma decode_iter_eof_after_flags (st : dec_state) (F : byte) :
  dec_flagsUsed st = 7 -> dec_inFile st = [F] ->
  exists why st'', decode_iter st = Break why st''
                   /\ dec_outFile st'' = dec_outFile st.
Proof.
  intros Hu Hin. unfold decode_iter.
  rewrite (next_flags_fetch st F [] Hu Hin).
  unfold decode_token. cbn [dec_flags dec_inFile dec_outFile].
  destruct (Z.land _ 128 =? 0); eauto.
Qed.

(** A last group of fewer than eight tokens, then end of file. *)
Lemma decode_tail_eof (st : dec_state) (fin : option group) :
  dec_inv st ->
  dec_flagsUsed st = 7 ->
  match fin with
  | Some g => group_wf g /\ (length (snd g) < 8)%nat
  | None => True
  end ->
  dec_inFile st = fin_bytes fin ->
  tokens_ok (dec_outFile st) (fin_tokens fin) ->
  exists st' why st'',
    reaches st st' /\ decode_iter st' = Break why st''
    /\ dec_outFile st'' = expand (dec_outFile st) (fin_tokens fin).
Proof.
  intros Hinv Hu Hfin Hin Hok. destruct fin as [[F g]|]; cbn [fin_bytes fin_tokens] in *.
  - destruct Hfin as [Hwf Hlen]. cbn [snd] in *.
    destruct g as [|t ts].
    + destruct (decode_iter_eof_after_flags st F Hu Hin) as (why & st'' & Hb & Ho).
      exists st, why, st''. split; [apply reaches_refl|]. auto.
    + destruct (decode_group st (F, t :: ts) [] Hinv Hu Hwf)
        as (st' & Hreach & Hinv' & Hu' & Hin' & Hout' & _).
      * discriminate.
      * rewrite app_nil_r. exact Hin.
      * exact Hok.
      * destruct (decode_iter_eof st' Hin') as (why & st'' & Hb & Ho).
        exists st', why, st''. split; [exact Hreach|]. split; [exact Hb|].
        rewrite Ho, Hout'. reflexivity.
  - destruct (decode_iter_eof st Hin) as (why & st'' & Hb & Ho).
    exists st, why, st''. split; [apply reaches_refl|]. auto.
Qed.

Lemma low7_zero_shift (f : Z) :
  low7_zero f ->
  low7_zero (uchar (Z.shiftl f 1)) /\ Z.testbit (uchar (Z.shiftl f 1)) 7 = false.
Proof.
  intros H. split.
  - intros i Hi. rewrite uchar_shiftl1_testbit by lia.
    destruct (Z.eq_dec i 0) as [->|]; [reflexivity|]. apply H; lia.
  - rewrite uchar_shiftl1_testbit by lia. apply H; lia.
Qed.

(** Zero bytes after the stream are read as flag bytes and literals. *)
Lemma decode_zeros (n : nat) :
  forall (z : nat) (st : dec_state),
  (z <= n)%nat ->
  dec_inv st ->
  dec_flagsUsed st = 7 \/ (0 <= dec_flagsUsed st < 7 /\ low7_zero (dec_flags st)) ->
  dec_inFile st = replicate z x00 ->
  exists m st' why st'',
    reaches st st' /\ decode_iter st' = Break why st''
    /\ dec_outFile st'' = dec_outFile st ++ replicate m x00.
Proof.
  induction n as [|n IH]; intros z st Hz Hinv Hflags Hin.
  - replace z with O in Hin by lia.
    destruct (decode_iter_eof st Hin) as (why & st'' & Hb & Ho).
    exists O, st, why, st''. split; [apply reaches_refl|].
    rewrite app_nil_r. auto.
  - destruct z as [|z].
    { destruct (decode_iter_eof st Hin) as (why & st'' & Hb & Ho).
      exists O, st, why, st''. split; [apply reaches_refl|].
      rewrite app_nil_r. auto. }
    cbn [replicate] in Hin.
    assert (Hstep : forall st1 rest,
              next_flags st = Some st1 ->
              dec_inFile st1 = x00 :: rest ->
              Z.testbit (dec_flags st1) 7 = false ->
              exists st2, decode_iter st = Next st2 /\ dec_inv st2
                /\ dec_flags st2 = dec_flags st1
                /\ dec_flagsUsed st2 = dec_flagsUsed st1
                /\ dec_inFile st2 = rest
                /\ dec_outFile st2 = dec_outFile st ++ [x00]).
    { intros st1 rest Hnf Hin1 Hbit.
      apply (decode_iter_token st st1 (Literal x00) rest); auto. exact I. }
    assert (Hfinish : forall st2 z2,
              decode_iter st = Next st2 -> dec_inv st2 ->
              (z2 <= n)%nat ->
              dec_flagsUsed st2 = 7
              \/ (0 <= dec_flagsUsed st2 < 7 /\ low7_zero (dec_flags st2)) ->
              dec_inFile st2 = replicate z2 x00 ->
              dec_outFile st2 = dec_outFile st ++ [x00] ->
              exists m st' why st'',
                reaches st st' /\ decode_iter st' = Break why st''
                /\ dec_outFile st'' = dec_outFile st ++ replicate m x00).
    { intros st2 z2 Hrun Hinv2 Hz2 Hfl2 Hin2 Hout2.
      destruct (IH z2 st2 Hz2 Hinv2 Hfl2 Hin2) as (m & st' & why & st'' & Hr & Hb & Ho).
      exists (S m), st', why, st''.
      split; [eapply reaches_trans; [apply reaches_step, Hrun | exact Hr]|].
      split; [exact Hb|]. rewrite Ho, Hout2, <- app_assoc. reflexivity. }
    destruct Hflags as [Hu | [Hu Hlow]].
    + pose proof (next_flags_fetch st x00 _ Hu Hin) as Hnf.
      destruct z as [|z].
      * destruct (decode_iter_eof_after_flags st x00 Hu Hin) as (why & st'' & Hb & Ho).
        exists O, st, why, st''. split; [apply reaches_refl|].
        rewrite app_nil_r. auto.
      * destruct (Hstep _ (replicate z x00) Hnf eq_refl eq_refl)
          as (st2 & Hrun & Hinv2 & Hf2 & Hu2 & Hin2 & Hout2).
        apply (Hfinish st2 z); auto; [lia|].
        right. rewrite Hu2, Hf2. cbn. split; [lia|].
        intros i Hi. apply Z.bits_0.
    + pose proof (next_flags_shift st Hu) as Hnf.
      destruct (low7_zero_shift _ Hlow) as [Hlow' Hbit'].
      destruct (Hstep _ (replicate z x00) Hnf Hin Hbit')
        as (st2 & Hrun & Hinv2 & Hf2 & Hu2 & Hin2 & Hout2).
      apply (Hfinish st2 z); auto; [lia|].
      rewrite Hu2, Hf2. cbn [dec_flags dec_flagsUsed].
      destruct (Z.eq_dec (dec_flagsUsed st + 1) 7); [left; auto | right].
      split; [lia | exact Hlow'].
Qed.

(** A last group whose remaining flag bits are clear, then zero bytes. *)
Lemma decode_tail_zeros (st : dec_state) (fin : option group) (z : nat) :
  dec_inv st ->
  dec_flagsUsed st = 7 ->
  match fin with
  | Some g => group_wf g /\ (length (snd g) < 8)%nat /\ tail_clear g /\ snd g <> []
  | None => True
  end ->
  dec_inFile st = fin_bytes fin ++ replicate z x00 ->
  tokens_ok (dec_outFile st) (fin_tokens fin) ->
  exists m st' why st'',
    reaches st st' /\ decode_iter st' = Break why st''
    /\ dec_outFile st''
       = expand (dec_outFile st) (fin_tokens fin) ++ replicate m x00.
Proof.
  intros Hinv Hu Hfin Hin Hok. destruct fin as [[F g]|]; cbn [fin_bytes fin_tokens] in *.
  - destruct Hfin as (Hwf & Hlen & Hclear & Hne). cbn [snd] in *.
    destruct (decode_group st (F, g) (replicate z x00) Hinv Hu Hwf Hne Hin Hok)
      as (st1 & Hreach & Hinv1 & Hu1 & Hin1 & Hout1 & Hbits1).
    cbn [fst snd] in *.
    destruct (decode_zeros z z st1 (le_n _) Hinv1) as (m & st' & why & st'' & Hr & Hb & Ho).
    + right. split; [destruct g; [contradiction | cbn [length] in *; lia]|].
      intros i Hi. rewrite Hbits1 by lia.
      destruct (Z_lt_ge_dec (i - (Z.of_nat (length g) - 1)) 0) as [Hneg|Hpos].
      * apply Z.testbit_neg_r. lia.
      * apply Hclear. cbn [snd]. lia.
    + exact Hin1.
    + exists m, st', why, st''.
      split; [eapply reaches_trans; eassumption|]. split; [exact Hb|].
      rewrite Ho, Hout1. reflexivity.
  - destruct (decode_zeros z z st (le_n _) Hinv (or_introl Hu) Hin)
      as (m & st' & why & st'' & Hr & Hb & Ho).
    exists m, st', why, st''. auto.
Qed.

(** Decoding a stream of full groups, a last shorter group and nothing
    else. *)
Lemma decode_stream_eof (gs : list group) (fin : option group) :
  Forall full_group gs ->
  match fin with
  | Some g => group_wf g /\ (length (snd g) < 8)%nat
  | None => True
  end ->
  tokens_ok [] (groups_tokens gs ++ fin_tokens fin) ->
  decoded (DecodeLZSS (groups_bytes gs ++ fin_bytes fin))
  = Some (expand [] (groups_tokens gs ++ fin_tokens fin)).
Proof.
  intros Hfull Hfin Hok. apply tokens_ok_app in Hok. destruct Hok as [Hok1 Hok2].
  set (s := groups_bytes gs ++ fin_bytes fin).
  destruct (decode_full_groups gs (dec_init s) (fin_bytes fin))
    as (st1 & Hr1 & Hinv1 & Hu1 & Hin1 & Hout1);
    [apply dec_inv_init | reflexivity | exact Hfull | reflexivity | exact Hok1 |].
  cbn [dec_init dec_outFile] in Hout1.
  destruct (decode_tail_eof st1 fin Hinv1 Hu1 Hfin Hin1)
    as (st' & why & st'' & Hr2 & Hb & Ho).
  { rewrite Hout1. exact Hok2. }
  destruct (DecodeLZSS_finishes s) as (why1 & stf & Hrun & _).
  pose proof (reaches_break _ _ _ _ (reaches_trans _ _ _ Hr1 Hr2) Hb _ _ _ Hrun) as E.
  rewrite Hrun. cbn [decoded]. rewrite E, Ho, Hout1, expand_app. reflexivity.
Qed.

(** Decoding the same when zero bytes follow. *)
Lemma decode_stream_zeros (gs : list group) (fin : option group) (z : nat) :
  Forall full_group gs ->
  match fin with
  | Some g => group_wf g /\ (length (snd g) < 8)%nat /\ tail_clear g /\ snd g <> []
  | None => True
  end ->
  tokens_ok [] (groups_tokens gs ++ fin_tokens fin) ->
  exists m,
    decoded (DecodeLZSS (groups_bytes gs ++ fin_bytes fin ++ replicate z x00))
    = Some (expand [] (groups_tokens gs ++ fin_tokens fin) ++ replicate m x00).
Proof.
  intros Hfull Hfin Hok. apply tokens_ok_app in Hok. destruct Hok as [Hok1 Hok2].
  set (s := groups_bytes gs ++ fin_bytes fin ++ replicate z x00).
  destruct (decode_full_groups gs (dec_init s) (fin_bytes fin ++ replicate z x00))
    as (st1 & Hr1 & Hinv1 & Hu1 & Hin1 & Hout1);
    [apply dec_inv_init | reflexivity | exact Hfull | reflexivity | exact Hok1 |].
  cbn [dec_init dec_outFile] in Hout1.
  destruct (decode_tail_zeros st1 fin z Hinv1 Hu1 Hfin Hin1)
    as (m & st' & why & st'' & Hr2 & Hb & Ho).
  { rewrite Hout1. exact Hok2. }
  destruct (DecodeLZSS_finishes s) as (why1 & stf & Hrun & _).
  pose proof (reaches_break _ _ _ _ (reaches_trans _ _ _ Hr1 Hr2) Hb _ _ _ Hrun) as E.
  exists m. rewrite Hrun. cbn [decoded]. rewrite E, Ho, Hout1, expand_app. reflexivity.
Qed.

(* ===================================================================== *)
(** * The encoder: the pending group *)
(* ===================================================================== *)

Lemma flag_pos_of_shift (k : nat) :
  (k < 8)%nat -> uchar (Z.shiftr (flag_pos_of k) 1) = flag_pos_of (S k).
Proof.
  intros Hk. do 8 (destruct k as [|k]; [reflexivity|]). lia.
Qed.

Lemma flag_pos_of_one (k : nat) : (k <= 8)%nat -> flag_pos_of k = 1 <-> k = 7%nat.
Proof.
  intros Hk. do 9 (destruct k as [|k]; [cbn; split; intros; (lia || discriminate)|]). lia.
Qed.

Lemma flag_pos_of_zero (k : nat) : (k <= 8)%nat -> flag_pos_of k = 0 <-> k = 8%nat.
Proof.
  intros Hk. do 9 (destruct k as [|k]; [cbn; split; intros; (lia || discriminate)|]). lia.
Qed.

Lemma uchar_testbit_low (x i : Z) : 0 <= i < 8 -> Z.testbit (uchar x) i = Z.testbit x i.
Proof.
  intros Hi. unfold uchar. change 256 with (2 ^ 8).
  apply Z.mod_pow2_bits_low. lia.
Qed.

Lemma enc_repr_init st :
  enc_flags st = 0 -> enc_flagPos st = 128 -> enc_encodedData st = [] ->
  enc_repr st [].
Proof.
  intros Hf Hp He. unfold enc_repr. cbn [length]. rewrite Hf, Hp, He.
  split; [lia|]. split; [reflexivity|]. split; [reflexivity|]. split; [lia|].
  split; [intros j t Hj; discriminate|]. intros i Hi. apply Z.bits_0.
Qed.

Lemma push_token_repr (t : token) (st : enc_state) (g : list token) :
  enc_repr st g -> (length g < 8)%nat ->
  enc_repr (push_token t st) (g ++ [t]).
Proof.
  intros (Hlen & Hpos & Hdata & Hrange & Hbits & Hclear) Hlt.
  assert (Hpb : forall i, 0 <= i < 8 ->
            Z.testbit (enc_flagPos st) i = (i =? 7 - Z.of_nat (length g))).
  { intros i Hi. rewrite Hpos. unfold flag_pos_of.
    destruct (Nat.ltb_spec (length g) 8); [|lia].
    rewrite Z.pow2_bits_eqb by lia. rewrite Z.eqb_sym. reflexivity. }
  assert (Hnew : forall i, 0 <= i < 8 ->
            Z.testbit (enc_flags (push_token t st)) i
            = Z.testbit (enc_flags st) i
              || (is_match t && (i =? 7 - Z.of_nat (length g)))).
  { intros i Hi. cbn [push_token enc_flags]. destruct (is_match t); cbn [andb].
    - rewrite uchar_testbit_low, Z.lor_spec, Hpb by lia. reflexivity.
    - rewrite orb_false_r. reflexivity. }
  unfold enc_repr. rewrite length_app. cbn [length].
  replace (length g + 1)%nat with (S (length g)) by lia.
  split; [lia|]. split.
  { cbn [push_token enc_flagPos]. rewrite Hpos. apply flag_pos_of_shift, Hlt. }
  split.
  { cbn [push_token enc_encodedData]. rewrite Hdata, wire_all_app.
    unfold wire_all at 3. cbn [map concat]. rewrite app_nil_r. reflexivity. }
  split.
  { cbn [push_token enc_flags]. destruct (is_match t); [apply uchar_range | exact Hrange]. }
  split.
  - intros j t' Hj.
    assert (Hjl : (j < S (length g))%nat).
    { apply lookup_lt_Some in Hj. rewrite length_app in Hj. cbn in Hj. lia. }
    rewrite Hnew by lia.
    destruct (Nat.eq_dec j (length g)) as [->|Hne].
    + rewrite lookup_app_r, Nat.sub_diag in Hj by lia. injection Hj as <-.
      rewrite Hclear by lia. rewrite Z.eqb_refl, andb_true_r. reflexivity.
    + rewrite lookup_app_l in Hj by lia.
      rewrite (Hbits j t' Hj).
      destruct (Z.eqb_spec (7 - Z.of_nat j) (7 - Z.of_nat (length g))); [lia|].
      rewrite andb_false_r, orb_false_r. reflexivity.
  - intros i Hi. rewrite Hnew by lia. rewrite Hclear by lia.
    destruct (Z.eqb_spec i (7 - Z.of_nat (length g))); [lia|].
    rewrite andb_false_r. reflexivity.
Qed.

(* ===================================================================== *)
(** * The encoder: what a chosen token stands for *)
(* ===================================================================== *)

Lemma inputData_at_lookup (inputData : list byte) (i j : Z) :
  0 <= i < Z.of_nat (length inputData) ->
  0 <= j < Z.of_nat (length inputData) ->
  inputData_at inputData i = inputData_at inputData j ->
  inputData !! Z.to_nat i = inputData !! Z.to_nat j.
Proof.
  intros Hi Hj. unfold inputData_at.
  destruct (lookup_lt_is_Some_2 inputData (Z.to_nat i)) as [a Ha]; [lia|].
  destruct (lookup_lt_is_Some_2 inputData (Z.to_nat j)) as [b Hb]; [lia|].
  rewrite Ha, Hb. cbn. congruence.
Qed.

(** The token chosen at [inputPos] stands for the next bytes of the input,
    given that the bytes before [inputPos] have been produced. *)
Lemma choose_token_sound (inputData : list byte) (inputPos : Z) :
  0 <= inputPos < Z.of_nat (length inputData) ->
  let t := choose_token inputData inputPos in
  let out := take (Z.to_nat inputPos) inputData in
  token_ok out t
  /\ out ++ token_bytes out t = take (Z.to_nat (inputPos + token_len t)) inputData
  /\ 1 <= token_len t
  /\ inputPos + token_len t <= Z.of_nat (length inputData).
Proof.
  intros Hp t out. subst t out.
  assert (Hlenout : length (take (Z.to_nat inputPos) inputData) = Z.to_nat inputPos)
    by (rewrite length_take; lia).
  destruct (choose_token inputData inputPos) as [b | d l] eqn:E.
  - apply choose_token_literal in E. cbn [token_ok token_bytes token_len].
    split; [exact I|]. split; [|lia].
    destruct (lookup_lt_is_Some_2 inputData (Z.to_nat inputPos)) as [b' Hb']; [lia|].
    unfold inputData_at in E. rewrite Hb' in E. cbn in E. subst b'.
    replace (Z.to_nat (inputPos + 1)) with (S (Z.to_nat inputPos)) by lia.
    symmetry. apply take_S_r. exact Hb'.
  - apply choose_token_match in E. destruct E as (Hl & Hd & Hc).
    pose proof (search_limit_bounds inputPos) as [Hw Hle].
    pose proof (match_count_le inputData inputPos d) as Hcle.
    pose proof (max_check_bounds inputData inputPos d) as [Hm1 Hm2].
    unfold MAX_LENGTH, WINDOW_SIZE in *.
    cbn [token_ok token_bytes token_len]. rewrite Hlenout.
    split; [unfold MAX_LENGTH, WINDOW_SIZE; lia|]. split; [|lia].
    replace (Z.to_nat (inputPos + l)) with (Z.to_nat inputPos + Z.to_nat l)%nat by lia.
    rewrite <- take_take_drop. f_equal.
    apply list_eq. intros k.
    destruct (Nat.lt_ge_cases k (Z.to_nat l)) as [Hk|Hk].
    + rewrite !lookup_take_lt, !lookup_drop by lia.
      rewrite lookup_take_lt by lia.
      pose proof (match_count_bytes inputData inputPos d (Z.of_nat k) ltac:(lia)) as Hb.
      apply inputData_at_lookup in Hb; [|lia|lia].
      replace (Z.to_nat inputPos - Z.to_nat d + k)%nat
        with (Z.to_nat (inputPos - d + Z.of_nat k)) by lia.
      replace (Z.to_nat inputPos + k)%nat
        with (Z.to_nat (inputPos + Z.of_nat k)) by lia.
      symmetry. exact Hb.
    + rewrite !lookup_take_ge by lia. reflexivity.
Qed.

(* ===================================================================== *)
(** * The encoder: the invariant of the main loop *)
(* ===================================================================== *)

Lemma emit_token_push (t : token) (st : enc_state) :
  enc_flags (emit_token t st) = enc_flags (push_token t st)
  /\ enc_encodedData (emit_token t st) = enc_encodedData (push_token t st)
  /\ enc_flagPos (emit_token t st) = enc_flagPos st
  /\ enc_inputPos (emit_token t st) = enc_inputPos st + token_len t
  /\ enc_compressedSize (emit_token t st) = enc_compressedSize st
  /\ enc_outFile (emit_token t st) = enc_outFile st.
Proof. destruct t; cbn; auto 10. Qed.

Lemma groups_bytes_snoc (gs : list group) (g : group) :
  groups_bytes (gs ++ [g]) = groups_bytes gs ++ group_bytes g.
Proof.
  unfold groups_bytes. rewrite map_app, concat_app. cbn. rewrite app_nil_r.
  reflexivity.
Qed.

Lemma groups_tokens_snoc (gs : list group) (g : group) :
  groups_tokens (gs ++ [g]) = groups_tokens gs ++ snd g.
Proof.
  unfold groups_tokens. rewrite map_app, concat_app. cbn. rewrite app_nil_r.
  reflexivity.
Qed.

(** The group written for the pending tokens [g]. *)
Lemma enc_repr_group (st : enc_state) (g : list token) :
  enc_repr st g ->
  group_wf (to_uchar (enc_flags st), g)
  /\ tail_clear (to_uchar (enc_flags st), g)
  /\ group_bytes (to_uchar (enc_flags st), g)
     = to_uchar (enc_flags st) :: enc_encodedData st.
Proof.
  intros (Hlen & Hpos & Hdata & Hrange & Hbits & Hclear).
  unfold group_wf, tail_clear, group_bytes. cbn [fst snd].
  rewrite byte_val_to_uchar, uchar_small by exact Hrange.
  rewrite Hdata. auto.
Qed.

Lemma encode_iter_inv_tokens (inputData : list byte) (st : enc_state)
    (gs : list group) (g : list token) :
  enc_inv inputData st gs g -> (length g < 8)%nat ->
  enc_inputPos st < Z.of_nat (length inputData) ->
  exists gs' g',
    enc_inv inputData (encode_iter inputData st) gs' g'
    /\ (length g' < 8)%nat
    /\ enc_inputPos st < enc_inputPos (encode_iter inputData st)
    /\ groups_tokens gs' ++ g'
       = groups_tokens gs ++ g ++ [choose_token inputData (enc_inputPos st)].
Proof.
  intros (Hfull & Hout & Hcs & Hrepr & Hpos & Hok & Hexp) Hlt Hin.
  pose proof (choose_token_sound inputData (enc_inputPos st) ltac:(lia)) as Hsound.
  cbv zeta in Hsound.
  set (t := choose_token inputData (enc_inputPos st)) in *.
  destruct Hsound as (Htok & Hbytes & Hlen1 & Hlen2).
  pose proof (emit_token_push t st) as (Ef & Ed & Ep & Ei & Ec & Eo).
  pose proof (push_token_repr t st g Hrepr Hlt) as Hrepr'.
  assert (Hok' : tokens_ok [] (groups_tokens gs ++ g ++ [t])).
  { rewrite app_assoc. apply tokens_ok_app. split; [exact Hok|].
    rewrite Hexp. cbn. auto. }
  assert (Hexp' : expand [] (groups_tokens gs ++ g ++ [t])
                  = take (Z.to_nat (enc_inputPos st + token_len t)) inputData).
  { rewrite app_assoc, expand_app, Hexp. cbn. exact Hbytes. }
  unfold encode_iter.
  change (choose_token inputData (enc_inputPos st)) with t.
  unfold advance_group. rewrite Ep.
  pose proof Hrepr as (_ & Hfp & _).
  destruct (Z.eqb_spec (enc_flagPos st) 1) as [Hone|Hone].
  - (* the eighth token of the group: the group is written *)
    rewrite Hfp in Hone. apply flag_pos_of_one in Hone; [|lia].
    pose proof (enc_repr_group _ _ Hrepr') as (Hwf & _ & Hgb).
    cbn [push_token enc_flags enc_encodedData] in Hgb.
    exists (gs ++ [(to_uchar (enc_flags (push_token t st)), g ++ [t])]), [].
    split; [|split; [cbn; lia|split]].
    + unfold enc_inv, write_group, nextEncoded.
      cbn [enc_flags enc_flagPos enc_encodedData enc_inputPos
           enc_compressedSize enc_outFile].
      rewrite Ef, Ed, Ei, Ec, Eo.
      split.
      { apply Forall_app. split; [exact Hfull|]. constructor; [|constructor].
        split; [|exact Hwf]. cbn [snd]. rewrite length_app. cbn. lia. }
      split.
      { rewrite groups_bytes_snoc, Hout. f_equal. symmetry. exact Hgb. }
      split.
      { rewrite length_app. cbn [length]. lia. }
      split; [apply enc_repr_init; reflexivity|].
      split; [lia|].
      rewrite groups_tokens_snoc, app_nil_r. cbn [snd]. auto.
    + cbn [enc_inputPos write_group]. lia.
    + rewrite groups_tokens_snoc, app_nil_r. reflexivity.
  - (* the group goes on *)
    exists gs, (g ++ [t]).
    assert (Hg7 : length g <> 7%nat).
    { intros E7. apply Hone. rewrite Hfp. apply flag_pos_of_one; lia. }
    split; [|split; [rewrite length_app; cbn; lia|split]].
    + unfold enc_inv.
      cbn [enc_flags enc_flagPos enc_encodedData enc_inputPos
           enc_compressedSize enc_outFile].
      rewrite Ei, Ec, Eo.
      split; [exact Hfull|]. split; [exact Hout|]. split; [exact Hcs|].
      split.
      { destruct Hrepr' as (H1 & H2 & H3 & H4 & H5 & H6).
        unfold enc_repr.
        cbn [enc_flags enc_flagPos enc_encodedData].
        rewrite Ef, Ed. auto 10. }
      split; [lia|]. auto.
    + cbn [enc_inputPos]. lia.
    + reflexivity.
Qed.

Lemma encode_iter_inv (inputData : list byte) (st : enc_state)
    (gs : list group) (g : list token) :
  enc_inv inputData st gs g -> (length g < 8)%nat ->
  enc_inputPos st < Z.of_nat (length inputData) ->
  exists gs' g',
    enc_inv inputData (encode_iter inputData st) gs' g'
    /\ (length g' < 8)%nat
    /\ enc_inputPos st < enc_inputPos (encode_iter inputData st).
Proof.
  intros Hinv Hlt Hin.
  destruct (encode_iter_inv_tokens inputData st gs g Hinv Hlt Hin)
    as (gs' & g' & H1 & H2 & H3 & _).
  exists gs', g'. auto.
Qed.

(** The main loop ends with [inputPos = inputSize]: the fuel is never what
    stops it.  Every token it adds is one chosen by the match search. *)
Lemma encode_loop_inv_tokens (inputData : list byte) (fuel : nat) :
  forall (st : enc_state) (gs : list group) (g : list token),
  enc_inv inputData st gs g -> (length g < 8)%nat ->
  Z.of_nat (length inputData) - enc_inputPos st <= Z.of_nat fuel ->
  exists gs' g',
    enc_inv inputData (encode_loop inputData fuel st) gs' g'
    /\ (length g' < 8)%nat
    /\ enc_inputPos (encode_loop inputData fuel st) = Z.of_nat (length inputData)
    /\ forall P : token -> Prop,
         (forall p, P (choose_token inputData p)) ->
         Forall P (groups_tokens gs ++ g) -> Forall P (groups_tokens gs' ++ g').
Proof.
  induction fuel as [|fuel IH]; intros st gs g Hinv Hlt Hfuel.
  - exists gs, g. cbn [encode_loop]. split; [exact Hinv|]. split; [exact Hlt|].
    split; [|auto]. destruct Hinv as (_ & _ & _ & _ & Hpos & _). lia.
  - cbn [encode_loop].
    destruct (Z.ltb_spec (enc_inputPos st) (Z.of_nat (length inputData))) as [Hin|Hin].
    + destruct (encode_iter_inv_tokens inputData st gs g Hinv Hlt Hin)
        as (gs1 & g1 & Hinv1 & Hlt1 & Hadv & Htoks).
      destruct (IH _ gs1 g1 Hinv1 Hlt1 ltac:(lia))
        as (gs' & g' & H1 & H2 & H3 & H4).
      exists gs', g'. split; [exact H1|]. split; [exact H2|]. split; [exact H3|].
      intros P HP Hall. apply (H4 P HP). rewrite Htoks, app_assoc.
      apply Forall_app. split; [exact Hall|].
      constructor; [apply HP | constructor].
    + exists gs, g. split; [exact Hinv|]. split; [exact Hlt|].
      split; [|auto]. destruct Hinv as (_ & _ & _ & _ & Hpos & _). lia.
Qed.

Lemma encode_loop_inv (inputData : list byte) (fuel : nat) :
  forall (st : enc_state) (gs : list group) (g : list token),
  enc_inv inputData st gs g -> (length g < 8)%nat ->
  Z.of_nat (length inputData) - enc_inputPos st <= Z.of_nat fuel ->
  exists gs' g',
    enc_inv inputData (encode_loop inputData fuel st) gs' g'
    /\ (length g' < 8)%nat
    /\ enc_inputPos (encode_loop inputData fuel st) = Z.of_nat (length inputData).
Proof.
  intros st gs g Hinv Hlt Hfuel.
  destruct (encode_loop_inv_tokens inputData fuel st gs g Hinv Hlt Hfuel)
    as (gs' & g' & H1 & H2 & H3 & _).
  exists gs', g'. auto.
Qed.

Lemma encode_loop_exits (inputData : list byte) :
  enc_inputPos (encode_loop inputData (length inputData) enc_init)
  = Z.of_nat (length inputData).
Proof.
  destruct (encode_loop_inv inputData (length inputData) enc_init [] [])
    as (gs & g & _ & _ & H); [| cbn; lia | cbn; lia | exact H].
  unfold enc_inv, enc_init. cbn.
  split; [constructor|]. split; [reflexivity|]. split; [reflexivity|].
  split; [apply enc_repr_init; reflexivity|]. split; [lia|]. auto.
Qed.

Lemma enc_inv_init (inputData : list byte) : enc_inv inputData enc_init [] [].
Proof.
  unfold enc_inv, enc_init. cbn.
  split; [constructor|]. split; [reflexivity|]. split; [reflexivity|].
  split; [apply enc_repr_init; reflexivity|]. split; [lia|]. auto.
Qed.

(* ===================================================================== *)
(** * The encoder: the end of the stream and the two paddings *)
(* ===================================================================== *)

(** The loop of lines 522-531 adds zero-length matches to the pending
    group until the size is a multiple of 16 or the group is full. *)
Lemma exact_fill_spec (n : nat) :
  forall (st : enc_state) (g : list token),
  enc_repr st g -> (8 - length g <= n)%nat ->
  exists j : nat,
    enc_repr (exact_fill n st) (g ++ replicate j pad_token)
    /\ enc_outFile (exact_fill n st) = enc_outFile st
    /\ enc_compressedSize (exact_fill n st) = enc_compressedSize st
    /\ (Z.rem (enc_compressedSize st + nextEncoded (exact_fill n st) + 1) 16 = 0
        \/ (length g + j = 8)%nat).
Proof.
  induction n as [|n IH]; intros st g Hrepr Hn.
  - exists O. cbn [exact_fill replicate]. rewrite app_nil_r.
    pose proof Hrepr as (Hlen & _).
    split; [exact Hrepr|]. do 2 (split; [reflexivity|]). right. lia.
  - cbn [exact_fill].
    destruct (Z.eqb_spec (Z.rem (enc_compressedSize st + nextEncoded st + 1) 16) 0)
      as [Hal|Hal].
    { exists O. cbn [replicate]. rewrite app_nil_r.
      split; [exact Hrepr|]. do 2 (split; [reflexivity|]). left. exact Hal. }
    pose proof Hrepr as (Hlen & Hfp & _).
    destruct (Z.eqb_spec (enc_flagPos st) 0) as [Hz|Hz].
    { exists O. cbn [replicate]. rewrite app_nil_r.
      split; [exact Hrepr|]. do 2 (split; [reflexivity|]).
      right. rewrite Hfp in Hz. apply flag_pos_of_zero in Hz; lia. }
    assert (Hlt : (length g < 8)%nat).
    { destruct (Nat.eq_dec (length g) 8%nat) as [E|]; [|lia].
      exfalso. apply Hz. rewrite Hfp. apply flag_pos_of_zero; lia. }
    pose proof (push_token_repr pad_token st g Hrepr Hlt) as Hrepr'.
    destruct (IH (push_token pad_token st) (g ++ [pad_token]) Hrepr')
      as (j & Hr & Ho & Hc & Hdone).
    { rewrite length_app. cbn. lia. }
    exists (S j). cbn [replicate].
    replace (g ++ pad_token :: replicate j pad_token)
      with ((g ++ [pad_token]) ++ replicate j pad_token)
      by (rewrite <- app_assoc; reflexivity).
    split; [exact Hr|]. split; [exact Ho|]. split; [exact Hc|].
    destruct Hdone as [Hd|Hd]; [left; exact Hd | right].
    rewrite length_app in Hd. cbn in Hd. lia.
Qed.

Lemma to_int_rem16 (z : Z) : Z.rem (to_int z) 16 = 0 <-> Z.rem z 16 = 0.
Proof. unfold to_int. zdiv. Qed.

Lemma wire_all_nil (g : list token) : wire_all g = [] -> g = [].
Proof.
  destruct g as [|[b|d l] g]; [reflexivity | discriminate | discriminate].
Qed.

Lemma tokens_with_pads (B : list byte) (ts : list token) (j : nat) :
  tokens_ok [] ts -> expand [] ts = B ->
  tokens_ok [] (ts ++ replicate j pad_token)
  /\ expand [] (ts ++ replicate j pad_token) = B.
Proof.
  intros Hok Hexp. pose proof (expand_pad (expand [] ts) j) as [H1 H2].
  split.
  - apply tokens_ok_app. auto.
  - rewrite expand_app, H1. exact Hexp.
Qed.

(** Lines 513-540: after the pending group is written, the output is a
    stream of groups that stands for the whole input. *)
Lemma flush_pending_shape_tokens (inputData : list byte) (exactPad : bool)
    (st : enc_state) (gs : list group) (g : list token) :
  enc_inv inputData st gs g -> (length g < 8)%nat ->
  enc_inputPos st = Z.of_nat (length inputData) ->
  let st' := flush_pending exactPad st in
  exists gs' fin,
    stream_shape inputData (enc_outFile st') gs' fin
    /\ zero_friendly fin
    /\ enc_compressedSize st' = Z.of_nat (length (enc_outFile st'))
    /\ (exactPad = true -> fin = None \/ Z.rem (enc_compressedSize st') 16 = 0)
    /\ exists j : nat,
         groups_tokens gs' ++ fin_tokens fin
         = (groups_tokens gs ++ g) ++ replicate j pad_token
         /\ (exactPad = false -> j = O).
Proof.
  intros (Hfull & Hout & Hcs & Hrepr & Hpos & Hok & Hexp) Hlt Hend st'. subst st'.
  rewrite Hend, Nat2Z.id, firstn_all in Hexp.
  unfold flush_pending.
  pose proof Hrepr as (_ & _ & Hdata & _).
  destruct (Z.eqb_spec (nextEncoded st) 0) as [Hne|Hne].
  - (* nothing is pending *)
    assert (g = []) as ->.
    { apply wire_all_nil. rewrite <- Hdata. unfold nextEncoded in Hne.
      destruct (enc_encodedData st); [reflexivity | cbn in Hne; lia]. }
    exists gs, None. cbn [fin_bytes fin_tokens].
    split; [|split; [exact I|split; [exact Hcs|split; [auto|]]]].
    + unfold stream_shape. cbn [fin_bytes fin_tokens]. rewrite app_nil_r. auto.
    + exists O. cbn [replicate]. rewrite !app_nil_r. auto.
  - assert (Hgne : g <> []).
    { intros ->. apply Hne. unfold nextEncoded. rewrite Hdata. reflexivity. }
    set (fill := exactPad
                 && negb (Z.rem (to_int (enc_compressedSize st + nextEncoded st + 1)) 16 =? 0)).
    assert (Hst1 : exists j : nat,
               enc_repr (if fill then exact_fill 8 st else st) (g ++ replicate j pad_token)
               /\ enc_outFile (if fill then exact_fill 8 st else st) = enc_outFile st
               /\ enc_compressedSize (if fill then exact_fill 8 st else st)
                  = enc_compressedSize st
               /\ (exactPad = true ->
                   Z.rem (enc_compressedSize st
                          + nextEncoded (if fill then exact_fill 8 st else st) + 1) 16 = 0
                   \/ (length g + j = 8)%nat)
               /\ (exactPad = false -> j = O)).
    { destruct fill eqn:Hfill.
      - destruct (exact_fill_spec 8 st g Hrepr ltac:(lia)) as (j & H1 & H2 & H3 & H4).
        exists j. do 4 (split; [auto|]).
        intros ->. subst fill. discriminate Hfill.
      - exists O. cbn [replicate]. rewrite app_nil_r.
        split; [exact Hrepr|]. do 2 (split; [reflexivity|]).
        split; [|reflexivity].
        intros ->. left. subst fill. cbn [andb] in Hfill.
        apply negb_false_iff, Z.eqb_eq in Hfill.
        apply (proj1 (to_int_rem16 _)) in Hfill. exact Hfill. }
    destruct Hst1 as (j & Hrepr1 & Hout1 & Hcs1 & Hdone & Hj0).
    set (st1 := if fill then exact_fill 8 st else st) in *.
    pose proof (enc_repr_group _ _ Hrepr1) as (Hwf & Hclear & Hgb).
    pose proof (tokens_with_pads inputData _ j Hok Hexp) as [Hok' Hexp'].
    rewrite <- app_assoc in Hok', Hexp'.
    assert (Hcs' : enc_compressedSize (write_group st1)
                   = Z.of_nat (length (enc_outFile (write_group st1)))).
    { unfold write_group, nextEncoded. cbn [enc_compressedSize enc_outFile].
      rewrite length_app. cbn [length]. rewrite Hcs1, Hout1, Hcs. lia. }
    assert (Hbytes : enc_outFile (write_group st1)
                     = groups_bytes gs
                       ++ group_bytes (to_uchar (enc_flags st1),
                                       g ++ replicate j pad_token)).
    { unfold write_group. cbn [enc_outFile]. rewrite Hout1, Hout, Hgb. reflexivity. }
    pose proof Hrepr1 as (Hlen1 & _).
    destruct (Nat.eq_dec (length (g ++ replicate j pad_token)) 8%nat) as [E8|E8].
    + (* the last group is full *)
      exists (gs ++ [(to_uchar (enc_flags st1), g ++ replicate j pad_token)]), None.
      split; [|split; [exact I|split; [exact Hcs'|split; [auto|]]]].
      * unfold stream_shape. cbn [fin_bytes fin_tokens].
        rewrite !app_nil_r, groups_bytes_snoc, groups_tokens_snoc. cbn [snd].
        split; [exact Hbytes|]. split; [|auto].
        apply Forall_app. split; [exact Hfull|]. constructor; [|constructor].
        split; [exact E8 | exact Hwf].
      * exists j. cbn [fin_tokens].
        rewrite app_nil_r, groups_tokens_snoc. cbn [snd].
        rewrite app_assoc. auto.
    + exists gs, (Some (to_uchar (enc_flags st1), g ++ replicate j pad_token)).
      split; [|split; [|split; [exact Hcs'|split]]].
      * unfold stream_shape. cbn [fin_bytes fin_tokens snd].
        split; [exact Hbytes|]. split; [exact Hfull|].
        split; [split; [exact Hwf | lia]|]. auto.
      * cbn [zero_friendly snd]. split; [exact Hclear|].
        destruct g; [contradiction | discriminate].
      * intros Hex. right. destruct (Hdone Hex) as [Hal|Hfull8].
        -- unfold write_group. cbn [enc_compressedSize]. rewrite Hcs1.
           rewrite <- Hal. f_equal. lia.
        -- rewrite length_app, length_replicate in E8. lia.
      * exists j. cbn [fin_tokens snd]. rewrite app_assoc. auto.
Qed.

Lemma flush_pending_shape (inputData : list byte) (exactPad : bool)
    (st : enc_state) (gs : list group) (g : list token) :
  enc_inv inputData st gs g -> (length g < 8)%nat ->
  enc_inputPos st = Z.of_nat (length inputData) ->
  let st' := flush_pending exactPad st in
  exists gs' fin,
    stream_shape inputData (enc_outFile st') gs' fin
    /\ zero_friendly fin
    /\ enc_compressedSize st' = Z.of_nat (length (enc_outFile st'))
    /\ (exactPad = true -> fin = None \/ Z.rem (enc_compressedSize st') 16 = 0).
Proof.
  intros Hinv Hlt Hend st'.
  destruct (flush_pending_shape_tokens inputData exactPad st gs g Hinv Hlt Hend)
    as (gs' & fin & H1 & H2 & H3 & H4 & _).
  exists gs', fin. auto.
Qed.

Lemma write_padding_spec (n : nat) :
  forall (i : Z) (st : enc_state),
  enc_outFile (write_padding n i st) = enc_outFile st ++ padding_bytes n i
  /\ enc_compressedSize (write_padding n i st)
     = enc_compressedSize st + Z.of_nat n.
Proof.
  induction n as [|n IH]; intros i st.
  - cbn. rewrite app_nil_r. split; [reflexivity | lia].
  - cbn [write_padding padding_bytes].
    destruct (IH (i + 1)
                (mk_enc (enc_flags st) (enc_flagPos st) (enc_encodedData st)
                   (enc_inputPos st) (enc_compressedSize st + 1)
                   (enc_outFile st
                      ++ [to_uchar (default 0 (padding_block !! Z.to_nat (Z.rem i 17)))])))
      as [H1 H2].
    rewrite H1, H2. cbn [enc_outFile enc_compressedSize].
    rewrite <- app_assoc. split; [reflexivity | lia].
Qed.

Lemma pad_group_wf (m : nat) : (m <= 8)%nat -> group_wf (pad_group m).
Proof.
  intros Hm. unfold group_wf, pad_group. cbn [fst snd].
  rewrite length_replicate. split; [exact Hm|].
  intros j t Hj. apply lookup_replicate in Hj. destruct Hj as [-> Hj].
  change (byte_val xff) with (Z.ones 8).
  rewrite Z.ones_spec_low by lia. reflexivity.
Qed.

Lemma block_cases (r0 : Z) :
  0 <= r0 < 16 ->
  let n := Z.to_nat (default 0 (padding_lengths !! Z.to_nat (16 - r0))) in
  (r0 + Z.of_nat n) mod 16 = 0
  /\ (r0 = 0 -> n = O)
  /\ padding_bytes n 0 = groups_bytes (block_groups r0) ++ fin_bytes (block_fin r0)
  /\ Forall full_group (block_groups r0)
  /\ match block_fin r0 with
     | Some g => group_wf g /\ (length (snd g) < 8)%nat
     | None => True
     end
  /\ exists k, groups_tokens (block_groups r0) ++ fin_tokens (block_fin r0)
               = replicate k pad_token.
Proof.
  intros Hr.
  assert (Hcases : r0 = 0 \/ r0 = 1 \/ r0 = 2 \/ r0 = 3 \/ r0 = 4 \/ r0 = 5
                   \/ r0 = 6 \/ r0 = 7 \/ r0 = 8 \/ r0 = 9 \/ r0 = 10 \/ r0 = 11
                   \/ r0 = 12 \/ r0 = 13 \/ r0 = 14 \/ r0 = 15) by lia.
  assert (Hfull8 : full_group (pad_group 8))
    by (split; [reflexivity | apply pad_group_wf; lia]).
  assert (Hwf : forall m, (m < 8)%nat ->
             group_wf (pad_group m) /\ (length (snd (pad_group m)) < 8)%nat).
  { intros m Hm. split; [apply pad_group_wf; lia|].
    cbn [pad_group snd]. rewrite length_replicate. exact Hm. }
  repeat (destruct Hcases as [-> | Hcases]); try subst r0; cbv zeta.
  all: split; [reflexivity|].
  all: split; [intros; first [reflexivity | lia]|].
  all: split; [vm_compute; reflexivity|].
  all: split; [first [exact (List.Forall_nil _)
                     | change (Forall full_group [pad_group 8]);
                       constructor; [exact Hfull8 | constructor]]|].
  all: split; [first [exact I | apply Hwf; vm_compute; lia]|].
  all: match goal with
       | |- exists k, ?ts = _ => exists (length ts); vm_compute; reflexivity
       end.
Qed.

Lemma length_padding_bytes (n : nat) (i : Z) : length (padding_bytes n i) = n.
Proof.
  revert i. induction n as [|n IH]; intros i; cbn; [reflexivity|].
  rewrite IH. reflexivity.
Qed.

Lemma groups_bytes_app (gs1 gs2 : list group) :
  groups_bytes (gs1 ++ gs2) = groups_bytes gs1 ++ groups_bytes gs2.
Proof. unfold groups_bytes. rewrite map_app, concat_app. reflexivity. Qed.

Lemma groups_tokens_app (gs1 gs2 : list group) :
  groups_tokens (gs1 ++ gs2) = groups_tokens gs1 ++ groups_tokens gs2.
Proof. unfold groups_tokens. rewrite map_app, concat_app. reflexivity. Qed.

(** Lines 545-554: the padding blocks keep the stream well formed and bring
    its size to a multiple of 16. *)
Lemma exact_blocks_shape_tokens (B : list byte) (st : enc_state)
    (gs : list group) (fin : option group) :
  stream_shape B (enc_outFile st) gs fin ->
  enc_compressedSize st = Z.of_nat (length (enc_outFile st)) ->
  fin = None \/ Z.rem (enc_compressedSize st) 16 = 0 ->
  exists gs' fin',
    stream_shape B (enc_outFile (exact_blocks st)) gs' fin'
    /\ enc_compressedSize (exact_blocks st)
       = Z.of_nat (length (enc_outFile (exact_blocks st)))
    /\ Z.rem (enc_compressedSize (exact_blocks st)) 16 = 0
    /\ exists k : nat,
         groups_tokens gs' ++ fin_tokens fin'
         = (groups_tokens gs ++ fin_tokens fin) ++ replicate k pad_token.
Proof.
  intros Hshape Hcs Hal. unfold exact_blocks. cbv zeta.
  set (r0 := Z.rem (enc_compressedSize st) 16).
  assert (Hr0 : 0 <= r0 < 16) by (subst r0; zdiv).
  pose proof (block_cases r0 Hr0) as Hb. cbv zeta in Hb.
  set (n := Z.to_nat (default 0 (padding_lengths !! Z.to_nat (16 - r0)))) in *.
  destruct Hb as (Hsum & Hzero & Hbytes & Hbfull & Hbfin & k & Htoks).
  destruct (write_padding_spec n 0 st) as [Hout' Hcs'].
  rewrite Hout', Hcs'.
  assert (Hlen : enc_compressedSize st + Z.of_nat n
                 = Z.of_nat (length (enc_outFile st ++ padding_bytes n 0))).
  { rewrite length_app, length_padding_bytes. lia. }
  assert (Hal' : Z.rem (enc_compressedSize st + Z.of_nat n) 16 = 0)
    by (subst r0; zdiv).
  destruct (Z.eq_dec r0 0) as [E0|E0].
  - rewrite (Hzero E0) in *. cbn [padding_bytes] in *.
    rewrite app_nil_r in *.
    exists gs, fin. split; [exact Hshape|]. split; [exact Hlen|].
    split; [exact Hal'|]. exists O. cbn [replicate]. rewrite app_nil_r. reflexivity.
  - destruct Hal as [-> | Hal]; [|subst r0; contradiction].
    destruct Hshape as (Hs & Hfull & _ & Hok & Hexp).
    cbn [fin_bytes fin_tokens] in *. rewrite app_nil_r in *.
    exists (gs ++ block_groups r0), (block_fin r0).
    split; [|split; [exact Hlen|split; [exact Hal'|]]].
    + unfold stream_shape.
      rewrite groups_bytes_app, groups_tokens_app, <- !app_assoc, Htoks.
      split; [rewrite Hs, Hbytes; reflexivity|].
      split; [apply Forall_app; auto|]. split; [exact Hbfin|].
      apply tokens_with_pads; assumption.
    + exists k. rewrite groups_tokens_app, <- !app_assoc, Htoks. reflexivity.
Qed.

Lemma exact_blocks_shape (B : list byte) (st : enc_state)
    (gs : list group) (fin : option group) :
  stream_shape B (enc_outFile st) gs fin ->
  enc_compressedSize st = Z.of_nat (length (enc_outFile st)) ->
  fin = None \/ Z.rem (enc_compressedSize st) 16 = 0 ->
  exists gs' fin',
    stream_shape B (enc_outFile (exact_blocks st)) gs' fin'
    /\ enc_compressedSize (exact_blocks st)
       = Z.of_nat (length (enc_outFile (exact_blocks st)))
    /\ Z.rem (enc_compressedSize (exact_blocks st)) 16 = 0.
Proof.
  intros Hshape Hcs Hal.
  destruct (exact_blocks_shape_tokens B st gs fin Hshape Hcs Hal)
    as (gs' & fin' & H1 & H2 & H3 & _).
  exists gs', fin'. auto.
Qed.

(** Lines 555-562: zero bytes up to the next multiple of 16. *)
Lemma plain_pad_spec (n : nat) :
  forall st : enc_state,
  0 <= enc_compressedSize st ->
  (16 - enc_compressedSize st mod 16) mod 16 <= Z.of_nat n ->
  exists z : nat,
    enc_outFile (plain_pad n st) = enc_outFile st ++ replicate z x00
    /\ enc_compressedSize (plain_pad n st) = enc_compressedSize st + Z.of_nat z
    /\ Z.rem (enc_compressedSize (plain_pad n st)) 16 = 0
    /\ (Z.rem (enc_compressedSize st) 16 = 0 -> z = O).
Proof.
  induction n as [|n IH]; intros st Hpos Hn.
  - exists O. cbn. rewrite app_nil_r. repeat split; try lia. zdiv.
  - cbn [plain_pad].
    destruct (Z.eqb_spec (Z.rem (enc_compressedSize st) 16) 0) as [E|E].
    + exists O. cbn. rewrite app_nil_r. repeat split; try lia.
    + destruct (IH (mk_enc (enc_flags st) (enc_flagPos st) (enc_encodedData st)
                      (enc_inputPos st) (enc_compressedSize st + 1)
                      (enc_outFile st ++ [x00])))
        as (z & H1 & H2 & H3 & H4).
      * cbn. lia.
      * cbn [enc_compressedSize]. zdiv.
      * exists (S z). rewrite H1, H2. cbn [enc_outFile enc_compressedSize replicate].
        rewrite <- app_assoc. cbn [app]. repeat split; try lia.
        rewrite H2 in H3. exact H3.
Qed.

(** What [EncodeLZSS] writes for a non-empty input: a well-formed stream
    of groups that stands for the input, then [z] zero bytes. *)
Lemma EncodeLZSS_stream (B : list byte) (dontPad exactPad : bool) :
  B <> [] ->
  exists s gs fin (z : nat),
    EncodeLZSS B dontPad exactPad = s ++ replicate z x00
    /\ stream_shape B s gs fin
    /\ (z = O \/ zero_friendly fin)
    /\ (dontPad = true \/ exactPad = true -> z = O)
    /\ (dontPad = false \/ exactPad = true ->
        Z.of_nat (length (EncodeLZSS B dontPad exactPad)) mod 16 = 0).
Proof.
  intros Hne. unfold EncodeLZSS. cbv zeta.
  destruct (Z.leb_spec (Z.of_nat (length B)) 0) as [Hz|Hz].
  { destruct B; [contradiction | cbn in Hz; lia]. }
  destruct (encode_loop_inv B (length B) enc_init [] [] (enc_inv_init B))
    as (gs0 & g0 & Hinv & Hlt & Hend); [cbn; lia | cbn; lia |].
  set (st0 := encode_loop B (length B) enc_init) in *.
  pose proof (flush_pending_shape B exactPad st0 gs0 g0 Hinv Hlt Hend) as Hflush.
  cbv zeta in Hflush.
  set (st1 := flush_pending exactPad st0) in *.
  destruct Hflush as (gs1 & fin1 & Hshape1 & Hzf1 & Hcs1 & Hal1).
  destruct exactPad.
  - (* exact padding *)
    destruct (exact_blocks_shape B st1 gs1 fin1 Hshape1 Hcs1 (Hal1 eq_refl))
      as (gs2 & fin2 & Hshape2 & Hcs2 & Hal2).
    set (st2 := exact_blocks st1) in *.
    assert (Hlen2 : Z.of_nat (length (enc_outFile st2)) mod 16 = 0)
      by (rewrite <- Hcs2; zdiv).
    exists (enc_outFile st2), gs2, fin2, O. cbn [replicate]. rewrite app_nil_r.
    destruct dontPad; cbn [negb].
    + auto 10.
    + destruct (plain_pad_spec 15 st2) as (z & H1 & H2 & H3 & H4);
        [lia | zdiv |].
      rewrite (H4 Hal2) in H1. cbn [replicate] in H1. rewrite app_nil_r in H1.
      rewrite H1. auto 10.
  - destruct dontPad; cbn [negb].
    + exists (enc_outFile st1), gs1, fin1, O. cbn [replicate]. rewrite app_nil_r.
      split; [reflexivity|]. split; [exact Hshape1|]. split; [auto|].
      split; [auto|]. intros [H|H]; discriminate H.
    + destruct (plain_pad_spec 15 st1) as (z & H1 & H2 & H3 & H4);
        [lia | zdiv |].
      exists (enc_outFile st1), gs1, fin1, z.
      split; [exact H1|]. split; [exact Hshape1|]. split; [auto|].
      split; [intros [H|H]; discriminate H|].
      intros _.
      assert (Hl : enc_compressedSize (plain_pad 15 st1)
                   = Z.of_nat (length (enc_outFile (plain_pad 15 st1)))).
      { rewrite H1, H2, length_app, length_replicate. lia. }
      rewrite <- Hl. zdiv.
Qed.

Lemma choose_token_in_bounds (B : list byte) (p : Z) :
  match_in_bounds (choose_token B p).
Proof.
  destruct (choose_token B p) as [b|d l] eqn:Et; [exact I|].
  apply emitted_match_bounds in Et. exact Et.
Qed.

Lemma Forall_pads (P : token -> Prop) (ts : list token) (j : nat) :
  Forall P ts -> (j = O \/ P pad_token) ->
  Forall P (ts ++ replicate j pad_token).
Proof.
  intros Hts Hj. apply Forall_app. split; [exact Hts|].
  destruct Hj as [-> | Hpad]; [constructor|].
  apply Forall_forall. intros t Ht. apply elem_of_replicate in Ht.
  destruct Ht as [-> _]. exact Hpad.
Qed.

(** C4, as the code has it.  Whatever the options, the output is a stream
    of flag groups that stands for the input, followed by the zero bytes
    of the plain padding, which hold no token of the encoder.  Every token
    of the stream is a literal, or a match chosen by the search, with a
    distance between 3 and 1023, a length between 3 and 63 and a length
    that does not exceed its distance, or, with exact padding only, a
    padding match of distance 0 and length 0. *)
Theorem emitted_match_tokens (B : list byte) (dontPad exactPad : bool) :
  exists (gs : list group) (fin : option group) (z : nat),
    EncodeLZSS B dontPad exactPad
    = (groups_bytes gs ++ fin_bytes fin) ++ replicate z x00
    /\ stream_shape B (groups_bytes gs ++ fin_bytes fin) gs fin
    /\ (z = O \/ zero_friendly fin)
    /\ Forall (fun t => match_in_bounds t \/ (exactPad = true /\ t = pad_token))
         (groups_tokens gs ++ fin_tokens fin).
Proof.
  unfold EncodeLZSS. cbv zeta.
  destruct (Z.leb_spec (Z.of_nat (length B)) 0) as [Hz|Hz].
  { exists [], None, O. destruct B; [|cbn in Hz; lia].
    cbn. split; [reflexivity|]. split; [|split; [auto|constructor]].
    unfold stream_shape. cbn. split; [reflexivity|]. split; [constructor|]. auto. }
  set (P := fun t => match_in_bounds t \/ (exactPad = true /\ t = pad_token)).
  destruct (encode_loop_inv_tokens B (length B) enc_init [] [] (enc_inv_init B))
    as (gs0 & g0 & Hinv & Hlt & Hend & Htoks0); [cbn; lia | cbn; lia |].
  assert (Hall0 : Forall P (groups_tokens gs0 ++ g0)).
  { apply (Htoks0 P); [|constructor].
    intros p. left. apply choose_token_in_bounds. }
  set (st0 := encode_loop B (length B) enc_init) in *.
  pose proof (flush_pending_shape_tokens B exactPad st0 gs0 g0 Hinv Hlt Hend)
    as Hflush.
  cbv zeta in Hflush.
  set (st1 := flush_pending exactPad st0) in *.
  destruct Hflush as (gs1 & fin1 & Hshape1 & Hzf1 & Hcs1 & Hal1 & j & Htoks1 & Hj).
  assert (Hall1 : Forall P (groups_tokens gs1 ++ fin_tokens fin1)).
  { rewrite Htoks1. apply Forall_pads; [exact Hall0|].
    destruct exactPad; [right; right; auto | left; auto]. }
  assert (Hself : forall st gs fin,
            stream_shape B (enc_outFile st) gs fin ->
            enc_outFile st = groups_bytes gs ++ fin_bytes fin
            /\ stream_shape B (groups_bytes gs ++ fin_bytes fin) gs fin).
  { intros st gs fin Hs. pose proof Hs as (E & _). rewrite <- E. auto. }
  destruct exactPad.
  - destruct (exact_blocks_shape_tokens B st1 gs1 fin1 Hshape1 Hcs1 (Hal1 eq_refl))
      as (gs2 & fin2 & Hshape2 & Hcs2 & Hal2 & k & Htoks2).
    set (st2 := exact_blocks st1) in *.
    assert (Hall2 : Forall P (groups_tokens gs2 ++ fin_tokens fin2)).
    { rewrite Htoks2. apply Forall_pads; [exact Hall1|]. right. right. auto. }
    destruct (Hself st2 gs2 fin2 Hshape2) as [E2 Hs2].
    exists gs2, fin2, O. cbn [replicate]. rewrite app_nil_r.
    split; [|split; [exact Hs2|split; [auto|exact Hall2]]].
    destruct dontPad; cbn [negb]; [exact E2|].
    destruct (plain_pad_spec 15 st2) as (z & H1 & H2 & H3 & H4);
      [lia | zdiv |].
    rewrite (H4 Hal2) in H1. cbn [replicate] in H1. rewrite app_nil_r in H1.
    rewrite H1. exact E2.
  - destruct (Hself st1 gs1 fin1 Hshape1) as [E1 Hs1].
    destruct dontPad; cbn [negb].
    + exists gs1, fin1, O. cbn [replicate]. rewrite app_nil_r.
      split; [exact E1|]. split; [exact Hs1|]. split; [auto | exact Hall1].
    + destruct (plain_pad_spec 15 st1) as (z & H1 & H2 & H3 & H4);
        [lia | zdiv |].
      exists gs1, fin1, z. rewrite H1, E1.
      split; [reflexivity|]. split; [exact Hs1|]. split; [auto | exact Hall1].
Qed.

(** C4 as stated fails: with exact padding the one-byte input [A] is
    written as the flag byte [0x7f], the literal and seven tokens [00 00]
    whose flag bits are set: matches of distance 0 and length 0. *)
Lemma exact_padding_emits_zero_matches :
  EncodeLZSS [x41] true true = x7f :: x41 :: replicate 14 x00
  /\ EncodeLZSS [x41] true true
     = group_bytes (x7f, Literal x41 :: replicate 7 (Match 0 0))
  /\ full_group (x7f, Literal x41 :: replicate 7 (Match 0 0))
  /\ ~ match_in_bounds (Match 0 0).
Proof.
  split; [reflexivity|]. split; [reflexivity|]. split.
  - split; [reflexivity|]. split; [cbn; lia|].
    intros j t Hj.
    destruct j as [|[|[|[|[|[|[|[|j]]]]]]]]; cbn in Hj; try discriminate;
      injection Hj as <-; reflexivity.
  - cbn. lia.
Qed.

(* ===================================================================== *)
(** * Decoding what the encoder wrote *)
(* ===================================================================== *)

(** Whatever the options, the decoder gets the input back, followed by
    zero bytes when (and only when) plain padding alone was applied. *)
Lemma decode_encode (B : list byte) (dontPad exactPad : bool) :
  exists m : nat,
    decoded (DecodeLZSS (EncodeLZSS B dontPad exactPad))
    = Some (B ++ replicate m x00)
    /\ (dontPad = true \/ exactPad = true -> m = O).
Proof.
  destruct B as [|b B'] eqn:EB.
  { exists O. split; [reflexivity | auto]. }
  rewrite <- EB. assert (Hne : B <> []) by (rewrite EB; discriminate).
  clear EB b B'.
  destruct (EncodeLZSS_stream B dontPad exactPad Hne)
    as (s & gs & fin & z & Henc & Hshape & Hz & Hopt & _).
  destruct Hshape as (Hs & Hfull & Hfin & Hok & Hexp).
  rewrite Henc, Hs.
  destruct (Nat.eq_dec z O) as [->|Hz0].
  - exists O. cbn [replicate]. rewrite !app_nil_r. split; [|auto].
    rewrite decode_stream_eof by assumption. rewrite Hexp. reflexivity.
  - destruct Hz as [Hz|Hzf]; [contradiction|].
    destruct (decode_stream_zeros gs fin z Hfull) as [m Hm].
    + destruct fin as [g|]; [|exact I].
      destruct Hfin as [H1 H2]. destruct Hzf as [H3 H4]. auto.
    + exact Hok.
    + exists m. rewrite <- app_assoc, Hm, Hexp. split; [reflexivity|].
      intros Ho. specialize (Hopt Ho). contradiction.
Qed.

Lemma decode_encode_exact (B : list byte) (dontPad exactPad : bool) :
  dontPad = true \/ exactPad = true ->
  decoded (DecodeLZSS (EncodeLZSS B dontPad exactPad)) = Some B.
Proof.
  intros Ho. destruct (decode_encode B dontPad exactPad) as (m & Hm & Hz).
  rewrite Hm, (Hz Ho). cbn [replicate]. rewrite app_nil_r. reflexivity.
Qed.

Lemma EncodeLZSS_aligned (B : list byte) (dontPad exactPad : bool) :
  dontPad = false \/ exactPad = true ->
  Z.of_nat (length (EncodeLZSS B dontPad exactPad)) mod 16 = 0.
Proof.
  intros Ho. destruct B as [|b B'] eqn:EB; [reflexivity|].
  rewrite <- EB. assert (Hne : B <> []) by (rewrite EB; discriminate).
  destruct (EncodeLZSS_stream B dontPad exactPad Hne)
    as (s & gs & fin & z & _ & _ & _ & _ & Hal).
  exact (Hal Ho).
Qed.

(** C1.  For every byte sequence [B], the empty one included, decoding the
    result of encoding [B] with padding suppressed ([dontPad] set,
    [exactPad] clear) yields exactly [B]. *)
Theorem roundtrip_suppressed_padding (B : list byte) :
  decoded (DecodeLZSS (EncodeLZSS B true false)) = Some B.
Proof. apply decode_encode_exact. left; reflexivity. Qed.

(** C2, as the code has it.  Decoding the encoded output yields exactly [B]
    when padding is suppressed or exact padding is on; with plain padding
    alone the decoder, which reads to the end of the file, yields [B]
    followed by zero bytes only. *)
Theorem padding_and_decoded_content (B : list byte) :
  decoded (DecodeLZSS (EncodeLZSS B true false)) = Some B
  /\ decoded (DecodeLZSS (EncodeLZSS B true true)) = Some B
  /\ decoded (DecodeLZSS (EncodeLZSS B false true)) = Some B
  /\ exists m : nat,
       decoded (DecodeLZSS (EncodeLZSS B false false))
       = Some (B ++ replicate m x00).
Proof.
  repeat split; try (apply decode_encode_exact; auto).
  destruct (decode_encode B false false) as (m & Hm & _). exists m. exact Hm.
Qed.

(** C2 as stated fails: with plain padding alone, the one-byte input [A]
    decodes to [A] followed by thirteen zero bytes. *)
Lemma plain_padding_changes_decoded_content :
  decoded (DecodeLZSS (EncodeLZSS [x41] false false))
  = Some (x41 :: replicate 13 x00)
  /\ decoded (DecodeLZSS (EncodeLZSS [x41] false false)) <> Some [x41].
Proof. split; [vm_compute; reflexivity | vm_compute; discriminate]. Qed.

(** C3.  With plain padding enabled the length of the output is a multiple
    of 16; with exact padding enabled it is a multiple of 16 as well, and
    decoding the exact-padded stream yields exactly [B]. *)
Theorem padding_alignment (B : list byte) :
  (forall exactPad,
     Z.of_nat (length (EncodeLZSS B false exactPad)) mod 16 = 0)
  /\ (forall dontPad,
        Z.of_nat (length (EncodeLZSS B dontPad true)) mod 16 = 0
        /\ decoded (DecodeLZSS (EncodeLZSS B dontPad true)) = Some B).
Proof.
  split.
  - intros exactPad. apply EncodeLZSS_aligned. left; reflexivity.
  - intros dontPad. split.
    + apply EncodeLZSS_aligned. right; reflexivity.
    + apply decode_encode_exact. right; reflexivity.
Qed.

(** C9, as the code has it.  The empty input is encoded to the empty
    output whatever the padding options (line 377 returns before anything
    is written), and decoding that output yields the empty sequence. *)
Theorem empty_input (dontPad exactPad : bool) :
  EncodeLZSS [] dontPad exactPad = []
  /\ decoded (DecodeLZSS (EncodeLZSS [] dontPad exactPad)) = Some [].
Proof. split; reflexivity. Qed.

(** C9 as stated fails: with plain padding the empty input is not encoded
    to 16 zero bytes (and 16 zero bytes would decode to 14 zero bytes). *)
Lemma empty_input_is_not_padded :
  EncodeLZSS [] false false <> replicate 16 x00
  /\ decoded (DecodeLZSS (replicate 16 x00)) = Some (replicate 14 x00).
Proof. split; [discriminate | vm_compute; reflexivity]. Qed.

(* ===================================================================== *)
(** * End of input and memory safety of the decoder *)
(* ===================================================================== *)

Lemma decode_iter_break (st st' : dec_state) (why : break_at) :
  decode_iter st = Break why st' ->
  dec_outFile st' = dec_outFile st /\ dec_inFile st' = [].
Proof.
  unfold decode_iter.
  destruct (next_flags st) as [st1|] eqn:Hnf.
  - apply next_flags_spec in Hnf. destruct Hnf as (_ & _ & _ & Eout & _).
    unfold decode_token.
    destruct (Z.land (dec_flags st1) 128 =? 0).
    + destruct (dec_inFile st1) as [|c rest] eqn:Hin.
      * intros [= <- <-]. auto.
      * destruct (array_write _ _ _); discriminate.
    + destruct (dec_inFile st1) as [|b0 [|b1 rest]] eqn:Hin.
      * intros [= <- <-]. auto.
      * intros [= <- <-]. cbn. auto.
      * destruct (copy_from_window _ _ _ _ _ _ _) as [[la' out']|]; [|discriminate].
        destruct (copy_to_window _ _ _ _ _); discriminate.
  - apply next_flags_eof in Hnf. destruct Hnf as [_ Hin].
    intros [= <- <-]. auto.
Qed.

Lemma decode_iter_eof_offset (st st1 : dec_state) (b : byte) :
  next_flags st = Some st1 ->
  Z.land (dec_flags st1) 128 <> 0 ->
  dec_inFile st1 = [b] ->
  exists st', decode_iter st = Break EofOffset st'
              /\ dec_outFile st' = dec_outFile st.
Proof.
  intros Hnf Hbit Hin. unfold decode_iter. rewrite Hnf.
  apply next_flags_spec in Hnf. destruct Hnf as (_ & _ & _ & Eout & _).
  unfold decode_token. rewrite Hin.
  destruct (Z.eqb_spec (Z.land (dec_flags st1) 128) 0); [contradiction|].
  eexists. split; [reflexivity | exact Eout].
Qed.

Lemma decode_truncated (inFile more : list byte) :
  exists out cs,
    decoded (DecodeLZSS inFile) = Some out
    /\ decoded (DecodeLZSS (inFile ++ more)) = Some (out ++ cs).
Proof.
  destruct (DecodeLZSS_finishes inFile) as (why & st & Hrun & _).
  destruct (decode_loop_truncated _ (dec_init inFile) more why st
              (dec_inv_init inFile) Hrun (S (length (inFile ++ more))))
    as (why' & st2 & cs & Hrun2 & Hout2).
  { cbn. lia. }
  exists (dec_outFile st), cs. rewrite Hrun. split; [reflexivity|].
  change (with_more_input (dec_init inFile) more) with (dec_init (inFile ++ more))
    in Hrun2.
  unfold DecodeLZSS. rewrite Hrun2. cbn. rewrite Hout2. reflexivity.
Qed.

Lemma decode_iter_eof_token (st st1 : dec_state) :
  next_flags st = Some st1 ->
  dec_inFile st1 = [] ->
  decode_iter st
  = Break (if Z.land (dec_flags st1) 128 =? 0 then EofLiteral else EofLength) st1
  /\ dec_outFile st1 = dec_outFile st.
Proof.
  intros Hnf Hin. unfold decode_iter. rewrite Hnf.
  apply next_flags_spec in Hnf. destruct Hnf as (_ & _ & _ & Eout & _).
  unfold decode_token. rewrite Hin.
  destruct (Z.land (dec_flags st1) 128 =? 0); auto.
Qed.

(** C8.  End of input while a flag byte is expected ends the loop normally
    (the first [break]); end of input while a literal, the first or the
    second byte of a match is expected ends it as well; whichever [break]
    is taken, [outFile] is left as it was.  So every run ends at the end of
    its input, and what a truncated stream decodes to is the beginning of
    what the whole stream decodes to. *)
Theorem eof_stops_the_decoder :
  (forall st, uchar (dec_flagsUsed st + 1) = 8 -> dec_inFile st = [] ->
              decode_iter st = Break EofFlags (shift_flags st)
              /\ dec_outFile (shift_flags st) = dec_outFile st)
  /\ (forall st st1,
        next_flags st = Some st1 -> dec_inFile st1 = [] ->
        decode_iter st
        = Break (if Z.land (dec_flags st1) 128 =? 0
                 then EofLiteral else EofLength) st1
        /\ dec_outFile st1 = dec_outFile st)
  /\ (forall st st1 b,
        next_flags st = Some st1 -> Z.land (dec_flags st1) 128 <> 0 ->
        dec_inFile st1 = [b] ->
        exists st', decode_iter st = Break EofOffset st'
                    /\ dec_outFile st' = dec_outFile st)
  /\ (forall st why st', decode_iter st = Break why st' ->
        dec_outFile st' = dec_outFile st /\ dec_inFile st' = [])
  /\ (forall inFile, exists why st,
        DecodeLZSS inFile = Finished why st /\ dec_inFile st = [])
  /\ (forall inFile more, exists out cs,
        decoded (DecodeLZSS inFile) = Some out
        /\ decoded (DecodeLZSS (inFile ++ more)) = Some (out ++ cs)).
Proof.
  split.
  { intros st Hu Hin. unfold decode_iter.
    rewrite (proj2 (next_flags_eof st) (conj Hu Hin)). split; reflexivity. }
  split; [exact decode_iter_eof_token|].
  split; [exact decode_iter_eof_offset|].
  split; [intros st why st'; apply decode_iter_break|].
  split; [exact DecodeLZSS_finishes | exact decode_truncated].
Qed.

(** C10.  On every input stream, well formed or not, no array access of
    the decoder is out of bounds: no run faults, however long it is left to
    run, and the run to the end of the stream finishes normally.  The
    length of a match read from the wire is at most 63, below the 64 bytes
    of the staging buffer, and the index used to read the window is reduced
    modulo 1023 into the window. *)
Theorem decoder_accesses_in_bounds (inFile : list byte) :
  (forall fuel, decode_loop fuel (dec_init inFile) <> Faulted)
  /\ (exists why st, DecodeLZSS inFile = Finished why st)
  /\ (forall b0 : byte, 0 <= unpack_length (byte_val b0) <= 63
                        /\ unpack_length (byte_val b0) < MAX_CODED)
  /\ (forall (b0 b1 : byte) (written i : nat),
        0 <= window_src (Z.of_nat written mod WINDOW_SIZE)
               (unpack_offset (byte_val b0) (byte_val b1)) (Z.of_nat i)
          < WINDOW_SIZE).
Proof.
  split.
  { intros fuel. apply decode_loop_never_faults, dec_inv_init. }
  split.
  { destruct (DecodeLZSS_finishes inFile) as (why & st & H & _). eauto. }
  split.
  { intros b0. pose proof (unpack_length_range b0).
    unfold MAX_CODED, MAX_UNCODED. lia. }
  intros b0 b1 written i. apply window_src_range.
  - unfold WINDOW_SIZE. zdiv.
  - apply unpack_offset_range.
  - lia.
Qed.

(* ===================================================================== *)
(** * The theorems at work on concrete inputs *)
(* ===================================================================== *)

Lemma emitted_match_bounds_witness :
  choose_token [x61; x62; x63; x61; x62; x63] 3 = Match 3 3
  /\ (3 <= 3 <= 1023 /\ 3 <= 3 <= 63 /\ 3 <= 3).
Proof.
  split; [vm_compute; reflexivity|].
  apply (emitted_match_bounds [x61; x62; x63; x61; x62; x63] 3 3 3).
  vm_compute; reflexivity.
Defined.

Lemma search_tie_break_and_cap_witness :
  ((forall d, 3 <= d <= search_limit 6 ->
      match_count [x61; x62; x63; x61; x62; x63; x61; x62; x63] 6 d <= 63)
   /\ find_best [x61; x62; x63; x61; x62; x63; x61; x62; x63] 6 = (3, 3)
   /\ match_count [x61; x62; x63; x61; x62; x63; x61; x62; x63] 6 6 = 3
   /\ (forall d, 3 <= d <= search_limit 6 ->
          match_count [x61; x62; x63; x61; x62; x63; x61; x62; x63] 6 d <= 3))
  /\ (3 <= 64 <= search_limit 100
      /\ match_count (replicate 200 x41) 100 64 > 63
      /\ find_best (replicate 200 x41) 100 = (63, 64)).
Proof.
  assert (Hsmall : forall B p d, 3 <= d <= 63 -> match_count B p d <= 63).
  { intros B p d Hd. pose proof (match_count_le B p d).
    pose proof (max_check_bounds B p d). lia. }
  assert (Hall : forall d, 3 <= d <= search_limit 6 ->
            match_count [x61; x62; x63; x61; x62; x63; x61; x62; x63] 6 d <= 63).
  { intros d Hd. apply Hsmall. change (search_limit 6) with 6 in Hd. lia. }
  assert (Hfb : find_best [x61; x62; x63; x61; x62; x63; x61; x62; x63] 6 = (3, 3))
    by (vm_compute; reflexivity).
  split.
  - split; [exact Hall|]. split; [exact Hfb|].
    split; [vm_compute; reflexivity|].
    destruct (proj1 (search_tie_break_and_cap
                       [x61; x62; x63; x61; x62; x63; x61; x62; x63] 6)
                Hall 3 3 Hfb)
      as [(H2 & _) | (_ & _ & _ & Hmax & _)]; [discriminate H2 | exact Hmax].
  - split; [change (search_limit 100) with 100; lia|].
    split; [vm_compute; reflexivity|].
    apply (proj2 (search_tie_break_and_cap (replicate 200 x41) 100) 64).
    + change (search_limit 100) with 100; lia.
    + vm_compute; reflexivity.
    + intros d Hd. apply Hsmall. lia.
Defined.

Lemma eof_stops_the_decoder_witness :
  (decode_iter (dec_init []) = Break EofFlags (shift_flags (dec_init []))
   /\ dec_outFile (shift_flags (dec_init [])) = [])
  /\ (exists st1, decode_iter (dec_init [x00]) = Break EofLiteral st1
                  /\ dec_outFile st1 = [])
  /\ (exists st', decode_iter (dec_init [xff; x0c]) = Break EofOffset st'
                  /\ dec_outFile st' = []).
Proof.
  destruct eof_stops_the_decoder as (Hflags & Htoken & Hoffset & _).
  split; [apply Hflags; reflexivity|]. split.
  - eexists.
    exact (Htoken (dec_init [x00])
             (mk_dec 0 0 0 (replicate (Z.to_nat WINDOW_SIZE) x11)
                (replicate (Z.to_nat MAX_CODED) x00) [] [])
             eq_refl eq_refl).
  - eapply Hoffset; [reflexivity | vm_compute; discriminate | reflexivity].
Defined.

(* ===================================================================== *)
(** * The encoder: how the paddings relate to the unpadded stream *)
(* ===================================================================== *)

Lemma encode_loop_state (B : list byte) :
  exists gs g,
    enc_inv B (encode_loop B (length B) enc_init) gs g
    /\ (length g < 8)%nat
    /\ enc_inputPos (encode_loop B (length B) enc_init) = Z.of_nat (length B).
Proof.
  apply (encode_loop_inv B (length B) enc_init [] []).
  - apply enc_inv_init.
  - cbn. lia.
  - cbn. lia.
Qed.

Lemma plain_pad_aligned (n : nat) (st : enc_state) :
  Z.rem (enc_compressedSize st) 16 = 0 -> plain_pad n st = st.
Proof.
  intros H. destruct n as [|n]; [reflexivity|].
  cbn [plain_pad]. rewrite H. reflexivity.
Qed.

Lemma plain_pad_count (n : nat) :
  forall st : enc_state,
  0 <= enc_compressedSize st ->
  (16 - enc_compressedSize st mod 16) mod 16 <= Z.of_nat n ->
  enc_outFile (plain_pad n st)
  = enc_outFile st
    ++ replicate (Z.to_nat ((16 - enc_compressedSize st mod 16) mod 16)) x00.
Proof.
  induction n as [|n IH]; intros st Hcs Hn.
  - cbn [plain_pad].
    assert (Hz : (16 - enc_compressedSize st mod 16) mod 16 = 0) by zdiv.
    rewrite Hz. cbn. rewrite app_nil_r. reflexivity.
  - cbn [plain_pad].
    destruct (Z.eqb_spec (Z.rem (enc_compressedSize st) 16) 0) as [Hr|Hr].
    + rewrite Z.rem_mod_nonneg in Hr by lia.
      rewrite Hr. cbn. rewrite app_nil_r. reflexivity.
    + rewrite Z.rem_mod_nonneg in Hr by lia.
      rewrite IH; cbn [enc_compressedSize enc_outFile]; [| lia | zdiv].
      assert (Hz : (16 - enc_compressedSize st mod 16) mod 16
                   = 1 + (16 - (enc_compressedSize st + 1) mod 16) mod 16) by zdiv.
      rewrite Hz.
      assert (0 <= (16 - (enc_compressedSize st + 1) mod 16) mod 16) by zdiv.
      rewrite Z2Nat.inj_add by lia.
      change (Z.to_nat 1) with 1%nat. cbn [Nat.add replicate].
      rewrite <- app_assoc. reflexivity.
Qed.

(** X1.  Plain padding only appends zero bytes to the unpadded stream, as many
    as bring its length to the next multiple of 16. *)
Theorem plain_padding_appends_zeros (B : list byte) :
  let s := EncodeLZSS B true false in
  EncodeLZSS B false false
  = s ++ replicate (Z.to_nat ((16 - Z.of_nat (length s) mod 16) mod 16)) x00.
Proof.
  cbv zeta. unfold EncodeLZSS.
  destruct (Z.of_nat (length B) <=? 0); [reflexivity|].
  cbn [negb].
  destruct (encode_loop_state B) as (gs & g & Hinv & Hlt & Hpos).
  destruct (flush_pending_shape B false _ gs g Hinv Hlt Hpos)
    as (gs' & fin & _ & _ & Hcs & _).
  cbv zeta in Hcs.
  rewrite plain_pad_count.
  - rewrite Hcs. reflexivity.
  - lia.
  - change (Z.of_nat 15) with 15. zdiv.
Qed.

(** X2.  With exact padding the output is aligned already, so that the plain
    padding adds nothing: [dontPad] makes no difference. *)
Theorem exact_padding_overrides_dontPad (B : list byte) :
  EncodeLZSS B false true = EncodeLZSS B true true.
Proof.
  unfold EncodeLZSS.
  destruct (Z.of_nat (length B) <=? 0); [reflexivity|].
  cbn [negb].
  destruct (encode_loop_state B) as (gs & g & Hinv & Hlt & Hpos).
  destruct (flush_pending_shape B true _ gs g Hinv Hlt Hpos)
    as (gs' & fin & Hshape & _ & Hcs & Hal).
  cbv zeta in Hshape, Hcs, Hal.
  destruct (exact_blocks_shape B _ gs' fin Hshape Hcs (Hal eq_refl))
    as (gs2 & fin2 & _ & _ & Hrem).
  rewrite plain_pad_aligned by exact Hrem. reflexivity.
Qed.

Lemma exact_blocks_aligned (st : enc_state) :
  0 <= enc_compressedSize st ->
  enc_compressedSize st mod 16 = 0 -> exact_blocks st = st.
Proof.
  intros Hcs H. unfold exact_blocks.
  rewrite Z.rem_mod_nonneg by lia. rewrite H. reflexivity.
Qed.

(** X3.  When the unpadded stream happens to have a length that is a multiple
    of 16, neither padding changes it. *)
Theorem aligned_stream_is_not_padded (B : list byte) (dontPad exactPad : bool) :
  Z.of_nat (length (EncodeLZSS B true false)) mod 16 = 0 ->
  EncodeLZSS B dontPad exactPad = EncodeLZSS B true false.
Proof.
  unfold EncodeLZSS.
  destruct (Z.of_nat (length B) <=? 0); [reflexivity|].
  cbn [negb].
  destruct (encode_loop_state B) as (gs & g & Hinv & Hlt & Hpos).
  set (st0 := encode_loop B (length B) enc_init) in *.
  destruct (flush_pending_shape B false _ gs g Hinv Hlt Hpos)
    as (_ & _ & _ & _ & Hcs & _).
  cbv zeta in Hcs.
  intros Hal. rewrite <- Hcs in Hal.
  assert (Hflush : flush_pending exactPad st0 = flush_pending false st0).
  { destruct exactPad; [|reflexivity].
    unfold flush_pending in *.
    destruct (nextEncoded st0 =? 0); [reflexivity|].
    cbn [andb negb] in *.
    cbn [write_group enc_compressedSize] in Hal.
    assert (Hnn : 0 <= enc_compressedSize st0 + 1 + nextEncoded st0).
    { cbn [write_group enc_compressedSize] in Hcs. lia. }
    assert (Hrem : Z.rem (to_int (enc_compressedSize st0 + nextEncoded st0 + 1)) 16 = 0).
    { apply to_int_rem16. rewrite Z.rem_mod_nonneg by lia.
      replace (enc_compressedSize st0 + nextEncoded st0 + 1)
        with (enc_compressedSize st0 + 1 + nextEncoded st0) by lia.
      exact Hal. }
    rewrite Hrem. reflexivity. }
  rewrite Hflush.
  assert (Hblocks : (if exactPad then exact_blocks (flush_pending false st0)
                     else flush_pending false st0) = flush_pending false st0).
  { destruct exactPad; [|reflexivity].
    apply exact_blocks_aligned; [lia | exact Hal]. }
  rewrite Hblocks.
  destruct dontPad; cbn [negb]; [reflexivity|].
  rewrite plain_pad_aligned; [reflexivity|].
  rewrite Z.rem_mod_nonneg by lia. exact Hal.
Qed.

Lemma aligned_stream_is_not_padded_witness :
  EncodeLZSS [x00; x01; x02; x03; x04; x05; x06; x07; x08; x09; x0a; x0b;
              x0c; x0d] false true
  = EncodeLZSS [x00; x01; x02; x03; x04; x05; x06; x07; x08; x09; x0a; x0b;
                x0c; x0d] true false.
Proof.
  apply (aligned_stream_is_not_padded
           [x00; x01; x02; x03; x04; x05; x06; x07; x08; x09; x0a; x0b;
            x0c; x0d] false true).
  vm_compute. reflexivity.
Defined.

(* ===================================================================== *)
(** * The encoder: the size of the unpadded stream *)
(* ===================================================================== *)

Lemma wire_le_token_len (B : list byte) (p : Z) :
  let t := choose_token B p in
  1 <= token_len t /\ Z.of_nat (length (wire t)) <= token_len t.
Proof.
  cbv zeta. destruct (choose_token B p) as [b|d l] eqn:Et; cbn.
  - lia.
  - apply choose_token_match in Et. unfold MAX_LENGTH in Et. lia.
Qed.

Lemma encode_iter_size (B : list byte) (st : enc_state) (k : nat) :
  enc_size_inv st k ->
  exists k', enc_size_inv (encode_iter B st) k'.
Proof.
  intros (Hk & Hpos & Hcs & Hz & Hsize).
  unfold encode_iter.
  destruct (wire_le_token_len B (enc_inputPos st)) as [H1 Hw].
  cbv zeta in H1, Hw.
  set (t := choose_token B (enc_inputPos st)) in *.
  destruct (emit_token_push t st) as (_ & Hdata & Hfp & Hip & Hcs' & Hout).
  set (st1 := emit_token t st) in *.
  assert (Hne : nextEncoded st1 = nextEncoded st + Z.of_nat (length (wire t))).
  { unfold nextEncoded. rewrite Hdata. cbn [push_token enc_encodedData].
    rewrite length_app. lia. }
  assert (Hne0 : 0 <= nextEncoded st) by (unfold nextEncoded; lia).
  assert (Hw1 : 1 <= Z.of_nat (length (wire t))) by (destruct t; cbn; lia).
  unfold advance_group. rewrite Hfp, Hpos.
  destruct (Z.eqb_spec (flag_pos_of k) 1) as [E|E].
  - apply flag_pos_of_one in E; [|lia].
    exists O. unfold enc_size_inv, nextEncoded.
    cbn [enc_flagPos enc_compressedSize enc_outFile enc_encodedData enc_inputPos
         write_group length].
    split; [lia|]. split; [reflexivity|].
    split.
    { rewrite length_app. cbn [length]. rewrite Hcs', Hout, Hcs.
      unfold nextEncoded. lia. }
    split; [reflexivity|].
    fold (nextEncoded st1). rewrite Hcs', Hne, Hip. subst k.
    change (Z.of_nat 7) with 7 in Hsize. change (Z.of_nat 0) with 0. lia.
  - exists (S k).
    assert (Hk7 : k <> 7%nat).
    { intros ->. apply E. reflexivity. }
    unfold enc_size_inv, nextEncoded.
    cbn [enc_flagPos enc_compressedSize enc_outFile enc_encodedData enc_inputPos].
    split; [lia|]. split; [apply flag_pos_of_shift; lia|].
    split; [rewrite Hcs', Hout; exact Hcs|].
    split; [discriminate|].
    fold (nextEncoded st1). rewrite Hcs', Hne, Hip. lia.
Qed.

Lemma encode_loop_size (B : list byte) (fuel : nat) :
  forall (st : enc_state) (k : nat),
  enc_size_inv st k ->
  exists k', enc_size_inv (encode_loop B fuel st) k'.
Proof.
  induction fuel as [|fuel IH]; intros st k Hinv; cbn [encode_loop].
  - exists k. exact Hinv.
  - destruct (enc_inputPos st <? Z.of_nat (length B)).
    + destruct (encode_iter_size B st k Hinv) as (k1 & H1).
      exact (IH _ k1 H1).
    + exists k. exact Hinv.
Qed.

(** X4.  The unpadded stream is never more than one eighth longer than the
    input, rounded up: one flag bit per token, and no token takes more bytes
    than it stands for. *)
Theorem unpadded_size_bound (B : list byte) :
  8 * Z.of_nat (length (EncodeLZSS B true false))
  <= 9 * Z.of_nat (length B) + 7.
Proof.
  unfold EncodeLZSS.
  destruct (Z.of_nat (length B) <=? 0); [cbn; lia|].
  cbn [negb].
  destruct (encode_loop_size B (length B) enc_init O) as (k & Hinv).
  { unfold enc_size_inv, enc_init, nextEncoded. cbn.
    split; [lia|]. split; [reflexivity|]. split; [reflexivity|].
    split; [reflexivity|]. lia. }
  rewrite <- (encode_loop_exits B).
  set (st0 := encode_loop B (length B) enc_init) in *.
  destruct Hinv as (Hk & _ & Hcs & Hz & Hsize).
  unfold flush_pending.
  destruct (Z.eqb_spec (nextEncoded st0) 0) as [E|E].
  - rewrite <- Hcs. lia.
  - cbn [andb write_group enc_outFile].
    rewrite length_app. cbn [length].
    assert (k <> O) by (intros ->; apply E, Hz; reflexivity).
    unfold nextEncoded in Hsize. lia.
Qed.

(* ===================================================================== *)
(** * The encoder: what a chosen token stands for *)
(* ===================================================================== *)

(** X5.  The token chosen at a position of the input reproduces the input from
    there: a literal is the byte at the position; a match lies within the
    bytes already consumed, does not run past the end of the input, and its
    source bytes are equal to the bytes it stands for. *)
Theorem chosen_token_reproduces_input (B : list byte) (p : Z) :
  0 <= p < Z.of_nat (length B) ->
  match choose_token B p with
  | Literal b => B !! Z.to_nat p = Some b
  | Match d l =>
      d <= p /\ p + l <= Z.of_nat (length B)
      /\ forall i, 0 <= i < l ->
           B !! Z.to_nat (p + i) = B !! Z.to_nat (p - d + i)
  end.
Proof.
  intros Hp. destruct (choose_token B p) as [b|d l] eqn:Et.
  - apply choose_token_literal in Et. subst b. unfold inputData_at.
    destruct (lookup_lt_is_Some_2 B (Z.to_nat p)) as [c Hc]; [lia|].
    rewrite Hc. reflexivity.
  - apply choose_token_match in Et. destruct Et as (Hl & Hd & Hcount).
    pose proof (search_limit_bounds p) as [_ Hlim].
    pose proof (match_count_le B p d) as Hle.
    pose proof (max_check_bounds B p d) as [_ Hrem].
    split; [lia|]. split; [lia|].
    intros i Hi. apply inputData_at_lookup; [lia | lia |].
    apply match_count_bytes. lia.
Qed.

Lemma chosen_token_reproduces_input_witness :
  0 <= 3 < Z.of_nat (length [x41; x42; x43; x41; x42; x43])
  /\ match choose_token [x41; x42; x43; x41; x42; x43] 3 with
     | Literal b => [x41; x42; x43; x41; x42; x43] !! Z.to_nat 3 = Some b
     | Match d l =>
         d <= 3 /\ 3 + l <= Z.of_nat (length [x41; x42; x43; x41; x42; x43])
         /\ forall i, 0 <= i < l ->
              [x41; x42; x43; x41; x42; x43] !! Z.to_nat (3 + i)
              = [x41; x42; x43; x41; x42; x43] !! Z.to_nat (3 - d + i)
     end.
Proof.
  split; [simpl; lia|].
  apply (chosen_token_reproduces_input [x41; x42; x43; x41; x42; x43] 3).
  simpl; lia.
Defined.

(* ===================================================================== *)
(** * The encoder: the main loop ends at the end of the input *)
(* ===================================================================== *)

Lemma encode_loop_done (B : list byte) (fuel : nat) (st : enc_state) :
  Z.of_nat (length B) <= enc_inputPos st -> encode_loop B fuel st = st.
Proof.
  intros H. destruct fuel as [|fuel]; [reflexivity|].
  cbn [encode_loop].
  destruct (Z.ltb_spec (enc_inputPos st) (Z.of_nat (length B))); [lia|reflexivity].
Qed.

Lemma encode_loop_add (B : list byte) (n m : nat) :
  forall st, encode_loop B (n + m) st = encode_loop B m (encode_loop B n st).
Proof.
  induction n as [|n IH]; intros st; [reflexivity|].
  cbn [Nat.add encode_loop].
  destruct (Z.ltb_spec (enc_inputPos st) (Z.of_nat (length B))) as [H|H].
  - apply IH.
  - symmetry. apply encode_loop_done. lia.
Qed.

(** X6.  The main loop stops by its own condition with [inputPos] equal to
    [inputSize]: no token runs past the end of the input, and as many
    iterations as there are input bytes are enough; further ones would
    change nothing. *)
Theorem main_loop_ends_at_input_size (B : list byte) (fuel : nat) :
  (length B <= fuel)%nat ->
  encode_loop B fuel enc_init = encode_loop B (length B) enc_init
  /\ enc_inputPos (encode_loop B fuel enc_init) = Z.of_nat (length B).
Proof.
  intros Hfuel.
  assert (E : encode_loop B fuel enc_init = encode_loop B (length B) enc_init).
  { replace fuel with (length B + (fuel - length B))%nat by lia.
    rewrite encode_loop_add. apply encode_loop_done.
    rewrite encode_loop_exits. lia. }
  split; [exact E|]. rewrite E. apply encode_loop_exits.
Qed.

Lemma main_loop_ends_at_input_size_witness :
  (length [x41; x41; x41; x41; x41; x41; x41] <= 9)%nat
  /\ encode_loop [x41; x41; x41; x41; x41; x41; x41] 9 enc_init
     = encode_loop [x41; x41; x41; x41; x41; x41; x41]
         (length [x41; x41; x41; x41; x41; x41; x41]) enc_init
  /\ enc_inputPos (encode_loop [x41; x41; x41; x41; x41; x41; x41] 9 enc_init)
     = Z.of_nat (length [x41; x41; x41; x41; x41; x41; x41]).
Proof.
  split; [simpl; lia|].
  apply (main_loop_ends_at_input_size [x41; x41; x41; x41; x41; x41; x41] 9).
  simpl; lia.
Defined.

(* ===================================================================== *)
(** * The encoder: the framing of the unpadded stream *)
(* ===================================================================== *)

(** X7.  The unpadded stream is a sequence of flag groups: each is a flag byte
    followed by the bytes of exactly eight tokens, except for a possible
    last group of one to seven tokens, whose unused flag bits are zero.
    Bit [7 - j] of a flag byte tells whether token [j] of the group is a
    match, and the tokens together stand for the input. *)
Theorem unpadded_stream_framing (B : list byte) :
  exists (gs : list group) (fin : option group),
    EncodeLZSS B true false = groups_bytes gs ++ fin_bytes fin
    /\ Forall full_group gs
    /\ match fin with
       | Some g =>
           group_wf g /\ (1 <= length (snd g) < 8)%nat /\ tail_clear g
       | None => True
       end
    /\ tokens_ok [] (groups_tokens gs ++ fin_tokens fin)
    /\ expand [] (groups_tokens gs ++ fin_tokens fin) = B.
Proof.
  unfold EncodeLZSS.
  destruct (Z.leb_spec (Z.of_nat (length B)) 0) as [He|He].
  - exists [], None. destruct B; [|cbn in He; lia].
    cbn. split; [reflexivity|]. split; [constructor|]. auto.
  - cbn [negb].
    destruct (encode_loop_state B) as (gs & g & Hinv & Hlt & Hpos).
    destruct (flush_pending_shape B false _ gs g Hinv Hlt Hpos)
      as (gs' & fin & (Hs & Hfull & Hfin & Hok & Hexp) & Hz & _).
    exists gs', fin.
    split; [exact Hs|]. split; [exact Hfull|].
    split; [|split; [exact Hok | exact Hexp]].
    destruct fin as [g'|]; [|exact I].
    destruct Hfin as [Hwf Hlen]. destruct Hz as [Htail Hne].
    split; [exact Hwf|]. split; [|exact Htail].
    destruct (snd g'); [contradiction|]. cbn in *. lia.
Qed.

(* ===================================================================== *)
(** * The decoder: properties of every run *)
(* ===================================================================== *)

Lemma decode_iter_break_inv (st st' : dec_state) (why : break_at) :
  decode_iter st = Break why st' -> dec_inv st -> dec_inv st'.
Proof.
  unfold decode_iter. intros H Hinv.
  destruct (next_flags st) as [st1|] eqn:Hnf.
  - pose proof (next_flags_inv _ _ Hnf Hinv) as Hinv1.
    pose proof (decode_token_inv st1 Hinv1) as Htok.
    unfold decode_token in H.
    destruct (Z.land (dec_flags st1) 128 =? 0).
    + destruct (dec_inFile st1) as [|c rest].
      * injection H as _ <-. exact Hinv1.
      * destruct (array_write _ _ _); discriminate.
    + destruct (dec_inFile st1) as [|b0 [|b1 rest]].
      * injection H as _ <-. exact Hinv1.
      * injection H as _ <-. exact Hinv1.
      * destruct (copy_from_window _ _ _ _ _ _ _) as [[la' out']|];
          [|discriminate].
        destruct (copy_to_window _ _ _ _ _); discriminate.
  - injection H as _ <-. exact Hinv.
Qed.

(** A property of decoder states that every iteration keeps holds for the
    state in which a run ends. *)
Lemma decode_loop_keeps (Inv : dec_state -> Prop) :
  (forall st, dec_inv st -> Inv st ->
     match decode_iter st with
     | Next st' | Break _ st' => Inv st'
     | OutOfBounds => True
     end) ->
  forall (fuel : nat) (st st' : dec_state) (why : break_at),
  dec_inv st -> Inv st ->
  decode_loop fuel st = Finished why st' -> Inv st'.
Proof.
  intros Hstep. induction fuel as [|fuel IH]; intros st st' why Hinv HI Hrun;
    [discriminate|].
  cbn [decode_loop] in Hrun.
  pose proof (Hstep st Hinv HI) as Hs.
  pose proof (decode_iter_inv st Hinv) as Hit.
  destruct (decode_iter st) as [st1|why1 st1|]; [| |discriminate].
  - exact (IH st1 st' why (proj1 Hit) Hs Hrun).
  - injection Hrun as _ <-. exact Hs.
Qed.

(** X8.  When the decoder returns, the sliding window holds the last 1023 bytes
    it has written, byte [p] of the output at index [p mod 1023], and
    [nextChar] is the output length modulo 1023. *)
Theorem window_holds_recent_output (inFile : list byte) :
  exists (why : break_at) (st : dec_state),
    DecodeLZSS inFile = Finished why st
    /\ dec_nextChar st = Z.of_nat (length (dec_outFile st)) mod WINDOW_SIZE
    /\ forall p : nat,
         (p < length (dec_outFile st))%nat ->
         Z.of_nat (length (dec_outFile st)) <= Z.of_nat p + WINDOW_SIZE ->
         dec_slidingWindow st !! Z.to_nat (Z.of_nat p mod WINDOW_SIZE)
         = dec_outFile st !! p.
Proof.
  destruct (DecodeLZSS_finishes inFile) as (why & st & Hrun & _).
  exists why, st. split; [exact Hrun|].
  assert (Hinv : dec_inv st).
  { apply (decode_loop_keeps dec_inv) with (3 := dec_inv_init inFile) (4 := Hrun).
    - intros st0 Hinv0 _. pose proof (decode_iter_inv st0 Hinv0) as Hit.
      destruct (decode_iter st0) as [st1|why1 st1|] eqn:E; [apply Hit | | exact I].
      exact (decode_iter_break_inv _ _ _ E Hinv0).
    - apply dec_inv_init. }
  destruct Hinv as (_ & _ & Hnc & Hwin). split; [exact Hnc | exact Hwin].
Qed.

Lemma decode_iter_growth (st : dec_state) :
  dec_inv st ->
  match decode_iter st with
  | Next st' | Break _ st' =>
      2 * Z.of_nat (length (dec_outFile st'))
      + 63 * Z.of_nat (length (dec_inFile st'))
      <= 2 * Z.of_nat (length (dec_outFile st))
         + 63 * Z.of_nat (length (dec_inFile st))
  | OutOfBounds => True
  end.
Proof.
  intros Hinv.
  destruct (decode_iter st) as [st'|why st'|] eqn:E; [| |exact I].
  - unfold decode_iter in E.
    destruct (next_flags st) as [st1|] eqn:Hnf; [|discriminate].
    pose proof (next_flags_inv _ _ Hnf Hinv) as Hinv1.
    apply next_flags_spec in Hnf. destruct Hnf as (_ & _ & _ & Eout & Hlen & _).
    rewrite <- Eout.
    enough (2 * Z.of_nat (length (dec_outFile st'))
            + 63 * Z.of_nat (length (dec_inFile st'))
            <= 2 * Z.of_nat (length (dec_outFile st1))
               + 63 * Z.of_nat (length (dec_inFile st1))) by lia.
    clear Hlen Eout Hinv st.
    destruct (Z.eq_dec (Z.land (dec_flags st1) 128) 0) as [Hbit|Hbit].
    + destruct (dec_inFile st1) as [|c rest] eqn:Hin.
      * unfold decode_token in E. rewrite Hbit, Hin in E. discriminate.
      * destruct (decode_token_literal st1 c rest Hinv1 Hbit Hin) as (w' & E' & _).
        rewrite E' in E. injection E as <-. cbn.
        rewrite length_app. cbn. lia.
    + destruct (dec_inFile st1) as [|b0 [|b1 rest]] eqn:Hin.
      * unfold decode_token in E. rewrite Hin in E.
        destruct (Z.eqb_spec (Z.land (dec_flags st1) 128) 0);
          [contradiction | discriminate].
      * unfold decode_token in E. rewrite Hin in E.
        destruct (Z.eqb_spec (Z.land (dec_flags st1) 128) 0);
          [contradiction | discriminate].
      * destruct (decode_token_match st1 b0 b1 rest Hinv1 Hbit Hin)
          as (w' & la' & cs & E' & _ & Hcs & _).
        rewrite E' in E. injection E as <-. cbn.
        rewrite length_app.
        pose proof (unpack_length_range b0) as Hr.
        lia.
  - apply decode_iter_break in E. destruct E as [-> ->]. cbn. lia.
Qed.

(** X9.  The decoder writes at most 63 bytes for every two bytes it reads: the
    output is never longer than 31.5 times the input. *)
Theorem decoded_size_bound (inFile : list byte) :
  exists out : list byte,
    decoded (DecodeLZSS inFile) = Some out
    /\ 2 * Z.of_nat (length out) <= 63 * Z.of_nat (length inFile).
Proof.
  destruct (DecodeLZSS_finishes inFile) as (why & st & Hrun & Hin).
  exists (dec_outFile st). rewrite Hrun. split; [reflexivity|].
  pose (Inv := fun st : dec_state =>
    2 * Z.of_nat (length (dec_outFile st))
    + 63 * Z.of_nat (length (dec_inFile st))
    <= 63 * Z.of_nat (length inFile)).
  assert (H : Inv st).
  { apply (decode_loop_keeps Inv) with (2 := dec_inv_init inFile) (4 := Hrun).
    - intros st0 Hinv0 H0. pose proof (decode_iter_growth st0 Hinv0) as Hg.
      unfold Inv in *. destruct (decode_iter st0); [lia | lia | exact I].
    - unfold Inv. cbn. lia. }
  unfold Inv in H. lia.
Qed.

Section Provenance.

Variable P : byte -> Prop.

Lemma copy_from_window_keeps (n : nat) :
  forall (i nextChar code_offset : Z) (w la out la' out' : list byte),
  0 <= i ->
  Forall P w -> Forall P out ->
  (forall (k : nat) c, (k < Z.to_nat i)%nat -> la !! k = Some c -> P c) ->
  copy_from_window n i nextChar code_offset w la out = Some (la', out') ->
  Forall P out'
  /\ forall (k : nat) c, (k < Z.to_nat i + n)%nat -> la' !! k = Some c -> P c.
Proof.
  induction n as [|n IH]; intros i nextChar code_offset w la out la' out'
    Hi Hw Hout Hla Hrun.
  - cbn in Hrun. injection Hrun as <- <-. split; [exact Hout|].
    intros k c Hk. apply Hla. lia.
  - cbn [copy_from_window] in Hrun.
    destruct (array_read w _) as [c|] eqn:Hrd; [|discriminate].
    cbn in Hrun.
    destruct (array_write la i c) as [la1|] eqn:Hwr; [|discriminate].
    cbn in Hrun.
    apply array_read_Some in Hrd. destruct Hrd as [_ Hrd].
    pose proof (Forall_lookup_1 _ _ _ _ Hw Hrd) as Hc.
    unfold array_write in Hwr.
    destruct ((0 <=? i) && (i <? Z.of_nat (length la))) eqn:Hb; [|discriminate].
    injection Hwr as <-.
    apply andb_true_iff in Hb. destruct Hb as [_ Hb]. apply Z.ltb_lt in Hb.
    destruct (IH (i + 1) nextChar code_offset w (<[Z.to_nat i:=c]> la)
                (out ++ [c]) la' out' ltac:(lia) Hw) as [Ho Hl];
      [ | | exact Hrun | ].
    + apply Forall_app. split; [exact Hout|]. constructor; [exact Hc|constructor].
    + intros k c' Hk Hlk.
      destruct (Nat.eq_dec k (Z.to_nat i)) as [->|Hne].
      * rewrite list_lookup_insert_eq in Hlk by lia. congruence.
      * rewrite list_lookup_insert_ne in Hlk by lia. apply (Hla k); [lia|exact Hlk].
    + split; [exact Ho|]. intros k c' Hk. apply Hl. lia.
Qed.

Lemma copy_to_window_keeps (n : nat) :
  forall (i nextChar : Z) (w la w' : list byte),
  0 <= i ->
  Forall P w ->
  (forall (k : nat) c, (k < Z.to_nat i + n)%nat -> la !! k = Some c -> P c) ->
  copy_to_window n i nextChar w la = Some w' ->
  Forall P w'.
Proof.
  induction n as [|n IH]; intros i nextChar w la w' Hi Hw Hla Hrun.
  - cbn in Hrun. injection Hrun as <-. exact Hw.
  - cbn [copy_to_window] in Hrun.
    destruct (array_read la i) as [c|] eqn:Hrd; [|discriminate].
    cbn in Hrun.
    destruct (array_write w _ c) as [w1|] eqn:Hwr; [|discriminate].
    cbn in Hrun.
    apply array_read_Some in Hrd. destruct Hrd as [_ Hrd].
    assert (Hc : P c) by (apply (Hla (Z.to_nat i)); [lia | exact Hrd]).
    unfold array_write in Hwr.
    destruct (_ && _); [|discriminate]. injection Hwr as <-.
    apply (IH (i + 1) nextChar
             (<[Z.to_nat (Z.rem (nextChar + i) WINDOW_SIZE):=c]> w) la w');
      [lia | | | exact Hrun].
    + apply Forall_insert; assumption.
    + intros k c' Hk. apply Hla. lia.
Qed.

Lemma decode_iter_keeps (st : dec_state) :
  Forall P (dec_slidingWindow st) -> Forall P (dec_outFile st) ->
  Forall P (dec_inFile st) ->
  match decode_iter st with
  | Next st' | Break _ st' =>
      Forall P (dec_slidingWindow st') /\ Forall P (dec_outFile st')
      /\ Forall P (dec_inFile st')
  | OutOfBounds => True
  end.
Proof.
  intros Hw Hout Hin. unfold decode_iter.
  destruct (next_flags st) as [st1|] eqn:Hnf;
    [|cbn; split; [|split]; assumption].
  assert (H1 : Forall P (dec_slidingWindow st1) /\ Forall P (dec_outFile st1)
               /\ Forall P (dec_inFile st1)).
  { rewrite next_flags_unfold in Hnf.
    destruct (uchar (dec_flagsUsed st + 1) =? 8).
    - destruct (dec_inFile st) as [|c rest]; [discriminate|].
      injection Hnf as <-. cbn. inversion Hin; subst. auto.
    - injection Hnf as <-. cbn. auto. }
  clear Hw Hout Hin Hnf. destruct H1 as (Hw & Hout & Hin).
  unfold decode_token.
  destruct (Z.land (dec_flags st1) 128 =? 0).
  - destruct (dec_inFile st1) as [|c rest] eqn:Ein;
      [cbn; rewrite Ein; split; [|split]; assumption|].
    inversion Hin; subst.
    unfold array_write. destruct (_ && _); [|exact I]. cbn.
    split; [apply Forall_insert; assumption|].
    split; [|assumption].
    apply Forall_app. split; [exact Hout|]. constructor; [assumption|constructor].
  - destruct (dec_inFile st1) as [|b0 [|b1 rest]] eqn:Ein;
      [cbn; rewrite Ein; split; [|split]; assumption | |].
    + cbn. split; [exact Hw|]. split; [exact Hout|]. constructor.
    + inversion Hin as [|? ? _ Hin1]; subst. inversion Hin1 as [|? ? _ Hrest]; subst.
      destruct (copy_from_window _ _ _ _ _ _ _) as [[la' out']|] eqn:Hcf;
        [|exact I].
      destruct (copy_to_window _ _ _ _ _) as [w'|] eqn:Hct; [|exact I].
      cbn.
      pose proof (copy_from_window_keeps _ _ _ _ _ _ _ _ _ (Z.le_refl 0) Hw Hout
                    (fun (k : nat) c (Hk : (k < Z.to_nat 0)%nat) _ =>
                       False_ind (P c) (Nat.nlt_0_r k Hk)) Hcf) as [Ho Hl].
      split; [|split; [exact Ho | exact Hrest]].
      exact (copy_to_window_keeps _ _ _ _ _ _ (Z.le_refl 0) Hw Hl Hct).
Qed.

End Provenance.

(** X10.  Every byte the decoder writes is a byte of its input or the value
    0x11 with which the window is primed: nothing is taken from the staging
    buffer that it has not put there itself. *)
Theorem decoded_bytes_come_from_input (inFile : list byte) :
  exists out : list byte,
    decoded (DecodeLZSS inFile) = Some out
    /\ Forall (fun b => b = x11 \/ In b inFile) out.
Proof.
  destruct (DecodeLZSS_finishes inFile) as (why & st & Hrun & _).
  exists (dec_outFile st). rewrite Hrun. split; [reflexivity|].
  pose (P := fun b : byte => b = x11 \/ In b inFile).
  pose (Inv := fun st : dec_state =>
    Forall P (dec_slidingWindow st) /\ Forall P (dec_outFile st)
    /\ Forall P (dec_inFile st)).
  assert (H : Inv st).
  { apply (decode_loop_keeps Inv) with (2 := dec_inv_init inFile) (4 := Hrun).
    - intros st0 _ (Hw & Hout & Hin).
      exact (decode_iter_keeps P st0 Hw Hout Hin).
    - unfold Inv, dec_init. cbn [dec_slidingWindow dec_outFile dec_inFile].
      split; [|split; [constructor|]].
      + apply Forall_forall. intros b Hb. apply elem_of_replicate in Hb.
        left. apply Hb.
      + apply Forall_forall. intros b Hb. right.
        apply list_elem_of_In. exact Hb. }
  apply H.
Qed.

(* ===================================================================== *)
(** * The decoder: streams of well-formed groups *)
(* ===================================================================== *)

(** X11.  The decoder is correct on every well-formed stream, whoever wrote it:
    when the stream consists of flag groups of eight tokens and a possible
    shorter last group, and every match has a length of at most 63 and a
    distance that is at least its length, at most 1023 and at most the
    number of bytes decoded before it, then the output is what the tokens
    stand for. *)
Theorem well_formed_stream_decodes (gs : list group) (fin : option group) :
  Forall full_group gs ->
  match fin with
  | Some g => group_wf g /\ (length (snd g) < 8)%nat
  | None => True
  end ->
  tokens_ok [] (groups_tokens gs ++ fin_tokens fin) ->
  decoded (DecodeLZSS (groups_bytes gs ++ fin_bytes fin))
  = Some (expand [] (groups_tokens gs ++ fin_tokens fin)).
Proof.
  apply decode_stream_eof.
Qed.

Lemma well_formed_stream_decodes_witness :
  decoded (DecodeLZSS
             (groups_bytes []
              ++ fin_bytes (Some (x10, [Literal x41; Literal x42; Literal x43;
                                        Match 3 3]))))
  = Some [x41; x42; x43; x41; x42; x43].
Proof.
  apply (well_formed_stream_decodes []
           (Some (x10, [Literal x41; Literal x42; Literal x43; Match 3 3]))).
  - constructor.
  - split; [|simpl; lia]. split; [simpl; lia|].
    intros j t Hj.
    destruct j as [|[|[|[|j]]]]; simpl in Hj; try discriminate;
      injection Hj as <-; reflexivity.
  - simpl. unfold MAX_LENGTH, WINDOW_SIZE. repeat split; lia.
Defined.

(** X12.  Zero bytes after a well-formed stream decode to zero bytes only:
    when the last group is complete, or has at least one token and its
    unused flag bits clear, the output is what the tokens stand for,
    followed by zero bytes. *)
Theorem zero_bytes_decode_to_zeros (gs : list group) (fin : option group)
    (z : nat) :
  Forall full_group gs ->
  match fin with
  | Some g =>
      group_wf g /\ (length (snd g) < 8)%nat /\ tail_clear g /\ snd g <> []
  | None => True
  end ->
  tokens_ok [] (groups_tokens gs ++ fin_tokens fin) ->
  exists m : nat,
    decoded (DecodeLZSS (groups_bytes gs ++ fin_bytes fin ++ replicate z x00))
    = Some (expand [] (groups_tokens gs ++ fin_tokens fin) ++ replicate m x00).
Proof.
  apply decode_stream_zeros.
Qed.

Lemma zero_bytes_decode_to_zeros_witness :
  exists m : nat,
    decoded (DecodeLZSS (groups_bytes []
                         ++ fin_bytes (Some (x00, [Literal x41]))
                         ++ replicate 3 x00))
    = Some (expand [] (groups_tokens [] ++ fin_tokens (Some (x00, [Literal x41])))
            ++ replicate m x00).
Proof.
  apply (zero_bytes_decode_to_zeros [] (Some (x00, [Literal x41])) 3).
  - constructor.
  - split; [|split; [simpl; lia | split; [|discriminate]]].
    + split; [simpl; lia|].
      intros j t Hj. destruct j as [|j]; simpl in Hj; [|discriminate].
      injection Hj as <-. reflexivity.
    + intros i Hi. apply Z.testbit_0_l.
  - simpl. auto.
Defined.

(* ===================================================================== *)
(** * FindMatch *)
(* ===================================================================== *)

Lemma fm_max_check_bounds (uncodedTail search_offset : Z) :
  fm_max_check uncodedTail search_offset <= uncodedTail
  /\ fm_max_check uncodedTail search_offset <= MAX_CODED - 1
  /\ fm_max_check uncodedTail search_offset <= search_offset.
Proof.
  unfold fm_max_check, MAX_CODED, MAX_UNCODED.
  destruct (Z.gtb_spec uncodedTail (61 + 2 + 1 - 1));
    [destruct (Z.gtb_spec (61 + 2 + 1 - 1) search_offset)
    |destruct (Z.gtb_spec uncodedTail search_offset)]; lia.
Qed.

Section FindMatchProofs.

Variables slidingWindow uncodedLookahead : list byte.
Variables windowHead uncodedHead uncodedTail : Z.

Hypothesis window_size : Z.of_nat (length slidingWindow) = WINDOW_SIZE.
Hypothesis lookahead_size : Z.of_nat (length uncodedLookahead) = MAX_CODED.
Hypothesis windowHead_range : 0 <= windowHead < WINDOW_SIZE.
Hypothesis uncodedHead_range : 0 <= uncodedHead < MAX_CODED.

Local Abbreviation candidate search_offset :=
  (Z.rem (windowHead - search_offset + WINDOW_SIZE) WINDOW_SIZE).
Local Abbreviation matches :=
  (fm_matches slidingWindow uncodedLookahead windowHead uncodedHead).
Local Abbreviation same_at c i :=
  (slidingWindow !! Z.to_nat (Z.rem (c + i) WINDOW_SIZE)
   = uncodedLookahead !! Z.to_nat (Z.rem (uncodedHead + i) MAX_CODED)).

Lemma candidate_range (search_offset : Z) :
  search_offset <= WINDOW_SIZE ->
  0 <= candidate search_offset < WINDOW_SIZE.
Proof.
  intros H. unfold WINDOW_SIZE in *.
  pose proof (Z.rem_bound_pos (windowHead - search_offset + 1023) 1023). lia.
Qed.

Lemma fm_window_read (c i : Z) :
  0 <= c -> 0 <= i ->
  exists a, array_read slidingWindow (Z.rem (c + i) WINDOW_SIZE) = Some a
            /\ slidingWindow !! Z.to_nat (Z.rem (c + i) WINDOW_SIZE) = Some a.
Proof.
  intros Hc Hi.
  assert (Hr : 0 <= Z.rem (c + i) WINDOW_SIZE < WINDOW_SIZE).
  { unfold WINDOW_SIZE. apply Z.rem_bound_pos; lia. }
  destruct (array_read_in_bounds slidingWindow (Z.rem (c + i) WINDOW_SIZE))
    as [a Ha]; [lia|].
  exists a. split; [exact Ha|]. apply array_read_Some in Ha. apply Ha.
Qed.

Lemma fm_lookahead_read (i : Z) :
  0 <= i ->
  exists b, array_read uncodedLookahead (Z.rem (uncodedHead + i) MAX_CODED) = Some b
            /\ uncodedLookahead !! Z.to_nat (Z.rem (uncodedHead + i) MAX_CODED)
               = Some b.
Proof.
  intros Hi.
  assert (Hr : 0 <= Z.rem (uncodedHead + i) MAX_CODED < MAX_CODED).
  { unfold MAX_CODED, MAX_UNCODED in *. apply Z.rem_bound_pos; lia. }
  destruct (array_read_in_bounds uncodedLookahead
              (Z.rem (uncodedHead + i) MAX_CODED)) as [b Hb]; [lia|].
  exists b. split; [exact Hb|]. apply array_read_Some in Hb. apply Hb.
Qed.

(** The counting loop stops at the first difference or at [max_check]. *)
Lemma fm_count_spec (c : Z) (n : nat) :
  forall j : Z,
  0 <= c -> 0 <= j ->
  (forall i, 0 <= i < j -> same_at c i) ->
  exists j',
    fm_count slidingWindow uncodedLookahead c uncodedHead n j = Some j'
    /\ j <= j' <= j + Z.of_nat n
    /\ (forall i, 0 <= i < j' -> same_at c i)
    /\ (j' < j + Z.of_nat n -> ~ same_at c j').
Proof.
  induction n as [|n IH]; intros j Hc Hj Hsame.
  - exists j. cbn [fm_count]. split; [reflexivity|]. split; [lia|].
    split; [exact Hsame|]. lia.
  - cbn [fm_count].
    destruct (fm_window_read c j Hc Hj) as (a & Ha & Ha').
    destruct (fm_lookahead_read j Hj) as (b & Hb & Hb').
    rewrite Ha. cbn. rewrite Hb. cbn.
    destruct (Byte.eqb a b) eqn:E; cbn [negb].
    + apply byte_eqb_eq in E. subst b.
      destruct (IH (j + 1) Hc ltac:(lia)) as (j' & Hrun & Hr & Hs & Hstop).
      { intros i Hi. destruct (Z.eq_dec i j) as [->|Hne].
        - rewrite Ha', Hb'. reflexivity.
        - apply Hsame. lia. }
      exists j'. split; [exact Hrun|]. split; [lia|]. split; [exact Hs|].
      intros Hlt. apply Hstop. lia.
    + exists j. split; [reflexivity|]. split; [lia|]. split; [exact Hsame|].
      intros _. rewrite Ha', Hb'. intros [= ->].
      rewrite (proj2 (byte_eqb_eq b b) eq_refl) in E. discriminate.
Qed.

Lemma fm_reads (c i : Z) :
  0 <= c -> 0 <= i ->
  exists a b,
    array_read slidingWindow (Z.rem (c + i) WINDOW_SIZE) = Some a
    /\ array_read uncodedLookahead (Z.rem (uncodedHead + i) MAX_CODED) = Some b
    /\ (same_at c i <-> a = b).
Proof.
  intros Hc Hi.
  destruct (fm_window_read c i Hc Hi) as (a & Ha & Ha').
  destruct (fm_lookahead_read i Hi) as (b & Hb & Hb').
  exists a, b. split; [exact Ha|]. split; [exact Hb|].
  rewrite Ha', Hb'. split; [intros [= ->]; reflexivity | intros ->; reflexivity].
Qed.

Local Abbreviation best :=
  (fm_best slidingWindow uncodedLookahead windowHead uncodedHead uncodedTail).

(** The scan keeps the best match among the distances it has gone through,
    and stops early only with a match of the full 63 bytes. *)
Lemma find_match_loop_spec (n : nat) :
  forall (search_offset : Z) (matchData : encoded_string_t),
  3 <= search_offset ->
  search_offset + Z.of_nat n = WINDOW_SIZE + 1 ->
  best search_offset matchData ->
  es_length matchData < MAX_CODED - 1 ->
  exists matchData',
    find_match_loop slidingWindow uncodedLookahead
      windowHead uncodedHead uncodedTail n search_offset matchData
    = Some matchData'
    /\ best (WINDOW_SIZE + 1) matchData'.
Proof.
  induction n as [|n IH]; intros so md Hso Hn Hbest Hlen.
  - exists md. cbn [find_match_loop]. split; [reflexivity|].
    replace (WINDOW_SIZE + 1) with so by lia. exact Hbest.
  - cbn [find_match_loop].
    pose proof (candidate_range so ltac:(lia)) as Hc.
    set (c := Z.rem (windowHead - so + WINDOW_SIZE) WINDOW_SIZE) in *.
    destruct Hbest as [Hshape Hmax].
    assert (Hlen2 : 2 <= es_length md) by (destruct Hshape as [[-> _]|[? _]]; lia).
    assert (Hoff : 3 <= es_length md -> es_offset md < so).
    { destruct Hshape as [[-> _]|(_ & ? & _)]; lia. }
    (* what remains to be shown once distance [so] is known not to beat
       [md] *)
    assert (Hskip : (forall k, 3 <= k <= fm_max_check uncodedTail so ->
                               matches so k -> k <= es_length md) ->
                    best (so + 1) md).
    { intros Hno. split.
      - destruct Hshape as [H|(H1 & H2 & H3 & H4)]; [left; exact H|right].
        split; [exact H1|]. split; [lia|]. split; [exact H3 | exact H4].
      - intros so' k Hso' Hk Hm.
        destruct (Z.eq_dec so' so) as [->|Hne].
        + pose proof (Hno k Hk Hm). split; [lia|]. intros ->. lia.
        + apply Hmax; [lia | exact Hk | exact Hm]. }
    destruct (fm_reads c 0 ltac:(lia) ltac:(lia)) as (a & b & Ha & Hb & Hab).
    rewrite Z.add_0_r in Ha, Hb, Hab.
    assert (Ec : Z.rem c WINDOW_SIZE = c) by (apply Z.rem_small; lia).
    rewrite Ec in Ha.
    rewrite Ha. cbn. rewrite Hb. cbn.
    destruct (Byte.eqb a b) eqn:E0; cbn [negb].
    2:{ (* first byte differs *)
      apply (IH (so + 1) md); [lia | lia | | exact Hlen].
      apply Hskip. intros k Hk Hm. exfalso.
      pose proof (Hm 0 ltac:(lia)) as H0. rewrite Z.add_0_r in H0.
      apply Hab in H0. subst b.
      rewrite (proj2 (byte_eqb_eq a a) eq_refl) in E0. discriminate. }
    assert (Hrej : exists rejected : bool,
      (if es_length md <? uncodedTail
       then
         a' ← array_read slidingWindow (Z.rem (c + es_length md) WINDOW_SIZE);
         b' ← array_read uncodedLookahead
                (Z.rem (uncodedHead + es_length md) MAX_CODED);
         Some (negb (Byte.eqb a' b'))
       else Some false) = Some rejected
      /\ (rejected = true ->
          es_length md < uncodedTail /\ ~ same_at c (es_length md))).
    { destruct (Z.ltb_spec (es_length md) uncodedTail) as [Hlt|Hge].
      - destruct (fm_reads c (es_length md) ltac:(lia) ltac:(lia))
          as (a' & b' & Ha' & Hb' & Hab').
        rewrite Ha'. cbn. rewrite Hb'. cbn.
        eexists. split; [reflexivity|].
        intros Hneg. split; [exact Hlt|]. intros Hs. apply Hab' in Hs. subst b'.
        rewrite (proj2 (byte_eqb_eq a' a') eq_refl) in Hneg. discriminate.
      - exists false. split; [reflexivity|]. discriminate. }
    destruct Hrej as (rejected & -> & Hrej). cbn.
    destruct rejected.
    { (* the byte at the current best length differs *)
      destruct (Hrej eq_refl) as [Hlt Hdiff].
      apply (IH (so + 1) md); [lia | lia | | exact Hlen].
      apply Hskip. intros k Hk Hm.
      destruct (Z.le_gt_cases k (es_length md)) as [Hle|Hgt]; [exact Hle|].
      exfalso. apply Hdiff. apply (Hm (es_length md)). lia. }
    destruct (fm_count_spec c (Z.to_nat (fm_max_check uncodedTail so)) 0
                ltac:(lia) ltac:(lia)) as (j & Hrun & Hj & Hsame & Hstop).
    { intros i Hi. lia. }
    rewrite Hrun. cbn.
    pose proof (fm_max_check_bounds uncodedTail so) as (Hmc1 & Hmc2 & Hmc3).
    assert (Hjmax : forall k, 3 <= k <= fm_max_check uncodedTail so ->
                              matches so k -> k <= j).
    { intros k Hk Hm.
      destruct (Z.le_gt_cases k j) as [Hle|Hgt]; [exact Hle|].
      exfalso. apply Hstop; [lia|]. apply (Hm j). lia. }
    destruct (Z.gtb_spec j (es_length md)) as [Hbetter|Hworse].
    + assert (Hnew : forall limit, so < limit ->
                (forall so' k, so < so' < limit ->
                   3 <= k <= fm_max_check uncodedTail so' -> k <= j) ->
                best limit (mk_encoded_string so j)).
      { intros limit Hlim Hrest. split.
        - right. cbn [es_length es_offset].
          split; [lia|]. split; [lia|]. split; [lia|]. exact Hsame.
        - intros so' k Hso' Hk Hm. cbn [es_length es_offset].
          destruct (Z.lt_trichotomy so' so) as [Hlt|[->|Hgt]].
          + destruct (Hmax so' k ltac:(lia) Hk Hm) as [Hle _]. lia.
          + pose proof (Hjmax k Hk Hm). lia.
          + pose proof (Hrest so' k ltac:(lia) Hk). lia. }
      destruct (Z.geb_spec j (MAX_CODED - 1)) as [Hfull|Hnot].
      * eexists. split; [reflexivity|].
        apply Hnew; [lia|]. intros so' k _ Hk.
        pose proof (fm_max_check_bounds uncodedTail so') as (_ & H63 & _). lia.
      * apply (IH (so + 1) (mk_encoded_string so j)); [lia | lia | | exact Hnot].
        apply Hnew; [lia|]. intros so' k Hso'. lia.
    + apply (IH (so + 1) md); [lia | lia | | exact Hlen].
      apply Hskip. intros k Hk Hm. pose proof (Hjmax k Hk Hm). lia.
Qed.

Lemma FindMatch_spec :
  exists matchData,
    find_match_loop slidingWindow uncodedLookahead
      windowHead uncodedHead uncodedTail
      (Z.to_nat (WINDOW_SIZE - 2)) 3 (mk_encoded_string 0 2)
    = Some matchData
    /\ best (WINDOW_SIZE + 1) matchData
    /\ FindMatch slidingWindow uncodedLookahead
         windowHead uncodedHead uncodedTail
       = Some (if es_length matchData <=? 2 then mk_encoded_string 0 0
               else matchData).
Proof.
  destruct (find_match_loop_spec (Z.to_nat (WINDOW_SIZE - 2)) 3
              (mk_encoded_string 0 2)) as (md & Hrun & Hbest).
  - lia.
  - unfold WINDOW_SIZE. lia.
  - split; [left; split; reflexivity|]. intros so k Hso. lia.
  - unfold MAX_CODED, MAX_UNCODED. cbn. lia.
  - exists md. split; [exact Hrun|]. split; [exact Hbest|].
    unfold FindMatch. rewrite Hrun. cbn.
    destruct (es_length md <=? 2); reflexivity.
Qed.

(** X13.  With both arrays of their declared sizes and the two heads inside
    them, [FindMatch] makes no access out of bounds and returns either no
    match, as length 0 and offset 0, or a match of 3 to 63 bytes at a
    distance of 3 to 1023 that is not longer than its distance nor than
    [uncodedTail], and whose bytes in the window are equal to the first
    bytes of the lookahead. *)
Theorem FindMatch_returns_a_match :
  exists m,
    FindMatch slidingWindow uncodedLookahead windowHead uncodedHead uncodedTail
    = Some m
    /\ ((es_length m = 0 /\ es_offset m = 0)
        \/ (3 <= es_length m <= MAX_CODED - 1
            /\ 3 <= es_offset m <= WINDOW_SIZE
            /\ es_length m <= es_offset m
            /\ es_length m <= uncodedTail
            /\ matches (es_offset m) (es_length m))).
Proof.
  destruct FindMatch_spec as (md & _ & [Hshape _] & Hres).
  eexists. split; [exact Hres|].
  destruct Hshape as [[Hl Ho]|(Hl & Ho & Hmc & Hm)].
  - left. rewrite Hl. cbn. split; reflexivity.
  - right. destruct (Z.leb_spec (es_length md) 2) as [|_]; [lia|].
    pose proof (fm_max_check_bounds uncodedTail (es_offset md)) as (H1 & H2 & H3).
    split; [lia|]. split; [lia|]. split; [lia|]. split; [lia|]. exact Hm.
Qed.

(** X14.  The match that [FindMatch] returns is the longest one: when the
    first [n] bytes of the lookahead, with [n] from 3 to 63 and at most
    [uncodedTail], are found at a distance [search_offset] of at least [n],
    the returned length is at least [n]; and when it is [n], the returned
    distance is at most [search_offset]. *)
Theorem FindMatch_returns_the_longest (m : encoded_string_t)
    (search_offset n : Z) :
  FindMatch slidingWindow uncodedLookahead windowHead uncodedHead uncodedTail
  = Some m ->
  3 <= search_offset <= WINDOW_SIZE ->
  3 <= n <= MAX_CODED - 1 -> n <= uncodedTail -> n <= search_offset ->
  matches search_offset n ->
  n <= es_length m /\ (n = es_length m -> es_offset m <= search_offset).
Proof.
  destruct FindMatch_spec as (md & _ & [_ Hmax] & Hres).
  rewrite Hres. intros [= <-] Hso Hn Htail Hdist Hm.
  assert (Hk : 3 <= n <= fm_max_check uncodedTail search_offset).
  { unfold fm_max_check.
    destruct (Z.gtb_spec uncodedTail (MAX_CODED - 1));
      [destruct (Z.gtb_spec (MAX_CODED - 1) search_offset)
      |destruct (Z.gtb_spec uncodedTail search_offset)]; lia. }
  destruct (Hmax search_offset n ltac:(lia) Hk Hm) as [Hle Htie].
  destruct (Z.leb_spec (es_length md) 2) as [Hsmall|_]; [lia|].
  split; [exact Hle | exact Htie].
Qed.

End FindMatchProofs.

Lemma FindMatch_returns_a_match_witness :
  exists m,
    FindMatch (replicate (Z.to_nat WINDOW_SIZE) x41)
      (replicate (Z.to_nat MAX_CODED) x41) 5 7 10 = Some m
    /\ ((es_length m = 0 /\ es_offset m = 0)
        \/ (3 <= es_length m <= MAX_CODED - 1
            /\ 3 <= es_offset m <= WINDOW_SIZE
            /\ es_length m <= es_offset m
            /\ es_length m <= 10
            /\ fm_matches (replicate (Z.to_nat WINDOW_SIZE) x41)
                 (replicate (Z.to_nat MAX_CODED) x41) 5 7
                 (es_offset m) (es_length m))).
Proof.
  apply (FindMatch_returns_a_match (replicate (Z.to_nat WINDOW_SIZE) x41)
           (replicate (Z.to_nat MAX_CODED) x41) 5 7 10).
  - reflexivity.
  - reflexivity.
  - unfold WINDOW_SIZE. lia.
  - unfold MAX_CODED, MAX_UNCODED. lia.
Defined.

Lemma FindMatch_returns_the_longest_witness :
  3 <= es_length (mk_encoded_string 10 10)
  /\ (3 = es_length (mk_encoded_string 10 10) ->
      es_offset (mk_encoded_string 10 10) <= 4).
Proof.
  apply (FindMatch_returns_the_longest (replicate (Z.to_nat WINDOW_SIZE) x41)
           (replicate (Z.to_nat MAX_CODED) x41) 5 7 10).
  - reflexivity.
  - reflexivity.
  - unfold WINDOW_SIZE. lia.
  - unfold MAX_CODED, MAX_UNCODED. lia.
  - vm_compute. reflexivity.
  - unfold WINDOW_SIZE. lia.
  - unfold MAX_CODED, MAX_UNCODED. lia.
  - lia.
  - lia.
  - intros i Hi.
    assert (Hc : i = 0 \/ i = 1 \/ i = 2) by lia.
    destruct Hc as [->|[->| ->]]; reflexivity.
Defined.

(* ===================================================================== *)
(** * main: the command line *)
(* ===================================================================== *)


Lemma set_file_other (w : world) (file other : nat) (content : list byte) :
  other <> file ->
  w_files (set_file w file content) other = w_files w other.
Proof.
  intros H. cbn. apply Nat.eqb_neq in H. rewrite H. reflexivity.
Qed.

Lemma put_bytes_other (w : world) (f : FILE) (bytes : list byte) (file : nat) :
  f <> opened file ->
  w_files (put_bytes w f bytes) file = w_files w file.
Proof.
  intros H. destruct f as [| |n]; [reflexivity | reflexivity |].
  unfold put_bytes. apply set_file_other. intros ->. apply H. reflexivity.
Qed.

(** An option other than -o leaves the files as they are, and opens no
    output file. *)
Lemma main_option_other (opt : byte) (optarg : list byte)
    (l : main_locals) (w : world) :
  opt <> x6f ->
  match main_option opt optarg l w with
  | Parsed l' w' =>
      w' = w /\ (m_outFile l' = m_outFile l \/ m_outFile l' = Some stdout)
  | Exited _ w' => w_files w' = w_files w
  end.
Proof.
  intros Hopt.
  destruct opt; try contradiction; cbn;
    try (split; [reflexivity | auto]); try reflexivity.
  destruct (m_inFile l); [reflexivity|].
  destruct (fopen_rb w optarg); [|reflexivity].
  cbn. auto.
Qed.

Lemma main_option_plain (o : byte * list byte) (l : main_locals) (w : world) :
  plain_option o ->
  exists l',
    main_option (fst o) (snd o) l w = Parsed l' w
    /\ m_inFile l' = m_inFile l /\ m_outFile l' = m_outFile l
    /\ (m_mode l' = m_mode l \/ fst o = x63 \/ fst o = x64).
Proof.
  destruct o as [opt optarg]. intros (H1 & H2 & H3 & H4 & H5). cbn [fst snd] in *.
  destruct opt; try contradiction; cbn; eexists;
    (split; [reflexivity|]); cbn; auto.
Qed.

Lemma main_parse_plain (flags : list (byte * list byte)) :
  Forall plain_option flags ->
  forall (rest : list (byte * list byte)) (l : main_locals) (w : world),
  exists l',
    main_parse (flags ++ rest) l w = main_parse rest l' w
    /\ m_inFile l' = m_inFile l /\ m_outFile l' = m_outFile l.
Proof.
  induction 1 as [|o flags Ho _ IH]; intros rest l w.
  - exists l. auto.
  - destruct (main_option_plain o l w Ho) as (l1 & E1 & Hin1 & Hout1 & _).
    destruct (IH rest l1 w) as (l' & E' & Hin' & Hout').
    exists l'. destruct o as [opt optarg]. cbn [app main_parse fst snd] in *.
    rewrite E1. split; [exact E'|]. split; congruence.
Qed.

(** X15.  A request for the usage text, or an option that [getopt] does
    not know (it returns '?' for it), ends the program with
    [EXIT_SUCCESS] after the usage text has been written to [stdout]:
    when only options that open no file come before it, no file is opened,
    read or written, and what follows it on the command line is ignored,
    a missing input or output file included. *)
Theorem usage_exits_with_success (flags rest : list (byte * list byte))
    (opt : byte) (optarg : list byte) (w : world) :
  Forall plain_option flags ->
  opt = x68 \/ opt = x3f ->
  main (flags ++ (opt, optarg) :: rest) w
  = (EXIT_SUCCESS,
     mk_world (w_file_of w) (w_files w) (w_creatable w) (w_stdin w)
       (w_stdin_seekable w) (w_stdout w ++ usage_text)).
Proof.
  intros Hflags Hopt. unfold main.
  destruct (main_parse_plain flags Hflags ((opt, optarg) :: rest)
              (mk_locals None None ENCODE false false) w) as (l' & -> & _).
  cbn [main_parse]. destruct Hopt as [-> | ->]; reflexivity.
Qed.

Lemma usage_exits_with_success_witness :
  main ([(x64, []); (x70, [])] ++ (x3f, []) :: [(x69, [x61])])
       (mk_world (fun _ => O) (fun _ => None) (fun _ => true) [] true [])
  = (EXIT_SUCCESS,
     mk_world (fun _ => O) (fun _ => None) (fun _ => true) [] true
       ([] ++ usage_text)).
Proof.
  apply (usage_exits_with_success [(x64, []); (x70, [])] [(x69, [x61])]
           x3f []
           (mk_world (fun _ => O) (fun _ => None) (fun _ => true) [] true [])).
  - repeat constructor; discriminate.
  - right. reflexivity.
Defined.

Lemma main_parse_frame (file : nat) (opts : list (byte * list byte)) :
  forall (l : main_locals) (w : world),
  (forall optarg, In (x6f, optarg) opts -> w_file_of w optarg <> file) ->
  m_outFile l <> Some (opened file) ->
  match main_parse opts l w with
  | Parsed l' w' =>
      w_files w' file = w_files w file /\ m_outFile l' <> Some (opened file)
  | Exited _ w' => w_files w' file = w_files w file
  end.
Proof.
  induction opts as [|[opt optarg] opts IH]; intros l w Hopts Hl.
  - cbn. auto.
  - cbn [main_parse].
    assert (Hrest : forall a, In (x6f, a) opts -> w_file_of w a <> file).
    { intros a Ha. apply Hopts. right. exact Ha. }
    destruct (Byte.byte_eq_dec opt x6f) as [->|Hne].
    + assert (Harg : w_file_of w optarg <> file)
        by (apply Hopts; left; reflexivity).
      cbn [main_option]. destruct (m_outFile l); [reflexivity|].
      unfold fopen_wb. destruct (w_creatable w optarg); [|reflexivity].
      pose proof (IH (mk_locals (m_inFile l) (Some (opened (w_file_of w optarg)))
                        (m_mode l) (m_dontPad l) (m_exactPad l))
                    (set_file w (w_file_of w optarg) []) Hrest) as Hstep.
      cbn [m_outFile] in Hstep.
      assert (Hfile : w_files (set_file w (w_file_of w optarg) []) file
                      = w_files w file).
      { apply set_file_other. intros E. apply Harg. symmetry. exact E. }
      rewrite Hfile in Hstep. apply Hstep. intros [= E]. apply Harg. exact E.
    + pose proof (main_option_other opt optarg l w Hne) as Hstep.
      destruct (main_option opt optarg l w) as [l1 w1|s w1].
      * destruct Hstep as [-> Hout]. apply (IH _ _ Hrest).
        destruct Hout as [-> | ->]; [exact Hl | discriminate].
      * rewrite Hstep. reflexivity.
Qed.

(** X16.  [main] opens no file for writing but those that an -o option
    denotes: whatever the command line, a file that is not the one denoted
    by the argument of an -o option has the same content afterwards.
    Everything else that [main] writes goes to the standard streams. *)
Theorem main_writes_only_output_files (opts : list (byte * list byte))
    (w : world) (file : nat) :
  (forall optarg, In (x6f, optarg) opts -> w_file_of w optarg <> file) ->
  w_files (snd (main opts w)) file = w_files w file.
Proof.
  intros Hopts. unfold main.
  pose proof (main_parse_frame file opts
                (mk_locals None None ENCODE false false) w Hopts) as Hparse.
  destruct (main_parse opts _ w) as [l w'|s w'].
  - destruct Hparse as [Hfiles Hout]; [discriminate|].
    destruct (m_inFile l) as [inFile|]; [|exact Hfiles].
    destruct (m_outFile l) as [outFile|]; [|exact Hfiles].
    assert (Hf : outFile <> opened file) by congruence.
    destruct (m_mode l); cbn [snd].
    + unfold EncodeLZSS_files. destruct (seekable w' inFile); [|exact Hfiles].
      rewrite put_bytes_other by exact Hf. exact Hfiles.
    + unfold DecodeLZSS_files.
      destruct (decoded _); [|exact Hfiles].
      rewrite put_bytes_other by exact Hf. exact Hfiles.
  - apply Hparse. discriminate.
Qed.

Lemma main_writes_only_output_files_witness :
  w_files
    (snd (main [(x69, [x61]); (x6f, [x62; x62])]
            (mk_world (fun name => length name)
                      (fun n => if Nat.eqb n 1 then Some [x41; x42] else None)
                      (fun _ => true) [] true [])))
    1%nat
  = w_files
      (mk_world (fun name => length name)
                (fun n => if Nat.eqb n 1 then Some [x41; x42] else None)
                (fun _ => true) [] true [])
      1%nat.
Proof.
  apply (main_writes_only_output_files [(x69, [x61]); (x6f, [x62; x62])]).
  intros optarg [H|[H|[]]]; [discriminate|].
  injection H as <-. discriminate.
Defined.





